(** * VersusBank game runtime: input handler, game loop, scene manager,
      asset manager, menu scene.

    A shallow embedding of the runtime classes and the properties the
    specification states about them.

    Numbers.  JavaScript numbers are IEEE doubles.  The geometry of the
    input handler is modelled over the real numbers [R] (square root,
    [atan2], sine and cosine have no exact counterpart elsewhere), the
    timing arithmetic of the game loop over the rationals [Q] (so that a
    frame can be evaluated), and touch identifiers and millisecond clock
    readings over [Z].  Where rounding decides a property, the arithmetic
    is given over rounded real numbers and over the binary64 numbers as
    well (the vector of [getVirtualJoystick]); the properties stated of the
    game loop are those that do not depend on how its subtractions are
    rounded.  NaN is outside the model, except for the progress of a
    transition.

    Asynchrony.  An [async] method is split at each [await] into the part
    that runs when the method is called and the part that runs when the
    awaited promise settles; both are functions on the object's state. *)

From Stdlib Require Import PrimFloat.
From Stdlib Require FloatOps SpecFloat.
From Stdlib Require Import Reals QArith Qminmax Qround ZArith Lia Lqa Lra List String.
From stdpp Require Import gmap strings list.
Import ListNotations.

(** ** InputHandler (touch part) *)

Module InputHandler.
Local Open Scope R_scope.

(** One entry of [InputState.touches]. *)
Record TouchInfo := mkTouchInfo {
  ti_id : Z;
  ti_x : R;
  ti_y : R;
  ti_startX : R;
  ti_startY : R;
  ti_startTime : Z
}.

Record VirtualJoystick := mkVirtualJoystick {
  vj_x : R;
  vj_y : R;
  vj_radius : R;
  vj_active : bool;
  vj_touchId : option Z   (* number | null *)
}.

(** The handler's state: the active touches and the joystick.  The pressed
    keys and the mouse record are independent of the touch handlers and are
    left out. *)
Record State := mkState {
  touches : list TouchInfo;
  virtualJoystick : VirtualJoystick
}.

(** What a handler reads from the DOM: a [Touch] of the event's
    [changedTouches], the canvas' bounding rectangle and width, and the
    clock. *)
Record Touch := mkTouch {
  identifier : Z;
  clientX : R;
  clientY : R
}.

Record Canvas := mkCanvas {
  rect_left : R;
  rect_top : R;
  width : R
}.

Inductive Gesture :=
| Tap (t : TouchInfo)
| Swipe (t : TouchInfo) (direction : string) (deltaX deltaY : R)
| LongPress (t : TouchInfo).

Definition TAP_TIMEOUT : Z := 300.
Definition SWIPE_THRESHOLD : R := 30.
Definition LONG_PRESS_TIMEOUT : Z := 500.

(** Comparisons of numbers, as booleans. *)
Definition Rltb (a b : R) : bool := if Rlt_dec a b then true else false.
Definition Rleb (a b : R) : bool := if Rle_dec a b then true else false.
Definition Rgtb (a b : R) : bool := Rltb b a.

(** The state the constructor builds. *)
Definition init : State :=
  {| touches := [];
     virtualJoystick :=
       {| vj_x := 0; vj_y := 0; vj_radius := 50;
          vj_active := false; vj_touchId := None |} |}.

(** [Math.atan2 (y, x)], the angle of the point [(x, y)] in (-PI, PI]. *)
Definition atan2 (y x : R) : R :=
  if Rltb 0 x then atan (y / x)
  else if Rltb x 0 then
    (if Rleb 0 y then atan (y / x) + PI else atan (y / x) - PI)
  else if Rltb 0 y then PI / 2
  else if Rltb y 0 then - (PI / 2)
  else 0.

Definition activateVirtualJoystick (x y : R) (touchId : Z) (s : State) : State :=
  {| touches := touches s;
     virtualJoystick :=
       {| vj_x := x; vj_y := y; vj_radius := 50;
          vj_active := true; vj_touchId := Some touchId |} |}.

Definition set_vj_pos (x y : R) (vj : VirtualJoystick) : VirtualJoystick :=
  {| vj_x := x; vj_y := y; vj_radius := vj_radius vj;
     vj_active := vj_active vj; vj_touchId := vj_touchId vj |}.

Definition updateVirtualJoystick (x y : R) (s : State) : State :=
  let vj := virtualJoystick s in
  if negb (vj_active vj) then s
  else
    let dx := x - vj_x vj in
    let dy := y - vj_y vj in
    let distance := sqrt (dx * dx + dy * dy) in
    let maxDistance := vj_radius vj in
    if Rleb distance maxDistance then
      {| touches := touches s; virtualJoystick := set_vj_pos x y vj |}
    else
      let angle := atan2 dy dx in
      {| touches := touches s;
         virtualJoystick :=
           set_vj_pos (vj_x vj + cos angle * maxDistance)
                      (vj_y vj + sin angle * maxDistance) vj |}.

Definition deactivateVirtualJoystick (s : State) : State :=
  {| touches := touches s;
     virtualJoystick :=
       {| vj_x := vj_x (virtualJoystick s); vj_y := vj_y (virtualJoystick s);
          vj_radius := vj_radius (virtualJoystick s);
          vj_active := false; vj_touchId := None |} |}.

Definition getSwipeDirection (deltaX deltaY : R) : string :=
  let absX := Rabs deltaX in
  let absY := Rabs deltaY in
  if Rgtb absX absY then
    (if Rgtb deltaX 0 then "right" else "left")%string
  else
    (if Rgtb deltaY 0 then "down" else "up")%string.

(** [completeGestureRecognition]: the gesture handed to [emitGesture], if
    any; [now] is the reading of [Date.now ()]. *)
Definition completeGestureRecognition (now : Z) (touchInfo : TouchInfo)
  : option Gesture :=
  let touchDuration := (now - ti_startTime touchInfo)%Z in
  let deltaX := ti_x touchInfo - ti_startX touchInfo in
  let deltaY := ti_y touchInfo - ti_startY touchInfo in
  let distance := sqrt (deltaX * deltaX + deltaY * deltaY) in
  if (touchDuration <=? TAP_TIMEOUT)%Z && Rltb distance 10 then
    Some (Tap touchInfo)
  else if Rgtb distance SWIPE_THRESHOLD then
    let direction := getSwipeDirection deltaX deltaY in
    Some (Swipe touchInfo direction deltaX deltaY)
  else None.

(** [touches.find (t => t.id === id)] and [touches.findIndex (...)]. *)
Definition findTouch (id : Z) (ts : list TouchInfo) : option TouchInfo :=
  List.find (fun t => (ti_id t =? id)%Z) ts.

Fixpoint findTouchIndex (id : Z) (ts : list TouchInfo) : option nat :=
  match ts with
  | [] => None
  | t :: ts' =>
      if (ti_id t =? id)%Z then Some O
      else option_map S (findTouchIndex id ts')
  end.

(** The touch records are shared objects: [handleTouchMove] writes the new
    position into the record that [find] returned, that is, into the first
    record of the list with that id. *)
Fixpoint moveTouch (id : Z) (x y : R) (ts : list TouchInfo) : list TouchInfo :=
  match ts with
  | [] => []
  | t :: ts' =>
      if (ti_id t =? id)%Z then
        {| ti_id := ti_id t; ti_x := x; ti_y := y;
           ti_startX := ti_startX t; ti_startY := ti_startY t;
           ti_startTime := ti_startTime t |} :: ts'
      else t :: moveTouch id x y ts'
  end.

(** [touches.splice (i, 1)]. *)
Fixpoint splice1 (i : nat) (ts : list TouchInfo) : list TouchInfo :=
  match ts, i with
  | [], _ => []
  | _ :: ts', O => ts'
  | t :: ts', S i' => t :: splice1 i' ts'
  end.

Definition touchIdIs (vj : VirtualJoystick) (id : Z) : bool :=
  match vj_touchId vj with
  | Some k => (k =? id)%Z
  | None => false
  end.

(** Body of the loop of [handleTouchStart] for one changed touch. *)
Definition touchStart1 (cv : Canvas) (now : Z) (touch : Touch) (s : State) : State :=
  let touchInfo :=
    {| ti_id := identifier touch;
       ti_x := clientX touch - rect_left cv;
       ti_y := clientY touch - rect_top cv;
       ti_startX := clientX touch - rect_left cv;
       ti_startY := clientY touch - rect_top cv;
       ti_startTime := now |} in
  let s1 := {| touches := touches s ++ [touchInfo];
               virtualJoystick := virtualJoystick s |} in
  if Rltb (ti_x touchInfo) (width cv / 2) then
    activateVirtualJoystick (ti_x touchInfo) (ti_y touchInfo) (identifier touch) s1
  else s1.

Definition handleTouchStart (cv : Canvas) (now : Z) (changed : list Touch)
  (s : State) : State :=
  fold_left (fun st touch => touchStart1 cv now touch st) changed s.

(** Body of the loop of [handleTouchMove]. *)
Definition touchMove1 (cv : Canvas) (touch : Touch) (s : State) : State :=
  match findTouch (identifier touch) (touches s) with
  | Some _ =>
      let x := clientX touch - rect_left cv in
      let y := clientY touch - rect_top cv in
      let s1 := {| touches := moveTouch (identifier touch) x y (touches s);
                   virtualJoystick := virtualJoystick s |} in
      if vj_active (virtualJoystick s1) && touchIdIs (virtualJoystick s1) (identifier touch)
      then updateVirtualJoystick x y s1
      else s1
  | None => s
  end.

Definition handleTouchMove (cv : Canvas) (changed : list Touch) (s : State) : State :=
  fold_left (fun st touch => touchMove1 cv touch st) changed s.

(** Body of the loop of [handleTouchEnd]; the second component is the
    gesture emitted, if any. *)
Definition touchEnd1 (now : Z) (touch : Touch) (s : State) : State * list Gesture :=
  let '(s1, out) :=
    match findTouchIndex (identifier touch) (touches s) with
    | Some i =>
        let out :=
          match nth_error (touches s) i with
          | Some touchInfo =>
              match completeGestureRecognition now touchInfo with
              | Some g => [g]
              | None => []
              end
          | None => []
          end in
        ({| touches := splice1 i (touches s);
            virtualJoystick := virtualJoystick s |}, out)
    | None => (s, [])
    end in
  if touchIdIs (virtualJoystick s1) (identifier touch)
  then (deactivateVirtualJoystick s1, out)
  else (s1, out).

Fixpoint handleTouchEnd (now : Z) (changed : list Touch) (s : State)
  : State * list Gesture :=
  match changed with
  | [] => (s, [])
  | touch :: rest =>
      let '(s1, out1) := touchEnd1 now touch s in
      let '(s2, out2) := handleTouchEnd now rest s1 in
      (s2, out1 ++ out2)
  end.

(** The timer armed by [startGestureRecognition] for the touch [id]. *)
Definition longPressTimer (id : Z) (s : State) : list Gesture :=
  match findTouch id (touches s) with
  | Some currentTouch => [LongPress currentTouch]
  | None => []
  end.

(** The value [getVirtualJoystick] returns. *)
Record JoystickReading := mkReading {
  jr_x : R;
  jr_y : R;
  jr_active : bool
}.

(** Truthiness of [touchId : number | null]: [null] and [0] are falsy. *)
Definition truthyId (touchId : option Z) : bool :=
  match touchId with
  | Some k => negb (k =? 0)%Z
  | None => false
  end.

Definition getVirtualJoystick (s : State) : JoystickReading :=
  let vj := virtualJoystick s in
  if negb (vj_active vj) || negb (truthyId (vj_touchId vj)) then
    {| jr_x := 0; jr_y := 0; jr_active := false |}
  else
    match List.find (fun t => touchIdIs vj (ti_id t)) (touches s) with
    | None => {| jr_x := 0; jr_y := 0; jr_active := false |}
    | Some startTouch =>
        let dx := vj_x vj - ti_startX startTouch in
        let dy := vj_y vj - ti_startY startTouch in
        let distance := sqrt (dx * dx + dy * dy) in
        let maxDistance := vj_radius vj in
        {| jr_x := if Rleb distance maxDistance then dx / maxDistance else dx / distance;
           jr_y := if Rleb distance maxDistance then dy / maxDistance else dy / distance;
           jr_active := true |}
    end.

(** The events the handler reacts to, and a run of the handler. *)
Inductive Event :=
| TouchStart (cv : Canvas) (now : Z) (changed : list Touch)
| TouchMove (cv : Canvas) (changed : list Touch)
| TouchEnd (now : Z) (changed : list Touch)
| LongPressTimer (id : Z).

Definition step (s : State) (e : Event) : State * list Gesture :=
  match e with
  | TouchStart cv now changed => (handleTouchStart cv now changed s, [])
  | TouchMove cv changed => (handleTouchMove cv changed s, [])
  | TouchEnd now changed => handleTouchEnd now changed s
  | LongPressTimer id => (s, longPressTimer id s)
  end.

Definition run (evs : list Event) (s : State) : State :=
  fold_left (fun st e => fst (step st e)) evs s.

Definition distance (x1 y1 x2 y2 : R) : R :=
  sqrt ((x1 - x2) * (x1 - x2) + (y1 - y2) * (y1 - y2)).

(** The states the handler can be in. *)
Definition reachable (s : State) : Prop := exists evs, s = run evs init.

(** The direction of a swipe in the specification's words: the axis with
    the greater absolute displacement, a tie going to the horizontal
    axis. *)
Definition claimedDirection (deltaX deltaY : R) : string :=
  if Rleb (Rabs deltaY) (Rabs deltaX) then
    (if Rgtb deltaX 0 then "right" else "left")%string
  else
    (if Rgtb deltaY 0 then "down" else "up")%string.

Definition C6_as_stated (now : Z) (t : TouchInfo) : Prop :=
  let deltaX := ti_x t - ti_startX t in
  let deltaY := ti_y t - ti_startY t in
  SWIPE_THRESHOLD < sqrt (deltaX * deltaX + deltaY * deltaY) ->
  completeGestureRecognition now t =
    Some (Swipe t (claimedDirection deltaX deltaY) deltaX deltaY).

(** Concrete inputs: a 320 pixel wide canvas at the origin of the page, a
    touch in its left half, and three events of one touch. *)
Definition cv0 : Canvas := {| rect_left := 0; rect_top := 0; width := 320 |}.

Definition touchedAt10 : State := run [TouchStart cv0 0 [mkTouch 1 10 10]] init.

Definition touchedWithId0 : State := run [TouchStart cv0 0 [mkTouch 0 10 10]] init.

Definition driftEvents : list Event :=
  [TouchStart cv0 0 [mkTouch 1 10 10];
   TouchMove cv0 [mkTouch 1 50 10];
   TouchMove cv0 [mkTouch 1 90 10]].

Definition diagonalTouch : TouchInfo :=
  {| ti_id := 1; ti_x := 30; ti_y := 30; ti_startX := 0; ti_startY := 0;
     ti_startTime := 0 |}.

(** *** The arithmetic of [getVirtualJoystick]

    The computation of the vector that [getVirtualJoystick] returns is
    given once more, over any implementation of the operations it uses, to
    be read over the exact real numbers (as in [getVirtualJoystick] above),
    over the real numbers with every result rounded, and over the binary64
    numbers, the numbers of JavaScript. *)
Record Arith (T : Type) := mkArith {
  num_sub : T -> T -> T;
  num_add : T -> T -> T;
  num_mul : T -> T -> T;
  num_div : T -> T -> T;
  num_sqrt : T -> T;
  num_leb : T -> T -> bool
}.
Arguments num_sub {T}.
Arguments num_add {T}.
Arguments num_mul {T}.
Arguments num_div {T}.
Arguments num_sqrt {T}.
Arguments num_leb {T}.

(** [Math.sqrt (dx * dx + dy * dy)]. *)
Definition offsetLength {T : Type} (A : Arith T) (dx dy : T) : T :=
  num_sqrt A (num_add A (num_mul A dx dx) (num_mul A dy dy)).

(** The [x] and [y] of the reading, for a joystick at [(vjX, vjY)] whose
    touch started at [(startX, startY)]. *)
Definition joystickVector {T : Type} (A : Arith T) (vjX vjY startX startY radius : T)
  : T * T :=
  let dx := num_sub A vjX startX in
  let dy := num_sub A vjY startY in
  let distance := offsetLength A dx dy in
  let maxDistance := radius in
  (if num_leb A distance maxDistance then num_div A dx maxDistance
   else num_div A dx distance,
   if num_leb A distance maxDistance then num_div A dy maxDistance
   else num_div A dy distance).

Definition exactArith : Arith R :=
  {| num_sub := Rminus; num_add := Rplus; num_mul := Rmult; num_div := Rdiv;
     num_sqrt := sqrt; num_leb := Rleb |}.

(** Every operation returns its exact result rounded by [rnd]. *)
Definition roundedArith (rnd : R -> R) : Arith R :=
  {| num_sub := fun x y => rnd (x - y);
     num_add := fun x y => rnd (x + y);
     num_mul := fun x y => rnd (x * y);
     num_div := fun x y => rnd (x / y);
     num_sqrt := fun x => rnd (sqrt x);
     num_leb := Rleb |}.

Definition binary64 : Arith PrimFloat.float :=
  {| num_sub := PrimFloat.sub; num_add := PrimFloat.add;
     num_mul := PrimFloat.mul; num_div := PrimFloat.div;
     num_sqrt := PrimFloat.sqrt; num_leb := PrimFloat.leb |}.

(** [getVirtualJoystick] with the arithmetic [A]. *)
Definition getVirtualJoystickWith (A : Arith R) (s : State) : JoystickReading :=
  let vj := virtualJoystick s in
  if negb (vj_active vj) || negb (truthyId (vj_touchId vj)) then
    {| jr_x := 0; jr_y := 0; jr_active := false |}
  else
    match List.find (fun t => touchIdIs vj (ti_id t)) (touches s) with
    | None => {| jr_x := 0; jr_y := 0; jr_active := false |}
    | Some startTouch =>
        let v := joystickVector A (vj_x vj) (vj_y vj)
                   (ti_startX startTouch) (ti_startY startTouch) (vj_radius vj) in
        {| jr_x := fst v; jr_y := snd v; jr_active := true |}
    end.

(** The rational number a finite binary64 number is. *)
Definition float_toQ (f : PrimFloat.float) : option Q :=
  match FloatOps.Prim2SF f with
  | SpecFloat.S754_zero _ => Some 0%Q
  | SpecFloat.S754_finite s m e =>
      Some ((if s then -1 else 1) * inject_Z (Zpos m) * Qpower 2 e)%Q
  | _ => None
  end.

(** The vector computed on binary64 numbers for a joystick at (48, 68)
    with radius 50 whose touch started at (10, 10). *)
Definition overshootVector : PrimFloat.float * PrimFloat.float :=
  joystickVector binary64 48%float 68%float 10%float 10%float 50%float.

(** A rounding that is off by the relative error 2^-53 everywhere. *)
Definition roundUp (x : R) : R := x * (1 + / 2 ^ 53).

(** Concrete input: a touch that starts at (10, 10) and moves to (30, 40)
    and then to (48, 68), each move within the radius of the joystick's
    last position. *)
Definition overshootEvents : list Event :=
  [TouchStart cv0 0 [mkTouch 1 10 10];
   TouchMove cv0 [mkTouch 1 30 40];
   TouchMove cv0 [mkTouch 1 48 68]].

(** What [handleTouchMove] leaves alone in a touch record. *)
Definition startInfo (t : TouchInfo) : Z * R * R * Z :=
  (ti_id t, ti_startX t, ti_startY t, ti_startTime t).

(** The joystick is bound to a touch exactly when it is active, and the
    touch it is bound to is one of the active touches. *)
Definition joystickBound (s : State) : Prop :=
  match vj_touchId (virtualJoystick s) with
  | Some k => vj_active (virtualJoystick s) = true /\ In k (map ti_id (touches s))
  | None => vj_active (virtualJoystick s) = false
  end.

Definition isLongPress (g : Gesture) : bool :=
  match g with
  | LongPress _ => true
  | _ => false
  end.

(** The displacement of a touch from its start position. *)
Definition displacement (t : TouchInfo) : R :=
  sqrt ((ti_x t - ti_startX t) * (ti_x t - ti_startX t) +
        (ti_y t - ti_startY t) * (ti_y t - ti_startY t)).

(** Concrete inputs: a touch that has moved by (3, 4), and a touch event in
    the left half of [cv0]. *)
Definition movedTouch : TouchInfo :=
  {| ti_id := 1; ti_x := 13; ti_y := 14; ti_startX := 10; ti_startY := 10;
     ti_startTime := 0 |}.

Definition leftTouch : Touch := mkTouch 1 10 10.

End InputHandler.

(** ** Game (the fixed-timestep loop) *)

Module Game.
Local Open Scope Q_scope.

(** [1000 / 60]; in the code, the double nearest to it. *)
Definition fixedTimeStep : Q := 1000 / 60.
Definition maxDeltaTime : Q := 250.

(** The calls the loop makes into the rest of the engine, in order. *)
Inductive Call :=
| Update (deltaTime : Q)
| Render.

(** The timing fields of [Game]; [calls] records the invocations of
    [update] and [render] made so far. *)
Record State := mkState {
  isRunning : bool;
  isPaused : bool;
  lastTime : Q;
  accumulator : Q;
  frameCount : nat;
  fps : nat;
  fpsUpdateTime : Q;
  fpsFrameCount : nat;
  frameTime : Q;
  calls : list Call
}.

Definition init : State :=
  {| isRunning := false; isPaused := false; lastTime := 0; accumulator := 0;
     frameCount := 0; fps := 0; fpsUpdateTime := 0; fpsFrameCount := 0;
     frameTime := 0; calls := [] |}.

(** [start ()]; [now] is the reading of [performance.now ()]. *)
Definition start (now : Q) (s : State) : State :=
  if isRunning s then s
  else {| isRunning := true; isPaused := false; lastTime := now;
          accumulator := accumulator s; frameCount := frameCount s;
          fps := fps s; fpsUpdateTime := fpsUpdateTime s;
          fpsFrameCount := fpsFrameCount s; frameTime := frameTime s;
          calls := calls s |}.

Definition set_accumulator (a : Q) (s : State) : State :=
  {| isRunning := isRunning s; isPaused := isPaused s; lastTime := lastTime s;
     accumulator := a; frameCount := frameCount s; fps := fps s;
     fpsUpdateTime := fpsUpdateTime s; fpsFrameCount := fpsFrameCount s;
     frameTime := frameTime s; calls := calls s |}.

Definition set_lastTime (t : Q) (s : State) : State :=
  {| isRunning := isRunning s; isPaused := isPaused s; lastTime := t;
     accumulator := accumulator s; frameCount := frameCount s; fps := fps s;
     fpsUpdateTime := fpsUpdateTime s; fpsFrameCount := fpsFrameCount s;
     frameTime := frameTime s; calls := calls s |}.

Definition log_call (c : Call) (s : State) : State :=
  {| isRunning := isRunning s; isPaused := isPaused s; lastTime := lastTime s;
     accumulator := accumulator s; frameCount := frameCount s; fps := fps s;
     fpsUpdateTime := fpsUpdateTime s; fpsFrameCount := fpsFrameCount s;
     frameTime := frameTime s; calls := calls s ++ [c] |}.

(** [update]: the input handler and the scenes are updated unless the game
    is paused; of that only the call itself is recorded. *)
Definition update (deltaTime : Q) (s : State) : State :=
  log_call (Update deltaTime) s.

Definition render (s : State) : State := log_call Render s.

Definition updateFPSCounter (currentTime : Q) (s : State) : State :=
  let n := S (fpsFrameCount s) in
  if Qle_bool 1000 (currentTime - fpsUpdateTime s) then
    {| isRunning := isRunning s; isPaused := isPaused s; lastTime := lastTime s;
       accumulator := accumulator s; frameCount := frameCount s; fps := n;
       fpsUpdateTime := currentTime; fpsFrameCount := 0;
       frameTime := frameTime s; calls := calls s |}
  else
    {| isRunning := isRunning s; isPaused := isPaused s; lastTime := lastTime s;
       accumulator := accumulator s; frameCount := frameCount s; fps := fps s;
       fpsUpdateTime := fpsUpdateTime s; fpsFrameCount := n;
       frameTime := frameTime s; calls := calls s |}.

Definition updatePerformanceMetrics (deltaTime : Q) (s : State) : State :=
  {| isRunning := isRunning s; isPaused := isPaused s; lastTime := lastTime s;
     accumulator := accumulator s; frameCount := S (frameCount s); fps := fps s;
     fpsUpdateTime := fpsUpdateTime s; fpsFrameCount := fpsFrameCount s;
     frameTime := deltaTime; calls := calls s |}.

(** The draining loop
    [while (accumulator >= fixedTimeStep) { update (fixedTimeStep); accumulator -= fixedTimeStep; }]
    run for at most [fuel] iterations; [None] when the fuel does not
    suffice.  The subtraction is exact here and rounded in the code. *)
Fixpoint drain (fuel : nat) (s : State) : option State :=
  if Qle_bool fixedTimeStep (accumulator s) then
    match fuel with
    | O => None
    | S fuel' =>
        let s1 := update fixedTimeStep s in
        drain fuel' (set_accumulator (accumulator s1 - fixedTimeStep) s1)
    end
  else Some s.

(** The clamped elapsed time of a frame. *)
Definition deltaTimeOf (currentTime : Q) (s : State) : Q :=
  Qmin (currentTime - lastTime s) maxDeltaTime.

(** The state in which the draining loop of a frame is entered. *)
Definition beforeDrain (currentTime : Q) (s : State) : State :=
  let deltaTime := deltaTimeOf currentTime s in
  let s1 := set_lastTime currentTime s in
  let s2 := updateFPSCounter currentTime s1 in
  set_accumulator (accumulator s2 + deltaTime) s2.

(** One animation frame: the body of [gameLoop], run with [this] bound to
    the game, as in the callback that a frame registers for the next. *)
Definition gameLoop (fuel : nat) (currentTime : Q) (s : State) : option State :=
  if negb (isRunning s) then Some s
  else
    let deltaTime := deltaTimeOf currentTime s in
    match drain fuel (beforeDrain currentTime s) with
    | None => None
    | Some s3 => Some (updatePerformanceMetrics deltaTime (render s3))
    end.

(** The number of [update] calls recorded in a list of calls. *)
Definition updateCalls (cs : list Call) : nat :=
  length (List.filter (fun c => match c with Update _ => true | Render => false end) cs).

(** Iterations the draining loop makes from accumulator value [a]. *)
Definition stepsNeeded (a : Q) : nat := Z.to_nat (Qfloor (a / fixedTimeStep)).

(** A natural number as a rational. *)
Definition Qnat (n : nat) : Q := inject_Z (Z.of_nat n).

(** A game started at clock reading 100. *)
Definition startedAt100 : State := start 100 init.

(** The same game with 10 ms left in the accumulator. *)
Definition runningWith10 : State := set_accumulator 10 startedAt100.

(** [stop ()]. *)
Definition stop (s : State) : State :=
  {| isRunning := false; isPaused := isPaused s; lastTime := lastTime s;
     accumulator := accumulator s; frameCount := frameCount s; fps := fps s;
     fpsUpdateTime := fpsUpdateTime s; fpsFrameCount := fpsFrameCount s;
     frameTime := frameTime s; calls := calls s |}.

Definition set_isPaused (b : bool) (s : State) : State :=
  {| isRunning := isRunning s; isPaused := b; lastTime := lastTime s;
     accumulator := accumulator s; frameCount := frameCount s; fps := fps s;
     fpsUpdateTime := fpsUpdateTime s; fpsFrameCount := fpsFrameCount s;
     frameTime := frameTime s; calls := calls s |}.

(** A run of animation frames, each requesting the next, with the
    timestamps [times]. *)
Fixpoint frames (fuel : nat) (times : list Q) (s : State) : option State :=
  match times with
  | [] => Some s
  | currentTime :: rest =>
      match gameLoop fuel currentTime s with
      | Some s1 => frames fuel rest s1
      | None => None
      end
  end.

(** Timestamps that do not go back, from [t0] on. *)
Fixpoint nondecreasingFrom (t0 : Q) (times : list Q) : Prop :=
  match times with
  | [] => True
  | t :: rest => t0 <= t /\ nondecreasingFrom t rest
  end.

Definition renderCalls (cs : list Call) : nat :=
  length (List.filter (fun c => match c with Render => true | Update _ => false end) cs).

(** The base resolution, and the integer scale [updateScaling] computes
    for a viewport. *)
Definition width : Q := 320.
Definition height : Q := 180.

Definition updateScaling (viewportWidth viewportHeight : Q) : Z :=
  let scaleX := viewportWidth / width in
  let scaleY := viewportHeight / height in
  Z.max 1 (Qfloor (Qmin scaleX scaleY)).

(** The game's state, beside the timing: [state], [previousState],
    whether the scene manager exists ([this.scenes] is not null), and the
    scene names handed to [scenes.switchTo] so far. *)
Inductive GameState := LOADING | MENU | PLAYING | PAUSED | GAME_OVER | CUTSCENE.

Record Session := mkSession {
  timing : State;
  state : GameState;
  previousState : option GameState;
  scenesReady : bool;
  switches : list string
}.

(** The scene [setState] switches to. *)
Definition sceneFor (newState : GameState) : option string :=
  match newState with
  | PLAYING => Some "game"%string
  | MENU => Some "menu"%string
  | GAME_OVER => Some "gameover"%string
  | LOADING | PAUSED | CUTSCENE => None
  end.

Definition setState (newState : GameState) (g : Session) : Session :=
  {| timing := timing g;
     state := newState;
     previousState := previousState g;
     scenesReady := scenesReady g;
     switches :=
       switches g ++
       match sceneFor newState with
       | Some name => if scenesReady g then [name] else []
       | None => []
       end |}.

Definition pause (g : Session) : Session :=
  if negb (isPaused (timing g)) then
    setState PAUSED
      {| timing := set_isPaused true (timing g);
         state := state g;
         previousState := Some (state g);
         scenesReady := scenesReady g;
         switches := switches g |}
  else g.

Definition resume (g : Session) : Session :=
  if isPaused (timing g) then
    setState (default PLAYING (previousState g))
      {| timing := set_isPaused false (timing g);
         state := state g;
         previousState := previousState g;
         scenesReady := scenesReady g;
         switches := switches g |}
  else g.

(** Concrete inputs: the game in play, and three frames 20 ms apart. *)
Definition playing : Session :=
  {| timing := startedAt100; state := PLAYING; previousState := None;
     scenesReady := true; switches := [] |}.

Definition threeFrames : list Q := [120; 140; 160].

(** The game with 10 ms in the accumulator after a frame that comes a
    second late. *)
Definition afterLateFrame : State :=
  default runningWith10 (gameLoop 20 1100 runningWith10).

(** The same game after a frame that comes 5 ms after the start. *)
Definition afterShortFrame : State :=
  default runningWith10 (gameLoop 20 105 runningWith10).

End Game.

(** ** SceneManager *)

Module SceneManager.

(** A scene is an object; the manager compares scenes by identity
    ([===]), so a scene is represented by its reference. *)
Abbreviation SceneRef := nat (only parsing).

Inductive TransitionType :=
| NONE | FADE | SLIDE_LEFT | SLIDE_RIGHT | SLIDE_UP | SLIDE_DOWN.

(** The calls the manager makes on scene objects. *)
Inductive Effect :=
| InitCalled (scene : SceneRef)
| DestroyCalled (scene : SceneRef).

(** The values [elapsed / transitionDuration] can take. *)
Inductive Num :=
| Fin (q : Q)
| PosInf
| NegInf
| NaN.

Inductive Result (A : Type) :=
| Ok (a : A)
| Throw (msg : string).
Arguments Ok {A} a.
Arguments Throw {A} msg.

(** [scenes] is a [Map], which keeps its keys in the order in which they
    were first set: [sceneOrder] is that order, the order in which
    [scenes.values ()] is gone through. *)
Record State := mkState {
  scenes : gmap string SceneRef;
  sceneOrder : list string;
  initializedScenes : gset string;
  currentScene : option SceneRef;
  previousScene : option SceneRef;
  transitionFromScene : option SceneRef;
  transitionToScene : option SceneRef;
  transitionActive : bool;
  transitionProgress : Num;
  transitionType : TransitionType;
  transitionDuration : Q;
  effects : list Effect
}.

Definition init : State :=
  {| scenes := ∅; sceneOrder := []; initializedScenes := ∅; currentScene := None;
     previousScene := None; transitionFromScene := None;
     transitionToScene := None; transitionActive := false;
     transitionProgress := Fin 0; transitionType := NONE;
     transitionDuration := 500; effects := [] |}.

Definition addScene (name : string) (scene : SceneRef) (s : State) : State :=
  {| scenes := <[name := scene]> (scenes s);
     sceneOrder := if bool_decide (is_Some (scenes s !! name)) then sceneOrder s
                   else sceneOrder s ++ [name];
     initializedScenes := initializedScenes s; currentScene := currentScene s;
     previousScene := previousScene s;
     transitionFromScene := transitionFromScene s;
     transitionToScene := transitionToScene s;
     transitionActive := transitionActive s;
     transitionProgress := transitionProgress s;
     transitionType := transitionType s;
     transitionDuration := transitionDuration s; effects := effects s |}.

Definition removeScene (name : string) (s : State) : Result State :=
  match scenes s !! name with
  | Some scene =>
      if bool_decide (currentScene s = Some scene) then
        Throw ("Cannot remove active scene: " ++ name)
      else
        Ok {| scenes := delete name (scenes s);
              sceneOrder := filter (λ n, n ≠ name) (sceneOrder s);
              initializedScenes := initializedScenes s ∖ {[name]};
              currentScene := currentScene s;
              previousScene := previousScene s;
              transitionFromScene := transitionFromScene s;
              transitionToScene := transitionToScene s;
              transitionActive := transitionActive s;
              transitionProgress := transitionProgress s;
              transitionType := transitionType s;
              transitionDuration := transitionDuration s;
              effects := effects s ++ [DestroyCalled scene] |}
  | None => Ok s
  end.

(** [setTransitionDuration]. *)
Definition setTransitionDuration (duration : Q) (s : State) : State :=
  {| scenes := scenes s; sceneOrder := sceneOrder s;
     initializedScenes := initializedScenes s;
     currentScene := currentScene s; previousScene := previousScene s;
     transitionFromScene := transitionFromScene s;
     transitionToScene := transitionToScene s;
     transitionActive := transitionActive s;
     transitionProgress := transitionProgress s;
     transitionType := transitionType s;
     transitionDuration := Qmax 0 duration; effects := effects s |}.

(** [destroy]: every registered scene is destroyed, in the order of the
    map; the registry, the initialised names and the scene references are
    cleared.  The transition flag, progress, type and duration are left as
    they are. *)
Definition destroy (s : State) : State :=
  {| scenes := ∅; sceneOrder := []; initializedScenes := ∅;
     currentScene := None; previousScene := None;
     transitionFromScene := None; transitionToScene := None;
     transitionActive := transitionActive s;
     transitionProgress := transitionProgress s;
     transitionType := transitionType s;
     transitionDuration := transitionDuration s;
     effects := effects s ++
                omap (λ name, DestroyCalled <$> scenes s !! name) (sceneOrder s) |}.

(** What is left to run of a [switchTo] call once it is suspended: the
    call awaits [newScene.init ()], or its transition waits for the next
    animation frame. *)
Inductive Task :=
| AwaitInit (sceneName : string) (newScene : SceneRef) (transitionType : TransitionType)
| Animating (fromScene : option SceneRef) (toScene : SceneRef) (startTime : Z).

Definition completeTransition (fromScene : option SceneRef) (toScene : SceneRef)
  (s : State) : State :=
  {| scenes := scenes s; sceneOrder := sceneOrder s;
     initializedScenes := initializedScenes s;
     currentScene := Some toScene;
     previousScene := None;
     transitionFromScene := None;
     transitionToScene := None;
     transitionActive := false;
     transitionProgress := Fin 0;
     transitionType := transitionType s;
     transitionDuration := transitionDuration s;
     effects := effects s ++
                match fromScene with
                | Some scene => [DestroyCalled scene]
                | None => []
                end |}.

(** [Math.min (elapsed / transitionDuration, 1)] for an integer [elapsed]. *)
Definition progressOf (elapsed : Z) (duration : Q) : Num :=
  if Qeq_bool duration 0 then
    (if (0 <? elapsed)%Z then Fin 1
     else if (elapsed <? 0)%Z then NegInf
     else NaN)
  else Fin (Qmin (inject_Z elapsed / duration) 1).

(** [progress >= 1]. *)
Definition reachedOne (progress : Num) : bool :=
  match progress with
  | Fin q => Qle_bool 1 q
  | PosInf => true
  | NegInf | NaN => false
  end.

Definition set_progress (p : Num) (s : State) : State :=
  {| scenes := scenes s; sceneOrder := sceneOrder s;
     initializedScenes := initializedScenes s;
     currentScene := currentScene s; previousScene := previousScene s;
     transitionFromScene := transitionFromScene s;
     transitionToScene := transitionToScene s;
     transitionActive := transitionActive s;
     transitionProgress := p;
     transitionType := transitionType s;
     transitionDuration := transitionDuration s; effects := effects s |}.

(** The closure [updateTransition] of [performTransition], run at clock
    reading [now]. *)
Definition updateTransition (fromScene : option SceneRef) (toScene : SceneRef)
  (startTime now : Z) (s : State) : State * option Task :=
  let elapsed := (now - startTime)%Z in
  let s1 := set_progress (progressOf elapsed (transitionDuration s)) s in
  if reachedOne (transitionProgress s1) then
    (completeTransition fromScene toScene s1, None)
  else (s1, Some (Animating fromScene toScene startTime)).

(** [performTransition]: [startTime] is read from the clock, then
    [updateTransition] runs once at once. *)
Definition performTransition (fromScene : option SceneRef) (toScene : SceneRef)
  (startTime now : Z) (s : State) : State * option Task :=
  updateTransition fromScene toScene startTime now s.

(** The part of [switchTo] after the scene's initialisation. *)
Definition startTransition (newScene : SceneRef) (startTime now : Z) (s : State)
  : State * option Task :=
  let s1 :=
    {| scenes := scenes s; sceneOrder := sceneOrder s;
       initializedScenes := initializedScenes s;
       currentScene := currentScene s; previousScene := previousScene s;
       transitionFromScene := currentScene s;
       transitionToScene := Some newScene;
       transitionActive := transitionActive s;
       transitionProgress := transitionProgress s;
       transitionType := transitionType s;
       transitionDuration := transitionDuration s; effects := effects s |} in
  performTransition (currentScene s1) newScene startTime now s1.

(** [switchTo] resumed when [newScene.init ()] has resolved. *)
Definition switchTo_resume (sceneName : string) (newScene : SceneRef)
  (startTime now : Z) (s : State) : State * option Task :=
  let s1 :=
    {| scenes := scenes s;
       sceneOrder := sceneOrder s;
       initializedScenes := initializedScenes s ∪ {[sceneName]};
       currentScene := currentScene s; previousScene := previousScene s;
       transitionFromScene := transitionFromScene s;
       transitionToScene := transitionToScene s;
       transitionActive := transitionActive s;
       transitionProgress := transitionProgress s;
       transitionType := transitionType s;
       transitionDuration := transitionDuration s; effects := effects s |} in
  startTransition newScene startTime now s1.

(** [switchTo], up to its first suspension.  [Throw] is a rejected promise,
    [Ok (s, None)] a call that has returned, [Ok (s, Some t)] a call
    suspended with [t] left to run. *)
Definition switchTo (sceneName : string) (ttype : TransitionType)
  (startTime now : Z) (s : State) : Result (State * option Task) :=
  match scenes s !! sceneName with
  | None => Throw ("Scene not found: " ++ sceneName)
  | Some newScene =>
      if transitionActive s then Ok (s, None)
      else if bool_decide (currentScene s = Some newScene) then Ok (s, None)
      else
        let s1 :=
          {| scenes := scenes s; sceneOrder := sceneOrder s;
             initializedScenes := initializedScenes s;
             currentScene := currentScene s; previousScene := previousScene s;
             transitionFromScene := transitionFromScene s;
             transitionToScene := transitionToScene s;
             transitionActive := true;
             transitionProgress := Fin 0;
             transitionType := ttype;
             transitionDuration := transitionDuration s;
             effects := effects s |} in
        if bool_decide (sceneName ∈ initializedScenes s1) then
          Ok (startTransition newScene startTime now s1)
        else
          Ok ({| scenes := scenes s1; sceneOrder := sceneOrder s1;
                 initializedScenes := initializedScenes s1;
                 currentScene := currentScene s1;
                 previousScene := previousScene s1;
                 transitionFromScene := transitionFromScene s1;
                 transitionToScene := transitionToScene s1;
                 transitionActive := transitionActive s1;
                 transitionProgress := transitionProgress s1;
                 transitionType := transitionType s1;
                 transitionDuration := transitionDuration s1;
                 effects := effects s1 ++ [InitCalled newScene] |},
              Some (AwaitInit sceneName newScene ttype))
  end.

(** The manager together with the suspended [switchTo] calls. *)
Record Machine := mkMachine {
  mgr : State;
  tasks : list Task
}.

(** What happens to a manager: a call of one of the methods that change
    it, the end of a scene's initialisation, or an animation frame. *)
Inductive Event :=
| CallSwitchTo (sceneName : string) (ttype : TransitionType) (startTime now : Z)
| CallAddScene (name : string) (scene : SceneRef)
| CallRemoveScene (name : string)
| InitResolved (i : nat) (startTime now : Z)
| InitRejected (i : nat)
| AnimationFrame (i : nat) (now : Z)
| CallDestroy
| CallSetTransitionDuration (duration : Q).

Definition spawn (t : option Task) : list Task :=
  match t with
  | Some t' => [t']
  | None => []
  end.

Definition step (m : Machine) (e : Event) : Machine :=
  match e with
  | CallSwitchTo sceneName ttype startTime now =>
      match switchTo sceneName ttype startTime now (mgr m) with
      | Ok (s, t) => {| mgr := s; tasks := tasks m ++ spawn t |}
      | Throw _ => m
      end
  | CallAddScene name scene =>
      {| mgr := addScene name scene (mgr m); tasks := tasks m |}
  | CallRemoveScene name =>
      match removeScene name (mgr m) with
      | Ok s => {| mgr := s; tasks := tasks m |}
      | Throw _ => m
      end
  | InitResolved i startTime now =>
      match tasks m !! i with
      | Some (AwaitInit sceneName newScene _) =>
          let '(s, t) := switchTo_resume sceneName newScene startTime now (mgr m) in
          {| mgr := s; tasks := delete i (tasks m) ++ spawn t |}
      | _ => m
      end
  | InitRejected i =>
      match tasks m !! i with
      | Some (AwaitInit _ _ _) => {| mgr := mgr m; tasks := delete i (tasks m) |}
      | _ => m
      end
  | AnimationFrame i now =>
      match tasks m !! i with
      | Some (Animating fromScene toScene startTime) =>
          let '(s, t) := updateTransition fromScene toScene startTime now (mgr m) in
          {| mgr := s; tasks := delete i (tasks m) ++ spawn t |}
      | _ => m
      end
  | CallDestroy => {| mgr := destroy (mgr m); tasks := tasks m |}
  | CallSetTransitionDuration duration =>
      {| mgr := setTransitionDuration duration (mgr m); tasks := tasks m |}
  end.

Definition run (evs : list Event) (m : Machine) : Machine :=
  fold_left step evs m.

(** The claim in the specification's words: while a transition is active
    a call of [switchTo] returns without throwing and changes nothing. *)
Definition C5_as_stated (sceneName : string) (ttype : TransitionType)
  (startTime now : Z) (s : State) : Prop :=
  transitionActive s = true ->
  switchTo sceneName ttype startTime now s = Ok (s, None).

(** Along the events [evs] from [m], the transition stays active with
    [current] as the current scene, until a step at which it is over and
    [incoming] is the current scene. *)
Fixpoint untilCompleted (current : option SceneRef) (incoming : SceneRef)
  (m : Machine) (evs : list Event) : Prop :=
  match evs with
  | [] => True
  | e :: evs' =>
      let m' := step m e in
      (transitionActive (mgr m') = true /\ currentScene (mgr m') = current /\
       untilCompleted current incoming m' evs')
      \/ (transitionActive (mgr m') = false /\
          currentScene (mgr m') = Some incoming)
  end.

(** A transition to [incoming] is under way: the one suspended [switchTo]
    call, if its initialisation has not failed, leads to [incoming]. *)
Definition inTransition (current : option SceneRef) (incoming : SceneRef)
  (m : Machine) : Prop :=
  transitionActive (mgr m) = true /\ currentScene (mgr m) = current /\
  (tasks m = [] \/
   (exists sceneName ttype, tasks m = [AwaitInit sceneName incoming ttype]) \/
   (exists startTime, tasks m = [Animating current incoming startTime])).

(** Concrete inputs: a manager with the scenes "menu" (object 1) and
    "game" (object 2); the same with "menu" shown; the same during the
    transition from "menu" to "game". *)
Definition twoScenes : Machine :=
  run [CallAddScene "menu" 1; CallAddScene "game" 2] (mkMachine init []).

Definition menuShown : Machine :=
  run [CallSwitchTo "menu" NONE 0 0; InitResolved 0 10 10; AnimationFrame 0 510]
      twoScenes.

Definition towardsGame : Machine :=
  run [CallSwitchTo "game" FADE 1000 1000; InitResolved 0 1010 1010] menuShown.

Definition getScene (name : string) (s : State) : option SceneRef :=
  scenes s !! name.

Definition hasScene (name : string) (s : State) : bool :=
  bool_decide (is_Some (scenes s !! name)).

(** [1 - progress] and [extent * progress] for a finite [extent], on the
    values a progress can take. *)
Definition oneMinus (progress : Num) : Num :=
  match progress with
  | Fin q => Fin (1 - q)
  | PosInf => NegInf
  | NegInf => PosInf
  | NaN => NaN
  end.

Definition scaleBy (extent : Q) (progress : Num) : Num :=
  match progress with
  | Fin q => Fin (extent * q)
  | PosInf =>
      if Qlt_le_dec 0 extent then PosInf
      else if Qlt_le_dec extent 0 then NegInf else NaN
  | NegInf =>
      if Qlt_le_dec 0 extent then NegInf
      else if Qlt_le_dec extent 0 then PosInf else NaN
  | NaN => NaN
  end.

(** The calls [render] makes on the renderer and on the scenes. *)
Inductive DrawCall :=
| RenderScene (scene : SceneRef)
| SetGlobalAlpha (alpha : Num)
| GetDimensions
| PushTransform
| Translate (x y : Num)
| PopTransform.

Inductive Direction := Left | Right | Up | Down.

Definition renderFadeTransition (fromScene toScene : SceneRef) (progress : Num)
  : list DrawCall :=
  [SetGlobalAlpha (oneMinus progress); RenderScene fromScene;
   SetGlobalAlpha progress; RenderScene toScene;
   SetGlobalAlpha (Fin 1)].

(** [dims] is what [renderer.getDimensions ()] returns (width, height). *)
Definition renderSlideTransition (dims : Q * Q) (fromScene toScene : SceneRef)
  (progress : Num) (direction : Direction) : list DrawCall :=
  let offsetX :=
    match direction with
    | Left => scaleBy (fst dims) progress
    | Right => scaleBy (- fst dims) progress
    | Up | Down => Fin 0
    end in
  let offsetY :=
    match direction with
    | Up => scaleBy (snd dims) progress
    | Down => scaleBy (- snd dims) progress
    | Left | Right => Fin 0
    end in
  let offsetX' :=
    match direction with
    | Left => scaleBy (- fst dims) (oneMinus progress)
    | Right => scaleBy (fst dims) (oneMinus progress)
    | Up | Down => Fin 0
    end in
  let offsetY' :=
    match direction with
    | Up => scaleBy (- snd dims) (oneMinus progress)
    | Down => scaleBy (snd dims) (oneMinus progress)
    | Left | Right => Fin 0
    end in
  [GetDimensions;
   PushTransform; Translate offsetX offsetY; RenderScene fromScene; PopTransform;
   PushTransform; Translate offsetX' offsetY'; RenderScene toScene; PopTransform].

Definition renderTransition (dims : Q * Q) (fromScene toScene : SceneRef)
  (s : State) : list DrawCall :=
  let progress := transitionProgress s in
  match transitionType s with
  | FADE => renderFadeTransition fromScene toScene progress
  | SLIDE_LEFT => renderSlideTransition dims fromScene toScene progress Left
  | SLIDE_RIGHT => renderSlideTransition dims fromScene toScene progress Right
  | SLIDE_UP => renderSlideTransition dims fromScene toScene progress Up
  | SLIDE_DOWN => renderSlideTransition dims fromScene toScene progress Down
  | NONE => [RenderScene toScene]
  end.

Definition render (dims : Q * Q) (s : State) : list DrawCall :=
  match transitionActive s, transitionFromScene s, transitionToScene s with
  | true, Some fromScene, Some toScene => renderTransition dims fromScene toScene s
  | _, _, _ =>
      match currentScene s with
      | Some scene => [RenderScene scene]
      | None => []
      end
  end.

(** [update]: the scene whose [update] is called, if any. *)
Definition update (s : State) : option SceneRef :=
  if transitionActive s then None else currentScene s.

(** The machines a new manager can come to. *)
Definition reachableM (m : Machine) : Prop :=
  exists evs, m = run evs (mkMachine init []).

(** Between transitions nothing is suspended and the transition scenes
    are cleared; during one, at most one call is suspended and the
    transition scenes are either still cleared or the current scene and
    the incoming one. *)
Definition consistent (m : Machine) : Prop :=
  (length (tasks m) <= 1)%nat /\
  (transitionActive (mgr m) = false -> tasks m = []) /\
  ((transitionFromScene (mgr m) = None /\ transitionToScene (mgr m) = None) \/
   (transitionActive (mgr m) = true /\
    transitionFromScene (mgr m) = currentScene (mgr m) /\
    transitionToScene (mgr m) <> None)).

(** Is [e] a call that takes [name] out of the initialised names:
    [removeScene (name)], or [destroy ()]? *)
Definition forgets (name : string) (e : Event) : Prop :=
  match e with
  | CallRemoveScene name' => name' = name
  | CallDestroy => True
  | _ => False
  end.


Definition isInit (e : Effect) : bool :=
  match e with
  | InitCalled _ => true
  | DestroyCalled _ => false
  end.

(** Concrete input: the manager half a second into nothing, "game"
    (object 2) fading in over "menu" (object 1), with the progress not yet
    updated. *)
Definition fadingToGame : State := mgr towardsGame.

(** A new manager set to transitions of no duration. *)
Definition instant : State := setTransitionDuration 0 init.

(** A manager whose first scene, "menu", is fading in. *)
Definition firstTransition : Machine :=
  run [CallSwitchTo "menu" FADE 0 0; InitResolved 0 10 10; AnimationFrame 0 260]
      twoScenes.

End SceneManager.

(** ** AssetManager *)

Module AssetManager.

Inductive AssetType := IMAGE | AUDIO | JSON | SPRITESHEET | FONT.

(** The payload of a loaded asset (an image, an audio element, parsed
    JSON, ...); only its identity matters here. *)
Abbreviation Data := nat (only parsing).

Record Asset := mkAsset {
  a_id : string;
  a_type : AssetType;
  a_path : string;
  a_loaded : bool;
  a_data : option Data;
  a_error : option string
}.

Record AssetRequest := mkRequest {
  r_id : string;
  r_type : AssetType;
  r_path : string
}.

(** Asset records are objects shared between the [assets] map and the
    suspended [loadAsset] calls that created them: the map holds
    references into [heap].  [started] lists the loads [loadAssetData] has
    begun, in order; a load promise is named by its position there. *)
Abbreviation AssetRef := nat (only parsing).

Record State := mkState {
  heap : list Asset;
  assets : gmap string AssetRef;
  totalAssets : nat;
  loadedAssets : nat;
  failedAssets : nat;
  loadPromises : gmap string nat;
  started : list AssetRequest
}.

Definition init : State :=
  {| heap := []; assets := ∅; totalAssets := 0; loadedAssets := 0;
     failedAssets := 0; loadPromises := ∅; started := [] |}.

(** The asset [loadAsset] returns at once: the one registered under the
    request's id, when it is loaded. *)
Definition cachedAsset (request : AssetRequest) (s : State) : option AssetRef :=
  match assets s !! r_id request with
  | Some a =>
      match heap s !! a with
      | Some asset => if a_loaded asset then Some a else None
      | None => None
      end
  | None => None
  end.

(** A [loadAsset] call after its synchronous part: it has returned the
    cached asset, or it awaits load promise [p] holding the record [a] it
    created. *)
Inductive LoadCall :=
| Cached (a : AssetRef)
| Awaiting (a : AssetRef) (p : nat) (request : AssetRequest).

Definition loadAsset (request : AssetRequest) (s : State) : State * LoadCall :=
  match cachedAsset request s with
  | Some a => (s, Cached a)
  | None =>
      let asset :=
        {| a_id := r_id request; a_type := r_type request;
           a_path := r_path request; a_loaded := false;
           a_data := None; a_error := None |} in
      let a := length (heap s) in
      let p := length (started s) in
      ({| heap := heap s ++ [asset];
          assets := <[r_id request := a]> (assets s);
          totalAssets := totalAssets s;
          loadedAssets := loadedAssets s;
          failedAssets := failedAssets s;
          loadPromises := <[r_id request := p]> (loadPromises s);
          started := started s ++ [request] |},
       Awaiting a p request)
  end.

Definition markLoaded (data : Data) (asset : Asset) : Asset :=
  {| a_id := a_id asset; a_type := a_type asset; a_path := a_path asset;
     a_loaded := true; a_data := Some data; a_error := a_error asset |}.

Definition markFailed (msg : string) (asset : Asset) : Asset :=
  {| a_id := a_id asset; a_type := a_type asset; a_path := a_path asset;
     a_loaded := a_loaded asset; a_data := a_data asset; a_error := Some msg |}.

(** The rest of a suspended [loadAsset] call, run when its load promise
    settles with [outcome] (the data, or the error's message): the asset
    the call returns, or the error it throws. *)
Definition loadAsset_settle (a : AssetRef) (request : AssetRequest)
  (outcome : Data + string) (s : State) : State * (AssetRef + string) :=
  match outcome with
  | inl data =>
      ({| heap := alter (markLoaded data) a (heap s);
          assets := assets s;
          totalAssets := totalAssets s;
          loadedAssets := S (loadedAssets s);
          failedAssets := failedAssets s;
          loadPromises := delete (r_id request) (loadPromises s);
          started := started s |},
       inl a)
  | inr msg =>
      ({| heap := alter (markFailed msg) a (heap s);
          assets := assets s;
          totalAssets := totalAssets s;
          loadedAssets := loadedAssets s;
          failedAssets := S (failedAssets s);
          loadPromises := delete (r_id request) (loadPromises s);
          started := started s |},
       inr msg)
  end.

(** One entry of the array handed to [Promise.all] in [loadAssets]: the
    promise [loadAsset (request).catch (...)], pending or settled with an
    asset or with [null]. *)
Inductive Slot :=
| Waiting (a : AssetRef) (request : AssetRequest)
| Settled (result : option AssetRef).

Definition slotOf (c : LoadCall) : Slot :=
  match c with
  | Cached a => Settled (Some a)
  | Awaiting a _ request => Waiting a request
  end.

Fixpoint loadEach (requests : list AssetRequest) (s : State) : State * list Slot :=
  match requests with
  | [] => (s, [])
  | request :: rest =>
      let '(s1, c) := loadAsset request s in
      let '(s2, slots) := loadEach rest s1 in
      (s2, slotOf c :: slots)
  end.

(** [loadAssets], up to [await Promise.all (loadPromises)]. *)
Definition loadAssets (requests : list AssetRequest) (s : State) : State * list Slot :=
  loadEach requests
    {| heap := heap s; assets := assets s;
       totalAssets := length requests; loadedAssets := 0; failedAssets := 0;
       loadPromises := loadPromises s; started := started s |}.

(** The load behind slot [i] settles with [outcome]. *)
Definition settleSlot (i : nat) (outcome : Data + string) (b : State * list Slot)
  : option (State * list Slot) :=
  match snd b !! i with
  | Some (Waiting a request) =>
      let '(s1, r) := loadAsset_settle a request outcome (fst b) in
      Some (s1, <[i := Settled (match r with
                                | inl asset => Some asset
                                | inr _ => None
                                end)]> (snd b))
  | _ => None
  end.

(** One step of a batch during which nothing else happens to the manager:
    one of the batch's own loads settles.  (A load started by an earlier
    [loadAsset] call that is still pending, or a call made while the batch
    is under way, is not a step of this relation.) *)
Definition settles (b b' : State * list Slot) : Prop :=
  ∃ i outcome, settleSlot i outcome b = Some b'.

Definition isSettled (sl : Slot) : bool :=
  match sl with
  | Settled _ => true
  | Waiting _ _ => false
  end.

Definition succeeded (sl : Slot) : bool :=
  match sl with
  | Settled (Some _) => true
  | _ => false
  end.

Definition failed (sl : Slot) : bool :=
  match sl with
  | Settled None => true
  | _ => false
  end.

Definition slotAsset (sl : Slot) : option AssetRef :=
  match sl with
  | Settled r => r
  | Waiting _ _ => None
  end.

(** What [loadAssets] resolves with, once every slot has settled:
    [results.filter (asset => asset !== null)]. *)
Definition loadAssets_result (slots : list Slot) : option (list AssetRef) :=
  if forallb isSettled slots then Some (omap slotAsset slots) else None.

Record LoadProgress := mkProgress {
  total : nat;
  loaded : nat;
  failedCount : nat;
  percentage : Q
}.

Definition getProgress (s : State) : LoadProgress :=
  let total := Nat.max (totalAssets s) 1 in
  let processed := (loadedAssets s + failedAssets s)%nat in
  let percentage :=
    ((inject_Z (Z.of_nat processed) / inject_Z (Z.of_nat total)) * 100)%Q in
  {| total := totalAssets s;
     loaded := loadedAssets s;
     failedCount := failedAssets s;
     percentage := Qmin percentage 100 |}.

Definition isFullyLoaded (s : State) : bool :=
  if (totalAssets s =? 0)%nat then true
  else (totalAssets s <=? loadedAssets s + failedAssets s)%nat.

(** The number of slots that satisfy [f]. *)
Definition countSlots (f : Slot -> bool) (slots : list Slot) : nat :=
  length (List.filter f slots).

(** The state a batch has come to is what the slots record: the counters
    count the settled slots, the record of a waiting slot exists, the
    record of a slot settled with an asset is loaded. *)
Definition batchInv (b : State * list Slot) : Prop :=
  totalAssets (fst b) = length (snd b) /\
  loadedAssets (fst b) = countSlots succeeded (snd b) /\
  failedAssets (fst b) = countSlots failed (snd b) /\
  Forall (fun sl =>
            match sl with
            | Waiting a _ => (a < length (heap (fst b)))%nat
            | Settled (Some a) =>
                exists asset, heap (fst b) !! a = Some asset /\ a_loaded asset = true
            | Settled None => True
            end) (snd b).

(** Concrete inputs: three requests; a manager in which the first of them
    is loaded already; the batch of the three requests in that manager
    once the second load has succeeded and the third has failed. *)
Definition reqHero : AssetRequest := mkRequest "hero" IMAGE "hero.png".
Definition reqJump : AssetRequest := mkRequest "jump" AUDIO "jump.wav".
Definition reqMap : AssetRequest := mkRequest "map" JSON "missing.json".

Definition heroLoaded : State :=
  fst (loadAsset_settle 0 reqHero (inl 7%nat) (fst (loadAsset reqHero init))).

Definition settleSlot' (i : nat) (outcome : Data + string) (b : State * list Slot)
  : State * list Slot :=
  default b (settleSlot i outcome b).

Definition batchWithCachedHero : State * list Slot :=
  settleSlot' 2 (inr "Failed to load JSON: missing.json")
    (settleSlot' 1 (inl 8%nat) (loadAssets [reqHero; reqJump; reqMap] heroLoaded)).

(** [getAsset]: the record registered under [id], if any. *)
Definition getAsset (id : string) (s : State) : option Asset :=
  match assets s !! id with
  | Some a => heap s !! a
  | None => None
  end.

Definition isAssetLoaded (id : string) (s : State) : bool :=
  match getAsset id s with
  | Some asset => a_loaded asset
  | None => false
  end.

(** [unloadAsset]: the record is taken out of the map (an audio payload
    is paused and rewound first, which does not show in this state). *)
Definition unloadAsset (id : string) (s : State) : State :=
  match assets s !! id with
  | Some _ =>
      {| heap := heap s; assets := delete id (assets s);
         totalAssets := totalAssets s; loadedAssets := loadedAssets s;
         failedAssets := failedAssets s; loadPromises := loadPromises s;
         started := started s |}
  | None => s
  end.

(** [unloadAllAssets]: every key of the map is unloaded in turn, then the
    counters and the load promises are reset. *)
Definition unloadAllAssets (s : State) : State :=
  let s1 := foldr unloadAsset s (map fst (map_to_list (assets s))) in
  {| heap := heap s1; assets := assets s1;
     totalAssets := 0; loadedAssets := 0; failedAssets := 0;
     loadPromises := ∅; started := started s1 |}.

(** Concrete input: the request "hero" of a new manager, pending. *)
Definition heroPending : State := fst (loadAsset reqHero init).

(** A manager together with the [loadAsset] calls that are suspended in
    it: those behind the slots of the [loadAssets] call under way, and
    [l_others], the calls made before it whose loads are still pending
    (each with the record it created and its request). *)
Record Loading := mkLoading {
  l_state : State;
  l_slots : list Slot;
  l_others : list (AssetRef * AssetRequest)
}.

(** [loadAssets (requests)] called while the calls [others] are pending. *)
Definition beginBatch (requests : list AssetRequest)
  (others : list (AssetRef * AssetRequest)) (s : State) : Loading :=
  {| l_state := fst (loadAssets requests s);
     l_slots := snd (loadAssets requests s);
     l_others := others |}.

(** The load behind slot [i] of the batch settles. *)
Definition settleOwn (i : nat) (outcome : Data + string) (w : Loading)
  : option Loading :=
  match settleSlot i outcome (l_state w, l_slots w) with
  | Some b => Some {| l_state := fst b; l_slots := snd b; l_others := l_others w |}
  | None => None
  end.

(** The load of the [j]-th of the other pending calls settles: the rest of
    that [loadAsset] call runs. *)
Definition settleOther (j : nat) (outcome : Data + string) (w : Loading)
  : option Loading :=
  match l_others w !! j with
  | Some (a, request) =>
      Some {| l_state := fst (loadAsset_settle a request outcome (l_state w));
              l_slots := l_slots w;
              l_others := delete j (l_others w) |}
  | None => None
  end.

(** One step while a batch is under way and no method of the manager is
    called: some pending load settles, of the batch or not. *)
Definition proceeds (w w' : Loading) : Prop :=
  (∃ i outcome, settleOwn i outcome w = Some w') ∨
  (∃ j outcome, settleOther j outcome w = Some w').

(** The records the slots refer to exist, and those of the slots settled
    with an asset are loaded. *)
Definition slotsOk (s : State) (slots : list Slot) : Prop :=
  Forall (fun sl =>
            match sl with
            | Waiting a _ => (a < length (heap s))%nat
            | Settled (Some a) =>
                exists asset, heap s !! a = Some asset /\ a_loaded asset = true
            | Settled None => True
            end) slots.

(** Concrete input: the batch of the three requests begun in a manager
    in which an earlier request for "hero" is still pending, once the loads
    of "jump" and "map" and the earlier load of "hero" have settled, the
    batch's own load of "hero" still pending. *)
Definition settleOwn' (i : nat) (outcome : Data + string) (w : Loading) : Loading :=
  default w (settleOwn i outcome w).

Definition settleOther' (j : nat) (outcome : Data + string) (w : Loading) : Loading :=
  default w (settleOther j outcome w).

Definition batchBesidePending : Loading :=
  settleOther' 0 (inl 7%nat)
    (settleOwn' 2 (inr "Failed to load JSON: missing.json")
       (settleOwn' 1 (inl 8%nat)
          (beginBatch [reqHero; reqJump; reqMap] [(0%nat, reqHero)] heroPending))).

(** What holds of a batch whatever else is pending, [n0] calls having been
    pending when it began: the counters count the loads that have settled
    since, those of the other calls included. *)
Definition loadingInv (n0 : nat) (w : Loading) : Prop :=
  totalAssets (l_state w) = length (l_slots w) /\
  (loadedAssets (l_state w) + failedAssets (l_state w) + length (l_others w)
   = countSlots isSettled (l_slots w) + n0)%nat /\
  slotsOk (l_state w) (l_slots w).

End AssetManager.

(** ** MenuScene (the selection among the menu's options) *)

Module MenuScene.

Definition menuOptions : list string :=
  ["Start Game"; "Settings"; "About"; "Exit"]%string.

(** [selectedIndex] is a number; [%] is the remainder with the sign of
    the dividend. *)
Definition selectNext (selectedIndex : Z) : Z :=
  Z.rem (selectedIndex + 1) (Z.of_nat (length menuOptions)).

Definition selectPrevious (selectedIndex : Z) : Z :=
  Z.rem (selectedIndex - 1 + Z.of_nat (length menuOptions))
        (Z.of_nat (length menuOptions)).

(** [selectOption (index)], called by the click handler of option
    [index]. *)
Definition selectOption (index : nat) (selectedIndex : Z) : Z := Z.of_nat index.

(** [menuOptions[selectedIndex] || ''] *)
Definition getSelectedOption (selectedIndex : Z) : string :=
  if (0 <=? selectedIndex)%Z then
    match menuOptions !! Z.to_nat selectedIndex with
    | Some option => option
    | None => ""%string
    end
  else ""%string.

(** [updateSelectedOption]: which option buttons carry the class
    'selected'. *)
Definition updateSelectedOption (selectedIndex : Z) : list bool :=
  map (fun index => (Z.of_nat index =? selectedIndex)%Z) (seq 0 (length menuOptions)).

(** What the user does while the menu is shown: a key, or a click on the
    button of option [index] (there is a button for each option). *)
Inductive Key := ArrowUp | ArrowDown | Enter | Space | Escape | OtherKey.

Inductive Input :=
| KeyDown (key : Key)
| Click (index : nat).

Definition step (selectedIndex : Z) (i : Input) : Z :=
  match i with
  | KeyDown ArrowUp => selectPrevious selectedIndex
  | KeyDown ArrowDown => selectNext selectedIndex
  | KeyDown _ => selectedIndex
  | Click index =>
      if (index <? length menuOptions)%nat then selectOption index selectedIndex
      else selectedIndex
  end.

(** The selection after [inputs], from the first option. *)
Definition run (inputs : list Input) : Z := fold_left step inputs 0%Z.

End MenuScene.

(** * Properties *)

(** ** InputHandler *)

Module InputHandlerSpec.
Import InputHandler.
Local Open Scope R_scope.

Lemma Rltb_true a b : a < b -> Rltb a b = true.
Proof. intros H. unfold Rltb. destruct (Rlt_dec a b); [reflexivity | contradiction]. Qed.

Lemma Rltb_false a b : b <= a -> Rltb a b = false.
Proof. intros H. unfold Rltb. destruct (Rlt_dec a b); [lra | reflexivity]. Qed.

Lemma Rleb_true a b : a <= b -> Rleb a b = true.
Proof. intros H. unfold Rleb. destruct (Rle_dec a b); [reflexivity | contradiction]. Qed.

Lemma Rleb_false a b : b < a -> Rleb a b = false.
Proof. intros H. unfold Rleb. destruct (Rle_dec a b); [lra | reflexivity]. Qed.

Lemma Rltb_spec a b : reflect (a < b) (Rltb a b).
Proof. unfold Rltb. destruct (Rlt_dec a b); constructor; assumption. Qed.

Lemma Rleb_spec a b : reflect (a <= b) (Rleb a b).
Proof. unfold Rleb. destruct (Rle_dec a b); constructor; assumption. Qed.

(** *** The radius is 50 in every state the handler can be in *)

Lemma updateVirtualJoystick_radius x y s :
  vj_radius (virtualJoystick (updateVirtualJoystick x y s)) =
  vj_radius (virtualJoystick s).
Proof.
  unfold updateVirtualJoystick.
  destruct (negb _); [reflexivity |].
  destruct (Rleb _ _); reflexivity.
Qed.

Lemma touchStart1_radius cv now touch s :
  vj_radius (virtualJoystick s) = 50 ->
  vj_radius (virtualJoystick (touchStart1 cv now touch s)) = 50.
Proof.
  intros H. unfold touchStart1. cbn.
  destruct (Rltb _ _); [reflexivity | exact H].
Qed.

Lemma touchMove1_radius cv touch s :
  vj_radius (virtualJoystick (touchMove1 cv touch s)) =
  vj_radius (virtualJoystick s).
Proof.
  unfold touchMove1.
  destruct (findTouch _ _); [| reflexivity].
  destruct (_ && _); [rewrite updateVirtualJoystick_radius |]; reflexivity.
Qed.

Lemma touchEnd1_radius now touch s :
  vj_radius (virtualJoystick (fst (touchEnd1 now touch s))) =
  vj_radius (virtualJoystick s).
Proof.
  unfold touchEnd1.
  destruct (findTouchIndex _ _); cbn;
    destruct (touchIdIs _ _); reflexivity.
Qed.

Lemma handleTouchEnd_radius now changed : forall s,
  vj_radius (virtualJoystick (fst (handleTouchEnd now changed s))) =
  vj_radius (virtualJoystick s).
Proof.
  induction changed as [| touch rest IH]; intros s; [reflexivity |].
  cbn [handleTouchEnd].
  pose proof (touchEnd1_radius now touch s) as H1.
  destruct (touchEnd1 now touch s) as [s1 out1].
  pose proof (IH s1) as H2.
  destruct (handleTouchEnd now rest s1) as [s2 out2].
  cbn in *. congruence.
Qed.

Lemma step_radius s e :
  vj_radius (virtualJoystick s) = 50 ->
  vj_radius (virtualJoystick (fst (step s e))) = 50.
Proof.
  intros H. destruct e as [cv now changed | cv changed | now changed | id]; cbn [step fst].
  - unfold handleTouchStart. revert s H.
    induction changed as [| t rest IH]; intros s H; [exact H |].
    cbn [fold_left]. apply IH, touchStart1_radius, H.
  - unfold handleTouchMove. revert s H.
    induction changed as [| t rest IH]; intros s H; [exact H |].
    cbn [fold_left]. apply IH. rewrite touchMove1_radius. exact H.
  - rewrite handleTouchEnd_radius. exact H.
  - exact H.
Qed.

Lemma run_radius evs : forall s,
  vj_radius (virtualJoystick s) = 50 ->
  vj_radius (virtualJoystick (run evs s)) = 50.
Proof.
  induction evs as [| e evs IH]; intros s H; [exact H |].
  unfold run in *. cbn [fold_left]. apply IH, step_radius, H.
Qed.

Lemma reachable_radius s : reachable s -> vj_radius (virtualJoystick s) = 50.
Proof. intros [evs ->]. apply run_radius. reflexivity. Qed.

(** *** Evaluating the handlers on concrete events *)

Lemma sqrt_le_bound q r : 0 <= r -> q <= r * r -> sqrt q <= r.
Proof.
  intros Hr Hq. rewrite <- (sqrt_square r Hr). apply sqrt_le_1_alt, Hq.
Qed.

Lemma sqrt_gt_bound q r : 0 <= r -> r * r < q -> r < sqrt q.
Proof.
  intros Hr Hq. rewrite <- (sqrt_square r Hr) at 1.
  apply sqrt_lt_1_alt. split; [nra | exact Hq].
Qed.

Lemma touchStart1_left cv now touch s :
  clientX touch - rect_left cv < width cv / 2 ->
  touchStart1 cv now touch s =
  {| touches := touches s ++
       [{| ti_id := identifier touch;
           ti_x := clientX touch - rect_left cv;
           ti_y := clientY touch - rect_top cv;
           ti_startX := clientX touch - rect_left cv;
           ti_startY := clientY touch - rect_top cv;
           ti_startTime := now |}];
     virtualJoystick :=
       {| vj_x := clientX touch - rect_left cv;
          vj_y := clientY touch - rect_top cv;
          vj_radius := 50; vj_active := true;
          vj_touchId := Some (identifier touch) |} |}.
Proof.
  intros H. unfold touchStart1. cbn [ti_x ti_y].
  rewrite (Rltb_true _ _ H). reflexivity.
Qed.

Lemma updateVirtualJoystick_within x y s :
  vj_active (virtualJoystick s) = true ->
  sqrt ((x - vj_x (virtualJoystick s)) * (x - vj_x (virtualJoystick s)) +
        (y - vj_y (virtualJoystick s)) * (y - vj_y (virtualJoystick s)))
    <= vj_radius (virtualJoystick s) ->
  updateVirtualJoystick x y s =
  {| touches := touches s; virtualJoystick := set_vj_pos x y (virtualJoystick s) |}.
Proof.
  intros Ha Hd. unfold updateVirtualJoystick. rewrite Ha. cbn [negb].
  rewrite (Rleb_true _ _ Hd). reflexivity.
Qed.

(** In the other branch the joystick moves by exactly the radius, away
    from its previous position. *)
Lemma updateVirtualJoystick_beyond x y s :
  vj_active (virtualJoystick s) = true ->
  0 <= vj_radius (virtualJoystick s) ->
  vj_radius (virtualJoystick s) <
    sqrt ((x - vj_x (virtualJoystick s)) * (x - vj_x (virtualJoystick s)) +
          (y - vj_y (virtualJoystick s)) * (y - vj_y (virtualJoystick s))) ->
  let s' := updateVirtualJoystick x y s in
  distance (vj_x (virtualJoystick s')) (vj_y (virtualJoystick s'))
           (vj_x (virtualJoystick s)) (vj_y (virtualJoystick s))
  = vj_radius (virtualJoystick s).
Proof.
  intros Ha Hr Hd. unfold updateVirtualJoystick. rewrite Ha. cbn [negb].
  rewrite (Rleb_false _ _ Hd). cbn. unfold distance.
  set (a := atan2 _ _). set (r := vj_radius _) in *.
  replace (_ + _) with ((r * r) * (sin a * sin a + cos a * cos a)) by ring.
  pose proof (sin2_cos2 a) as Hsc. unfold Rsqr in Hsc. rewrite Hsc, Rmult_1_r.
  apply sqrt_square, Hr.
Qed.

Lemma run_after_first e evs s : run (e :: evs) s = run evs (run [e] s).
Proof. reflexivity. Qed.

Lemma run_touch_start id x y now :
  x - 0 < 320 / 2 ->
  run [TouchStart cv0 now [mkTouch id x y]] init =
  {| touches := [mkTouchInfo id (x - 0) (y - 0) (x - 0) (y - 0) now];
     virtualJoystick := mkVirtualJoystick (x - 0) (y - 0) 50 true (Some id) |}.
Proof.
  intros H. unfold run. cbn [fold_left step fst handleTouchStart].
  rewrite touchStart1_left by exact H. reflexivity.
Qed.

Lemma touchMove1_tracking cv touch t ts vj :
  ti_id t = identifier touch ->
  vj_active vj = true ->
  vj_touchId vj = Some (identifier touch) ->
  touchMove1 cv touch {| touches := t :: ts; virtualJoystick := vj |} =
  updateVirtualJoystick (clientX touch - rect_left cv) (clientY touch - rect_top cv)
    {| touches :=
         mkTouchInfo (ti_id t) (clientX touch - rect_left cv)
           (clientY touch - rect_top cv) (ti_startX t) (ti_startY t)
           (ti_startTime t) :: ts;
       virtualJoystick := vj |}.
Proof.
  intros Hid Ha Hvj. unfold touchMove1, findTouch, touchIdIs.
  cbn [touches virtualJoystick List.find moveTouch].
  rewrite Hid, Z.eqb_refl, Ha, Hvj, Z.eqb_refl. reflexivity.
Qed.

(** *** Rounded arithmetic *)

Section Rounding.
Variable rnd : R -> R.
Variable u : R.
Hypothesis Hu : 0 <= u <= / 2 ^ 53.
Hypothesis Hrnd : forall x, Rabs (rnd x - x) <= u * Rabs x.

Lemma u_small : 0 <= u /\ u < 1.
Proof. assert (/ 2 ^ 53 < 1) by lra. lra. Qed.

Lemma rnd_lower x : 0 <= x -> (1 - u) * x <= rnd x.
Proof.
  intros Hx. pose proof (Hrnd x) as H. rewrite (Rabs_right x) in H by lra.
  pose proof (Rle_abs (- (rnd x - x))) as H'. rewrite Rabs_Ropp in H'. lra.
Qed.

Lemma rnd_square x : rnd x * rnd x <= (1 + u) * (1 + u) * (x * x).
Proof.
  pose proof (Hrnd x) as H. pose proof u_small as [Hu0 _].
  assert (Ha : Rabs (rnd x) <= (1 + u) * Rabs x).
  { replace (rnd x) with ((rnd x - x) + x) by ring.
    eapply Rle_trans; [apply Rabs_triang |]. lra. }
  assert (H0 : 0 <= Rabs (rnd x)) by apply Rabs_pos.
  assert (H1 : 0 <= Rabs x) by apply Rabs_pos.
  replace (rnd x * rnd x) with (Rabs (rnd x) * Rabs (rnd x))
    by (rewrite <- Rabs_mult; apply Rabs_right; nra).
  replace (x * x) with (Rabs x * Rabs x)
    by (rewrite <- Rabs_mult; apply Rabs_right; nra).
  nra.
Qed.

(** The computed length of an offset is not negative and falls short of
    the length by the factor (1 - u)^2 at most. *)
Lemma computed_length dx dy :
  let d := offsetLength (roundedArith rnd) dx dy in
  0 <= d /\
  (1 - u) ^ 4 * (dx * dx + dy * dy) <= d * d.
Proof.
  intros d. unfold offsetLength in d.
  cbn [roundedArith num_sqrt num_add num_mul] in d. subst d.
  set (d := rnd (sqrt _)). pose proof u_small as [Hu0 Hu1].
  assert (Hx2 : 0 <= dx * dx) by nra.
  assert (Hy2 : 0 <= dy * dy) by nra.
  assert (Hp : (1 - u) * (dx * dx) <= rnd (dx * dx)) by (apply rnd_lower; exact Hx2).
  assert (Hq : (1 - u) * (dy * dy) <= rnd (dy * dy)) by (apply rnd_lower; exact Hy2).
  assert (Hp0 : 0 <= rnd (dx * dx)).
  { eapply Rle_trans; [| exact Hp]. apply Rmult_le_pos; lra. }
  assert (Hq0 : 0 <= rnd (dy * dy)).
  { eapply Rle_trans; [| exact Hq]. apply Rmult_le_pos; lra. }
  set (p := rnd (dx * dx)) in *. set (q := rnd (dy * dy)) in *.
  assert (Hs : (1 - u) * (p + q) <= rnd (p + q)) by (apply rnd_lower; lra).
  set (sm := rnd (p + q)) in *.
  assert (Hs0 : 0 <= sm).
  { eapply Rle_trans; [| exact Hs]. apply Rmult_le_pos; lra. }
  pose proof (sqrt_pos sm) as Hr0. pose proof (sqrt_def sm Hs0) as Hrr.
  assert (Hd : (1 - u) * sqrt sm <= d) by (apply rnd_lower; exact Hr0).
  assert (Hd0 : 0 <= d).
  { eapply Rle_trans; [| exact Hd]. apply Rmult_le_pos; lra. }
  split; [exact Hd0 |].
  set (w := 1 - u) in *. assert (Hw : 0 <= w) by (unfold w; lra).
  assert (H2 : w * w * sm <= d * d).
  { rewrite <- Hrr. replace (w * w * (sqrt sm * sqrt sm))
      with ((w * sqrt sm) * (w * sqrt sm)) by ring.
    apply Rmult_le_compat; try exact Hd; apply Rmult_le_pos; assumption. }
  assert (H3 : w * w * (dx * dx + dy * dy) <= sm).
  { eapply Rle_trans; [| exact Hs].
    rewrite Rmult_assoc. apply Rmult_le_compat_l; [exact Hw |].
    rewrite Rmult_plus_distr_l. lra. }
  replace (w ^ 4) with (w * w * (w * w)) by ring.
  eapply Rle_trans; [| exact H2].
  rewrite Rmult_assoc. apply Rmult_le_compat_l; [nra | exact H3].
Qed.

Lemma vector_bound dx dy c :
  0 < c ->
  (1 - u) ^ 4 * (dx * dx + dy * dy) <= c * c ->
  (rnd (dx / c) * rnd (dx / c) + rnd (dy / c) * rnd (dy / c)) * (1 - u) ^ 4
    <= (1 + u) ^ 2.
Proof.
  intros Hc Hle. pose proof u_small as [Hu0 Hu1].
  pose proof (rnd_square (dx / c)) as Hx. pose proof (rnd_square (dy / c)) as Hy.
  assert (E : dx / c * (dx / c) + dy / c * (dy / c) = (dx * dx + dy * dy) / (c * c))
    by (field; lra).
  assert (Hq : (dx * dx + dy * dy) / (c * c) * (1 - u) ^ 4 <= 1).
  { apply (Rmult_le_reg_r (c * c)); [nra |].
    replace ((dx * dx + dy * dy) / (c * c) * (1 - u) ^ 4 * (c * c))
      with ((1 - u) ^ 4 * (dx * dx + dy * dy)) by (field; lra).
    lra. }
  assert (H4 : 0 <= (1 - u) ^ 4) by (apply pow_le; lra).
  replace ((1 + u) ^ 2) with ((1 + u) * (1 + u)) by ring.
  assert (Hsum : rnd (dx / c) * rnd (dx / c) + rnd (dy / c) * rnd (dy / c)
                 <= (1 + u) * (1 + u) * ((dx * dx + dy * dy) / (c * c)))
    by (rewrite <- E; nra).
  assert (H1u : 0 <= (1 + u) * (1 + u)) by nra.
  eapply Rle_trans; [apply Rmult_le_compat_r; [exact H4 | exact Hsum] |].
  rewrite Rmult_assoc.
  rewrite <- (Rmult_1_r ((1 + u) * (1 + u))) at 2.
  apply Rmult_le_compat_l; [exact H1u | exact Hq].
Qed.

Lemma near_one q :
  0 <= q -> q * (1 - u) ^ 4 <= (1 + u) ^ 2 -> q <= 1 + / 2 ^ 50.
Proof.
  intros Hq H. pose proof u_small as [Hu0 Hu1].
  assert (HU : u <= / 2 ^ 53) by lra.
  assert (E : / 2 ^ 50 = 8 * / 2 ^ 53) by (field).
  assert (HUs : / 2 ^ 53 <= / 1000) by lra.
  set (U := / 2 ^ 53) in *.
  assert (H4 : 1 - 4 * u <= (1 - u) ^ 4).
  { replace ((1 - u) ^ 4) with (1 - 4 * u + u * u * (6 - 4 * u + u * u)) by ring. nra. }
  assert (Hpos : 0 < 1 - 4 * u) by lra.
  assert (Hb : (1 + u) ^ 2 <= (1 + 8 * U) * (1 - 4 * u)).
  { replace ((1 + u) ^ 2) with (1 + 2 * u + u * u) by ring. nra. }
  rewrite E.
  apply (Rmult_le_reg_r (1 - 4 * u)); [exact Hpos |].
  eapply Rle_trans; [apply Rmult_le_compat_l; [exact Hq | exact H4] |].
  lra.
Qed.

(** The vector computed with rounding from a joystick position, a start
    position and a positive radius. *)
Lemma joystickVector_rounded vjX vjY startX startY radius :
  0 < radius ->
  let A := roundedArith rnd in
  let dx := rnd (vjX - startX) in
  let dy := rnd (vjY - startY) in
  let d := offsetLength A dx dy in
  let v := joystickVector A vjX vjY startX startY radius in
  (d <= radius -> v = (rnd (dx / radius), rnd (dy / radius))) /\
  (radius < d -> v = (rnd (dx / d), rnd (dy / d))) /\
  (fst v * fst v + snd v * snd v) * (1 - u) ^ 4 <= (1 + u) ^ 2.
Proof.
  intros Hr A dx dy d v.
  destruct (computed_length dx dy) as [Hd0 Hlen]. fold A d in Hd0, Hlen.
  subst v. unfold joystickVector.
  change (num_sub A vjX startX) with dx. change (num_sub A vjY startY) with dy.
  fold d. change (num_leb A d radius) with (Rleb d radius).
  change (num_div A) with (fun x y => rnd (x / y)). cbv beta.
  destruct (Rleb_spec d radius) as [Hle | Hgt].
  - split; [intros _; reflexivity |]. split; [intros Hc; lra |].
    cbn [fst snd]. apply vector_bound; [exact Hr |].
    eapply Rle_trans; [exact Hlen |]. nra.
  - split; [intros Hc; lra |]. split; [intros _; reflexivity |].
    cbn [fst snd]. apply vector_bound; [lra | exact Hlen].
Qed.

End Rounding.

Lemma getVirtualJoystick_exact s :
  getVirtualJoystickWith exactArith s = getVirtualJoystick s.
Proof.
  unfold getVirtualJoystickWith, getVirtualJoystick.
  destruct (negb _ || negb _); [reflexivity |].
  destruct (List.find _ _); reflexivity.
Qed.

Lemma overshoot_state :
  run overshootEvents init =
  {| touches := [mkTouchInfo 1 (48 - 0) (68 - 0) (10 - 0) (10 - 0) 0];
     virtualJoystick := mkVirtualJoystick (48 - 0) (68 - 0) 50 true (Some 1%Z) |}.
Proof.
  unfold overshootEvents. rewrite run_after_first, run_touch_start by lra.
  unfold run. cbn [fold_left step fst handleTouchMove].
  rewrite touchMove1_tracking by reflexivity.
  rewrite updateVirtualJoystick_within;
    [| reflexivity | cbn; apply sqrt_le_bound; lra].
  cbn [touches virtualJoystick set_vj_pos vj_active vj_radius vj_touchId
       ti_id ti_startX ti_startY ti_startTime clientX clientY rect_left rect_top cv0 identifier].
  rewrite touchMove1_tracking by reflexivity.
  rewrite updateVirtualJoystick_within;
    [| reflexivity | cbn; apply sqrt_le_bound; lra].
  reflexivity.
Qed.

Lemma roundUp_error x : Rabs (roundUp x - x) <= / 2 ^ 53 * Rabs x.
Proof.
  unfold roundUp. replace (x * (1 + / 2 ^ 53) - x) with (/ 2 ^ 53 * x) by ring.
  rewrite Rabs_mult, (Rabs_right (/ 2 ^ 53)) by lra. lra.
Qed.

(** *** Claims *)

(** C9, as the claim states it, fails in double arithmetic: in the state
    reached by a touch that starts at (10, 10) and moves to (30, 40) and
    then to (48, 68), both moves being within the radius in doubles as in
    exact arithmetic, the joystick is at (48, 68), its touch started at
    (10, 10) and [getVirtualJoystick] returns [active: true]; the vector
    computed on binary64 numbers is
    (0.54802625731087296, 0.83646112957975349), in hexadecimal
    (0x1.1896e5c8ffbbep-1, 0x1.ac44a217d72c4p-1), and the sum of the
    squares of these two numbers is greater than 1. *)
Theorem C9_magnitude_exceeds_one_in_doubles :
  let s := run overshootEvents init in
  jr_active (getVirtualJoystick s) = true /\
  vj_x (virtualJoystick s) = 48 /\ vj_y (virtualJoystick s) = 68 /\
  vj_radius (virtualJoystick s) = 50 /\
  (exists t, findTouch 1 (touches s) = Some t /\
             ti_startX t = 10 /\ ti_startY t = 10) /\
  num_leb binary64
    (offsetLength binary64 (num_sub binary64 30 10) (num_sub binary64 40 10))%float
    50%float = true /\
  num_leb binary64
    (offsetLength binary64 (num_sub binary64 48 30) (num_sub binary64 68 40))%float
    50%float = true /\
  overshootVector = (0x1.1896e5c8ffbbep-1, 0x1.ac44a217d72c4p-1)%float /\
  exists x y : Q,
    float_toQ (fst overshootVector) = Some x /\
    float_toQ (snd overshootVector) = Some y /\
    (1 < x * x + y * y)%Q.
Proof.
  cbv zeta. rewrite overshoot_state.
  split; [reflexivity |].
  cbn [virtualJoystick vj_x vj_y vj_radius touches].
  split; [lra |]. split; [lra |]. split; [reflexivity |].
  split.
  { eexists. split; [reflexivity |]. cbn [ti_startX ti_startY]. split; lra. }
  split; [vm_compute; reflexivity |]. split; [vm_compute; reflexivity |].
  split; [vm_compute; reflexivity |].
  eexists _, _. split; [vm_compute; reflexivity |].
  split; [vm_compute; reflexivity |]. vm_compute. reflexivity.
Qed.

(** C9, amended: in every state with a positive joystick radius (the
    radius is 50 in every state the handler builds) in which
    [getVirtualJoystick] returns [active: true], the vector returned is the
    offset of the joystick from the start position of its touch, divided
    by the radius when the computed length of the offset is within the
    radius and by that computed length otherwise, and its magnitude is at
    most 1 up to the rounding of the arithmetic: when every operation
    returns its exact result with a relative error of at most u (u = 0 in
    exact arithmetic, u = 2^-53 in double arithmetic without overflow and
    underflow), then x^2 + y^2 <= (1 + u)^2 / (1 - u)^4, which is 1 in
    exact arithmetic and at most 1 + 2^-50 in doubles. *)
Theorem C9_joystick_reading_near_unit_disc (rnd : R -> R) (u : R) (s : State) :
  0 <= u <= / 2 ^ 53 ->
  (forall x, Rabs (rnd x - x) <= u * Rabs x) ->
  0 < vj_radius (virtualJoystick s) ->
  jr_active (getVirtualJoystickWith (roundedArith rnd) s) = true ->
  exists startTouch,
    List.find (fun t => touchIdIs (virtualJoystick s) (ti_id t)) (touches s)
      = Some startTouch /\
    let dx := rnd (vj_x (virtualJoystick s) - ti_startX startTouch) in
    let dy := rnd (vj_y (virtualJoystick s) - ti_startY startTouch) in
    let d := offsetLength (roundedArith rnd) dx dy in
    let radius := vj_radius (virtualJoystick s) in
    let r := getVirtualJoystickWith (roundedArith rnd) s in
    (d <= radius -> jr_x r = rnd (dx / radius) /\ jr_y r = rnd (dy / radius)) /\
    (radius < d -> jr_x r = rnd (dx / d) /\ jr_y r = rnd (dy / d)) /\
    (jr_x r * jr_x r + jr_y r * jr_y r) * (1 - u) ^ 4 <= (1 + u) ^ 2 /\
    jr_x r * jr_x r + jr_y r * jr_y r <= 1 + / 2 ^ 50 /\
    (u = 0 -> jr_x r * jr_x r + jr_y r * jr_y r <= 1).
Proof.
  intros Hu Hrnd Hrad Hact.
  unfold getVirtualJoystickWith in *.
  destruct (negb (vj_active (virtualJoystick s)) || _); [discriminate |].
  destruct (List.find _ (touches s)) as [startTouch |]; [| discriminate].
  exists startTouch. split; [reflexivity |].
  cbn [jr_x jr_y].
  destruct (joystickVector_rounded rnd u Hu Hrnd
              (vj_x (virtualJoystick s)) (vj_y (virtualJoystick s))
              (ti_startX startTouch) (ti_startY startTouch)
              (vj_radius (virtualJoystick s)) Hrad) as (Hin & Hout & Hb).
  cbv zeta in Hin, Hout, Hb |- *.
  set (v := joystickVector _ _ _ _ _ _) in *.
  split; [intros Hle; rewrite (Hin Hle); split; reflexivity |].
  split; [intros Hgt; rewrite (Hout Hgt); split; reflexivity |].
  split; [exact Hb |].
  assert (Hq : 0 <= fst v * fst v + snd v * snd v) by nra.
  split; [exact (near_one u Hu _ Hq Hb) |].
  intros ->. replace ((1 - 0) ^ 4) with 1 in Hb by ring.
  replace ((1 + 0) ^ 2) with 1 in Hb by ring. lra.
Qed.

Lemma C9_joystick_reading_witness :
  exists startTouch,
    List.find (fun t => touchIdIs (virtualJoystick (run overshootEvents init)) (ti_id t))
      (touches (run overshootEvents init)) = Some startTouch /\
    let dx := roundUp (vj_x (virtualJoystick (run overshootEvents init))
                       - ti_startX startTouch) in
    let dy := roundUp (vj_y (virtualJoystick (run overshootEvents init))
                       - ti_startY startTouch) in
    let d := offsetLength (roundedArith roundUp) dx dy in
    let radius := vj_radius (virtualJoystick (run overshootEvents init)) in
    let r := getVirtualJoystickWith (roundedArith roundUp) (run overshootEvents init) in
    (d <= radius -> jr_x r = roundUp (dx / radius) /\ jr_y r = roundUp (dy / radius)) /\
    (radius < d -> jr_x r = roundUp (dx / d) /\ jr_y r = roundUp (dy / d)) /\
    (jr_x r * jr_x r + jr_y r * jr_y r) * (1 - / 2 ^ 53) ^ 4 <= (1 + / 2 ^ 53) ^ 2 /\
    jr_x r * jr_x r + jr_y r * jr_y r <= 1 + / 2 ^ 50 /\
    (/ 2 ^ 53 = 0 -> jr_x r * jr_x r + jr_y r * jr_y r <= 1).
Proof.
  apply (C9_joystick_reading_near_unit_disc roundUp (/ 2 ^ 53) (run overshootEvents init)).
  - lra.
  - exact roundUp_error.
  - rewrite overshoot_state. cbn [virtualJoystick vj_radius]. lra.
  - rewrite overshoot_state. reflexivity.
Defined.

(** C10: when the joystick is active and bound to touch identifier 0,
    [getVirtualJoystick] returns the inactive result, whatever the touches
    are: the guard [!touchId] takes 0 for a missing id. *)
Theorem C10_touch_id_zero_reads_inactive (s : State) :
  vj_active (virtualJoystick s) = true ->
  vj_touchId (virtualJoystick s) = Some 0%Z ->
  getVirtualJoystick s = {| jr_x := 0; jr_y := 0; jr_active := false |}.
Proof.
  intros Ha Hid. unfold getVirtualJoystick. rewrite Ha, Hid. reflexivity.
Qed.

Lemma C10_touch_id_zero_witness :
  findTouch 0 (touches touchedWithId0) <> None /\
  getVirtualJoystick touchedWithId0 = {| jr_x := 0; jr_y := 0; jr_active := false |}.
Proof.
  assert (E : touchedWithId0 =
              {| touches := [mkTouchInfo 0 (10 - 0) (10 - 0) (10 - 0) (10 - 0) 0];
                 virtualJoystick := mkVirtualJoystick (10 - 0) (10 - 0) 50 true (Some 0%Z) |})
    by (unfold touchedWithId0; apply run_touch_start; lra).
  split.
  - rewrite E. discriminate.
  - apply (C10_touch_id_zero_reads_inactive touchedWithId0); rewrite E; reflexivity.
Defined.

(** C1 (the code departs from the claim): [updateVirtualJoystick] measures
    the move from the joystick's last position, not from the anchor.  A
    touch that starts at (10, 10) and moves to (50, 10) and then to
    (90, 10) moves the joystick by 40 each time, so the joystick, still
    active, ends at (90, 10), at distance 80 from the start position of its
    touch, beyond the radius 50. *)
Theorem C1_joystick_drifts_beyond_radius :
  let s := run driftEvents init in
  vj_active (virtualJoystick s) = true /\
  vj_touchId (virtualJoystick s) = Some 1%Z /\
  exists t, findTouch 1 (touches s) = Some t /\
    distance (vj_x (virtualJoystick s)) (vj_y (virtualJoystick s))
             (ti_startX t) (ti_startY t) = 80 /\
    vj_radius (virtualJoystick s) = 50.
Proof.
  unfold driftEvents. rewrite run_after_first, run_touch_start by lra.
  unfold run. cbn [fold_left step fst handleTouchMove].
  rewrite touchMove1_tracking by reflexivity.
  rewrite updateVirtualJoystick_within;
    [| reflexivity | cbn; apply sqrt_le_bound; lra].
  cbn [touches virtualJoystick set_vj_pos vj_active vj_radius vj_touchId
       ti_id ti_startX ti_startY ti_startTime clientX clientY rect_left rect_top cv0 identifier].
  rewrite touchMove1_tracking by reflexivity.
  rewrite updateVirtualJoystick_within;
    [| reflexivity | cbn; apply sqrt_le_bound; lra].
  cbn [touches virtualJoystick set_vj_pos vj_active vj_radius vj_touchId vj_x vj_y
       ti_id ti_startX ti_startY ti_startTime clientX clientY rect_left rect_top cv0 identifier].
  split; [reflexivity |]. split; [reflexivity |].
  eexists. split; [reflexivity |].
  cbn [ti_startX ti_startY]. split; [| reflexivity].
  unfold distance.
  replace ((90 - 0 - (10 - 0)) * (90 - 0 - (10 - 0)) +
           (10 - 0 - (10 - 0)) * (10 - 0 - (10 - 0))) with (80 * 80) by ring.
  apply sqrt_square. lra.
Qed.

(** C6, as the claim states it, fails on a diagonal swipe: for a touch
    that moved by (30, 30) the handler emits a swipe "down", where the
    claim resolves the tie to the horizontal axis ("right"). *)
Lemma C6_tie_is_vertical : ~ C6_as_stated 100 diagonalTouch.
Proof.
  unfold C6_as_stated, diagonalTouch, completeGestureRecognition.
  cbn [ti_x ti_y ti_startX ti_startY ti_startTime].
  intros H.
  assert (Hd : 30 < sqrt ((30 - 0) * (30 - 0) + (30 - 0) * (30 - 0)))
    by (apply sqrt_gt_bound; lra).
  specialize (H Hd). revert H.
  rewrite (Rltb_false _ 10) by lra.
  unfold Rgtb, SWIPE_THRESHOLD. rewrite (Rltb_true _ _ Hd).
  rewrite Bool.andb_false_r.
  unfold getSwipeDirection, claimedDirection, Rgtb.
  rewrite (Rltb_false (Rabs (30 - 0)) (Rabs (30 - 0))) by lra.
  rewrite (Rleb_true (Rabs (30 - 0)) (Rabs (30 - 0))) by lra.
  rewrite (Rltb_true 0 (30 - 0)) by lra.
  intros H. discriminate H.
Qed.

(** C6, amended: at touch-end, a touch displaced by more than the swipe
    threshold emits a swipe whose direction is that of the axis with the
    strictly greater absolute displacement for the horizontal axis
    ("right" or "left" by the sign of deltaX), and the vertical axis
    otherwise ("down" or "up" by the sign of deltaY), so that a tie
    |deltaX| = |deltaY| goes to the vertical axis. *)
Theorem C6_swipe_direction (now : Z) (t : TouchInfo) :
  let deltaX := ti_x t - ti_startX t in
  let deltaY := ti_y t - ti_startY t in
  SWIPE_THRESHOLD < sqrt (deltaX * deltaX + deltaY * deltaY) ->
  exists direction,
    completeGestureRecognition now t = Some (Swipe t direction deltaX deltaY) /\
    (Rabs deltaY < Rabs deltaX ->
       deltaX <> 0 /\
       (0 < deltaX -> direction = "right"%string) /\
       (deltaX < 0 -> direction = "left"%string)) /\
    (Rabs deltaX <= Rabs deltaY ->
       deltaY <> 0 /\
       (0 < deltaY -> direction = "down"%string) /\
       (deltaY < 0 -> direction = "up"%string)).
Proof.
  intros deltaX deltaY Hd. unfold SWIPE_THRESHOLD in Hd.
  exists (getSwipeDirection deltaX deltaY). split.
  - unfold completeGestureRecognition. fold deltaX deltaY.
    rewrite (Rltb_false _ 10) by lra. rewrite Bool.andb_false_r.
    unfold Rgtb, SWIPE_THRESHOLD. rewrite (Rltb_true _ _ Hd). reflexivity.
  - assert (Hnz : deltaX <> 0 \/ deltaY <> 0).
    { destruct (Req_dec deltaX 0) as [Hx | Hx]; [| left; exact Hx].
      destruct (Req_dec deltaY 0) as [Hy | Hy]; [| right; exact Hy].
      exfalso. rewrite Hx, Hy in Hd.
      replace (0 * 0 + 0 * 0) with 0 in Hd by ring. rewrite sqrt_0 in Hd. lra. }
    unfold getSwipeDirection, Rgtb.
    split; intros Habs.
    + rewrite (Rltb_true _ _ Habs).
      split; [| split]; intros H.
      * subst deltaX. rewrite H, Rabs_R0 in Habs.
        pose proof (Rabs_pos deltaY). lra.
      * rewrite (Rltb_true _ _ H). reflexivity.
      * rewrite (Rltb_false 0 deltaX) by lra. reflexivity.
    + rewrite (Rltb_false _ _ Habs).
      split; [| split]; intros H.
      * rewrite H, Rabs_R0 in Habs.
        pose proof (Rabs_pos deltaX) as Hp.
        assert (Hx0 : Rabs deltaX = 0) by lra.
        destruct (Req_dec deltaX 0) as [Hx | Hx];
          [| apply Rabs_no_R0 in Hx; contradiction].
        destruct Hnz; contradiction.
      * rewrite (Rltb_true _ _ H). reflexivity.
      * rewrite (Rltb_false 0 deltaY) by lra. reflexivity.
Qed.

Lemma C6_swipe_direction_witness :
  exists direction,
    completeGestureRecognition 100 diagonalTouch =
      Some (Swipe diagonalTouch direction
              (ti_x diagonalTouch - ti_startX diagonalTouch)
              (ti_y diagonalTouch - ti_startY diagonalTouch)) /\
    (Rabs (ti_y diagonalTouch - ti_startY diagonalTouch) <
     Rabs (ti_x diagonalTouch - ti_startX diagonalTouch) ->
       ti_x diagonalTouch - ti_startX diagonalTouch <> 0 /\
       (0 < ti_x diagonalTouch - ti_startX diagonalTouch -> direction = "right"%string) /\
       (ti_x diagonalTouch - ti_startX diagonalTouch < 0 -> direction = "left"%string)) /\
    (Rabs (ti_x diagonalTouch - ti_startX diagonalTouch) <=
     Rabs (ti_y diagonalTouch - ti_startY diagonalTouch) ->
       ti_y diagonalTouch - ti_startY diagonalTouch <> 0 /\
       (0 < ti_y diagonalTouch - ti_startY diagonalTouch -> direction = "down"%string) /\
       (ti_y diagonalTouch - ti_startY diagonalTouch < 0 -> direction = "up"%string)).
Proof.
  apply (C6_swipe_direction 100 diagonalTouch).
  unfold SWIPE_THRESHOLD, diagonalTouch. cbn [ti_x ti_y ti_startX ti_startY].
  apply sqrt_gt_bound; lra.
Defined.

End InputHandlerSpec.

(** ** Game *)

Module GameSpec.
Import Game.
Local Open Scope Q_scope.

Lemma Qnat_S n : Qnat (S n) == Qnat n + 1.
Proof.
  unfold Qnat. rewrite Nat2Z.inj_succ. unfold Z.succ.
  rewrite inject_Z_plus. reflexivity.
Qed.

Lemma Qnat_0 : Qnat 0 == 0.
Proof. reflexivity. Qed.

Lemma fixedTimeStep_value : fixedTimeStep == 50 # 3.
Proof. reflexivity. Qed.

Lemma fixedTimeStep_pos : 0 < fixedTimeStep.
Proof. reflexivity. Qed.

Lemma drain_continue fuel s :
  fixedTimeStep <= accumulator s ->
  drain (S fuel) s =
  drain fuel (set_accumulator (accumulator s - fixedTimeStep) (update fixedTimeStep s)).
Proof.
  intros H. cbn [drain]. apply Qle_bool_iff in H. rewrite H. reflexivity.
Qed.

Lemma drain_stop fuel s :
  accumulator s < fixedTimeStep -> drain fuel s = Some s.
Proof.
  intros H. destruct (Qle_bool fixedTimeStep (accumulator s)) eqn:E.
  - apply Qle_bool_iff in E. Lqa.lra.
  - destruct fuel; cbn [drain]; rewrite E; reflexivity.
Qed.

(** The loop returns when the fuel covers the steps the accumulator holds. *)
Lemma drain_total n : forall fuel s,
  accumulator s < Qnat (S n) * fixedTimeStep ->
  (n <= fuel)%nat ->
  exists s', drain fuel s = Some s'.
Proof.
  pose proof fixedTimeStep_pos as Hp.
  induction n as [| n IH]; intros fuel s Hacc Hfuel.
  - exists s. apply drain_stop.
    rewrite Qnat_S, Qnat_0 in Hacc. Lqa.lra.
  - destruct (Qlt_le_dec (accumulator s) fixedTimeStep) as [Hlt | Hge].
    + exists s. apply drain_stop, Hlt.
    + destruct fuel as [| fuel]; [lia |].
      rewrite (drain_continue _ _ Hge). apply IH; [| lia].
      cbn [set_accumulator accumulator update log_call].
      rewrite Qnat_S in Hacc. Lqa.lra.
Qed.

(** What the loop has done when it returns. *)
Lemma drain_spec fuel : forall s s',
  drain fuel s = Some s' ->
  exists k,
    calls s' = calls s ++ repeat (Update fixedTimeStep) k /\
    accumulator s' == accumulator s - Qnat k * fixedTimeStep /\
    accumulator s' < fixedTimeStep /\
    (0 <= accumulator s -> 0 <= accumulator s') /\
    isRunning s' = isRunning s /\ lastTime s' = lastTime s.
Proof.
  induction fuel as [| fuel IH]; intros s s' H.
  - cbn [drain] in H.
    destruct (Qle_bool fixedTimeStep (accumulator s)) eqn:E; [discriminate |].
    injection H as <-. exists 0%nat. cbn [repeat]. rewrite app_nil_r.
    assert (Hlt : ~ fixedTimeStep <= accumulator s)
      by (rewrite <- Qle_bool_iff, E; discriminate).
    rewrite Qnat_0. repeat split; try Lqa.lra; auto.
  - destruct (Qlt_le_dec (accumulator s) fixedTimeStep) as [Hlt | Hge].
    + rewrite (drain_stop _ _ Hlt) in H. injection H as <-.
      exists 0%nat. cbn [repeat]. rewrite app_nil_r.
      rewrite Qnat_0. repeat split; try Lqa.lra; auto.
    + rewrite (drain_continue _ _ Hge) in H.
      apply IH in H as (k & Hc & Ha & Hl & H0 & Hr & Ht).
      cbn [set_accumulator accumulator update log_call calls isRunning lastTime] in *.
      exists (S k). rewrite Qnat_S.
      split; [rewrite Hc, <- app_assoc; reflexivity |].
      repeat split; auto; try Lqa.lra.
Qed.

Lemma drain_fuel_mono fuel : forall fuel' s s',
  drain fuel s = Some s' -> (fuel <= fuel')%nat -> drain fuel' s = Some s'.
Proof.
  induction fuel as [| fuel IH]; intros fuel' s s' H Hle.
  - cbn [drain] in H.
    destruct (Qle_bool fixedTimeStep (accumulator s)) eqn:E; [discriminate |].
    injection H as <-. apply drain_stop.
    apply Qnot_le_lt. rewrite <- Qle_bool_iff, E. discriminate.
  - destruct (Qlt_le_dec (accumulator s) fixedTimeStep) as [Hlt | Hge].
    + rewrite (drain_stop _ _ Hlt) in H. rewrite (drain_stop _ _ Hlt). exact H.
    + destruct fuel' as [| fuel']; [lia |].
      rewrite (drain_continue _ _ Hge) in H. rewrite (drain_continue _ _ Hge).
      apply IH; [exact H | lia].
Qed.

Lemma accumulator_beforeDrain currentTime s :
  accumulator (beforeDrain currentTime s) =
  accumulator s + deltaTimeOf currentTime s.
Proof.
  unfold beforeDrain, updateFPSCounter.
  destruct (Qle_bool _ _); reflexivity.
Qed.

Lemma calls_beforeDrain currentTime s :
  calls (beforeDrain currentTime s) = calls s.
Proof.
  unfold beforeDrain, updateFPSCounter.
  destruct (Qle_bool _ _); reflexivity.
Qed.

Lemma deltaTimeOf_clamped currentTime s :
  maxDeltaTime < currentTime - lastTime s ->
  deltaTimeOf currentTime s == maxDeltaTime.
Proof.
  intros H. unfold deltaTimeOf. apply Q.min_r. Lqa.lra.
Qed.

Lemma deltaTimeOf_nonneg currentTime s :
  lastTime s <= currentTime -> 0 <= deltaTimeOf currentTime s.
Proof.
  intros H. unfold deltaTimeOf.
  apply Q.min_glb; [Lqa.lra | discriminate].
Qed.

Lemma deltaTimeOf_le_max currentTime s : deltaTimeOf currentTime s <= maxDeltaTime.
Proof. unfold deltaTimeOf. apply Q.le_min_r. Qed.

Lemma stepsNeeded_bound a :
  0 <= a -> a < Qnat (S (stepsNeeded a)) * fixedTimeStep.
Proof.
  intros Ha. pose proof fixedTimeStep_pos as Hp.
  assert (Hq : 0 <= a / fixedTimeStep).
  { apply Qle_shift_div_l; [exact Hp | Lqa.lra]. }
  assert (Hf : (0 <= Qfloor (a / fixedTimeStep))%Z).
  { change 0%Z with (Qfloor 0). apply Qfloor_resp_le, Hq. }
  unfold stepsNeeded, Qnat.
  rewrite Nat2Z.inj_succ, Z2Nat.id by exact Hf. unfold Z.succ.
  pose proof (Qlt_floor (a / fixedTimeStep)) as Hlt.
  apply (Qmult_lt_compat_r _ _ fixedTimeStep Hp) in Hlt.
  assert (E : a / fixedTimeStep * fixedTimeStep == a).
  { field. intros H0. rewrite H0 in Hp. discriminate. }
  rewrite E in Hlt. exact Hlt.
Qed.

(** *** Claims *)

(** C2: in a frame of the running game that begins with a nonnegative
    accumulator, the draining loop terminates, and when it has the
    accumulator lies in [0, fixedTimeStep).  The frame's timestamp is not
    before [lastTime]: [lastTime] is the clock reading [start] took or the
    timestamp of the frame before, and the timestamps of animation frames
    do not go back.  The frame leaves the game running with [lastTime] at
    its own timestamp, so that the same holds of the frame after it. *)
Theorem C2_accumulator_after_drain (currentTime : Q) (s : State) :
  isRunning s = true ->
  0 <= accumulator s ->
  lastTime s <= currentTime ->
  (exists s', forall fuel,
      (stepsNeeded (accumulator (beforeDrain currentTime s)) <= fuel)%nat ->
      gameLoop fuel currentTime s = Some s') /\
  (forall fuel s', gameLoop fuel currentTime s = Some s' ->
      0 <= accumulator s' /\ accumulator s' < fixedTimeStep /\
      isRunning s' = true /\ lastTime s' = currentTime).
Proof.
  intros Hrun Hacc Htime.
  assert (H0 : 0 <= accumulator (beforeDrain currentTime s)).
  { rewrite accumulator_beforeDrain.
    pose proof (deltaTimeOf_nonneg currentTime s Htime). Lqa.lra. }
  split.
  - set (n := stepsNeeded (accumulator (beforeDrain currentTime s))).
    destruct (drain_total n n (beforeDrain currentTime s)) as [s1 Hs1];
      [apply stepsNeeded_bound, H0 | lia |].
    exists (updatePerformanceMetrics (deltaTimeOf currentTime s) (render s1)).
    intros fuel Hfuel. unfold gameLoop. rewrite Hrun. cbn [negb].
    rewrite (drain_fuel_mono n fuel _ _ Hs1 Hfuel). reflexivity.
  - intros fuel s' Hg. unfold gameLoop in Hg. rewrite Hrun in Hg. cbn [negb] in Hg.
    destruct (drain fuel (beforeDrain currentTime s)) as [s1 |] eqn:Hd;
      [| discriminate].
    injection Hg as <-.
    apply drain_spec in Hd as (k & _ & _ & Hlt & Hnn & Hr & Ht).
    cbn [updatePerformanceMetrics render log_call accumulator isRunning lastTime].
    split; [apply Hnn, H0 |]. split; [exact Hlt |].
    rewrite Hr, Ht. unfold beforeDrain, updateFPSCounter.
    destruct (Qle_bool _ _); split; assumption || reflexivity.
Qed.

Lemma C2_accumulator_after_drain_witness :
  (exists s', forall fuel,
      (stepsNeeded (accumulator (beforeDrain 140 runningWith10)) <= fuel)%nat ->
      gameLoop fuel 140 runningWith10 = Some s') /\
  (forall fuel s', gameLoop fuel 140 runningWith10 = Some s' ->
      0 <= accumulator s' /\ accumulator s' < fixedTimeStep /\
      isRunning s' = true /\ lastTime s' = 140).
Proof.
  apply (C2_accumulator_after_drain 140 runningWith10).
  - reflexivity.
  - vm_compute. discriminate.
  - vm_compute. discriminate.
Defined.

(** C3: in a frame of the running game whose elapsed time exceeds
    [maxDeltaTime] = 250, the delta time added to the accumulator is 250;
    and when the accumulator came in within [0, fixedTimeStep), the frame
    returns having called [update] at most
    floor ((250 + fixedTimeStep) / fixedTimeStep) = 16 times, followed by
    one [render]. *)
Theorem C3_clamped_frame_bounded_updates (currentTime : Q) (s : State) :
  isRunning s = true ->
  maxDeltaTime < currentTime - lastTime s ->
  deltaTimeOf currentTime s == 250 /\
  accumulator (beforeDrain currentTime s) == accumulator s + 250 /\
  Qfloor ((250 + fixedTimeStep) / fixedTimeStep) = 16%Z /\
  (0 <= accumulator s ->
   accumulator s < fixedTimeStep ->
   exists s' k,
     (forall fuel, (16 <= fuel)%nat -> gameLoop fuel currentTime s = Some s') /\
     (forall fuel s'', gameLoop fuel currentTime s = Some s'' -> s'' = s') /\
     calls s' = calls s ++ repeat (Update fixedTimeStep) k ++ [Render] /\
     updateCalls (calls s') = (updateCalls (calls s) + k)%nat /\
     (k <= 16)%nat /\
     frameTime s' == 250).
Proof.
  intros Hrun Hel.
  pose proof (deltaTimeOf_clamped currentTime s Hel) as Hdt.
  change maxDeltaTime with 250 in Hdt.
  assert (Hbd : accumulator (beforeDrain currentTime s) == accumulator s + 250)
    by (rewrite accumulator_beforeDrain, Hdt; reflexivity).
  split; [exact Hdt |]. split; [exact Hbd |]. split; [reflexivity |].
  intros H0 Hlt.
  destruct (drain_total 15 15 (beforeDrain currentTime s)) as [s1 Hs1];
    [| lia |].
  { rewrite Hbd. change (Qnat 16) with 16.
    rewrite fixedTimeStep_value in Hlt |- *. Lqa.lra. }
  pose proof Hs1 as Hspec.
  apply drain_spec in Hspec as (k & Hc & Ha & _ & Hnn & _).
  exists (updatePerformanceMetrics (deltaTimeOf currentTime s) (render s1)), k.
  assert (Hk : (k < 16)%nat).
  { assert (Hq : Qnat k < 16).
    { assert (Hn : 0 <= accumulator s1) by (apply Hnn; rewrite Hbd; Lqa.lra).
      rewrite Ha, Hbd in Hn.
      rewrite fixedTimeStep_value in Hn, Hlt. Lqa.lra. }
    unfold Qnat in Hq. change 16 with (inject_Z 16) in Hq.
    rewrite <- Zlt_Qlt in Hq. lia. }
  split; [| split; [| split; [| split; [| split]]]].
  - intros fuel Hfuel. unfold gameLoop. rewrite Hrun. cbn [negb].
    rewrite (drain_fuel_mono 15 fuel _ _ Hs1) by lia. reflexivity.
  - intros fuel s'' Hg. unfold gameLoop in Hg. rewrite Hrun in Hg. cbn [negb] in Hg.
    destruct (drain fuel (beforeDrain currentTime s)) as [s2 |] eqn:Hd;
      [| discriminate].
    injection Hg as <-.
    destruct (Nat.le_ge_cases fuel 15) as [Hle | Hge].
    + rewrite (drain_fuel_mono fuel 15 _ _ Hd Hle) in Hs1. congruence.
    + rewrite (drain_fuel_mono 15 fuel _ _ Hs1 Hge) in Hd. congruence.
  - cbn [updatePerformanceMetrics render log_call calls].
    rewrite Hc, calls_beforeDrain, <- app_assoc. reflexivity.
  - cbn [updatePerformanceMetrics render log_call calls].
    rewrite Hc, calls_beforeDrain. unfold updateCalls.
    rewrite !List.filter_app, !length_app. cbn [List.filter length].
    rewrite Nat.add_0_r. f_equal.
    clear. induction k as [| k IH]; [reflexivity |].
    cbn [repeat List.filter length]. rewrite IH. reflexivity.
  - lia.
  - cbn [updatePerformanceMetrics frameTime]. exact Hdt.
Qed.

Lemma C3_clamped_frame_witness :
  deltaTimeOf 1100 runningWith10 == 250 /\
  accumulator (beforeDrain 1100 runningWith10) == accumulator runningWith10 + 250 /\
  Qfloor ((250 + fixedTimeStep) / fixedTimeStep) = 16%Z /\
  (0 <= accumulator runningWith10 ->
   accumulator runningWith10 < fixedTimeStep ->
   exists s' k,
     (forall fuel, (16 <= fuel)%nat -> gameLoop fuel 1100 runningWith10 = Some s') /\
     (forall fuel s'', gameLoop fuel 1100 runningWith10 = Some s'' -> s'' = s') /\
     calls s' = calls runningWith10 ++ repeat (Update fixedTimeStep) k ++ [Render] /\
     updateCalls (calls s') = (updateCalls (calls runningWith10) + k)%nat /\
     (k <= 16)%nat /\
     frameTime s' == 250).
Proof.
  apply (C3_clamped_frame_bounded_updates 1100 runningWith10).
  - reflexivity.
  - reflexivity.
Defined.

End GameSpec.

(** ** SceneManager *)

Module SceneManagerSpec.
Import SceneManager.

Lemma switchTo_active_registered sceneName ttype startTime now scene s :
  transitionActive s = true ->
  scenes s !! sceneName = Some scene ->
  switchTo sceneName ttype startTime now s = Ok (s, None).
Proof. intros Ha Hs. unfold switchTo. rewrite Hs, Ha. reflexivity. Qed.

Lemma switchTo_unregistered sceneName ttype startTime now s :
  scenes s !! sceneName = None ->
  switchTo sceneName ttype startTime now s = Throw ("Scene not found: " ++ sceneName).
Proof. intros Hs. unfold switchTo. rewrite Hs. reflexivity. Qed.

Lemma updateTransition_cases fromScene toScene startTime now s :
  let '(s', t) := updateTransition fromScene toScene startTime now s in
  (t = None /\ transitionActive s' = false /\ currentScene s' = Some toScene) \/
  (t = Some (Animating fromScene toScene startTime) /\
   transitionActive s' = transitionActive s /\ currentScene s' = currentScene s).
Proof.
  unfold updateTransition.
  destruct (reachedOne _); [left | right]; repeat split; reflexivity.
Qed.

Lemma step_inTransition current incoming m e :
  e <> CallDestroy ->
  inTransition current incoming m ->
  inTransition current incoming (step m e) \/
  (transitionActive (mgr (step m e)) = false /\
   currentScene (mgr (step m e)) = Some incoming).
Proof.
  intros He (Ha & Hc & Ht). unfold inTransition.
  destruct e as [sceneName ttype startTime now | name scene | name
                | i startTime now | i | i now | | duration]; cbn [step];
    [| | | | | | contradiction |
     left; split; [exact Ha |]; split; [exact Hc | exact Ht]].
  - left. unfold switchTo. rewrite Ha.
    destruct (scenes (mgr m) !! sceneName); cbn [mgr tasks spawn].
    + rewrite app_nil_r. split; [exact Ha |]. split; [exact Hc | exact Ht].
    + split; [exact Ha |]. split; [exact Hc | exact Ht].
  - left. split; [exact Ha |]. split; [exact Hc | exact Ht].
  - left. unfold removeScene.
    destruct (scenes (mgr m) !! name); [| split; [exact Ha |]; split; [exact Hc | exact Ht]].
    destruct (bool_decide _); split; try exact Ha; split; try exact Hc; exact Ht.
  - destruct Ht as [Ht | [(sceneName & ttype & Ht) | (st & Ht)]]; rewrite Ht.
    + left. split; [exact Ha |]. split; [exact Hc |]. left; exact Ht.
    + destruct i as [| i]; cbn [lookup list_lookup];
        [| left; split; [exact Ha |]; split; [exact Hc |]; right; left; eauto].
      unfold switchTo_resume, startTransition, performTransition.
      cbn [currentScene transitionDuration].
      match goal with
      | |- context [updateTransition ?f ?t ?a ?b ?s0] =>
          pose proof (updateTransition_cases f t a b s0) as Hu;
          destruct (updateTransition f t a b s0) as [s' t']
      end.
      cbn [mgr tasks]. cbn [transitionActive currentScene] in Hu.
      destruct Hu as [(-> & Ha' & Hc') | (-> & Ha' & Hc')].
      * right. split; assumption.
      * left. cbn [mgr tasks]. split; [congruence |]. split; [congruence |].
        right; right. exists startTime. rewrite Hc. reflexivity.
    + destruct i as [| i]; cbn [lookup list_lookup];
        left; (split; [exact Ha |]; split; [exact Hc |]; right; right; eauto).
  - destruct Ht as [Ht | [(sceneName & ttype & Ht) | (st & Ht)]]; rewrite Ht.
    + left. split; [exact Ha |]. split; [exact Hc |]. left; exact Ht.
    + destruct i as [| i]; cbn [lookup list_lookup].
      * left. split; [exact Ha |]. split; [exact Hc |]. left. reflexivity.
      * left. split; [exact Ha |]. split; [exact Hc |]. right; left; eauto.
    + destruct i as [| i]; cbn [lookup list_lookup];
        left; (split; [exact Ha |]; split; [exact Hc |]; right; right; eauto).
  - destruct Ht as [Ht | [(sceneName & ttype & Ht) | (st & Ht)]]; rewrite Ht.
    + left. split; [exact Ha |]. split; [exact Hc |]. left; exact Ht.
    + destruct i as [| i]; cbn [lookup list_lookup];
        left; (split; [exact Ha |]; split; [exact Hc |]; right; left; eauto).
    + destruct i as [| i]; cbn [lookup list_lookup];
        [| left; split; [exact Ha |]; split; [exact Hc |]; right; right; eauto].
      pose proof (updateTransition_cases current incoming st now (mgr m)) as Hu.
      destruct (updateTransition current incoming st now (mgr m)) as [s' t'].
      cbn [mgr tasks].
      destruct Hu as [(-> & Ha' & Hc') | (-> & Ha' & Hc')].
      * right. split; assumption.
      * left. cbn [mgr tasks]. split; [congruence |]. split; [congruence |].
        right; right. exists st. reflexivity.
Qed.

Lemma inTransition_untilCompleted current incoming evs : forall m,
  Forall (fun e => e <> CallDestroy) evs ->
  inTransition current incoming m ->
  untilCompleted current incoming m evs.
Proof.
  induction evs as [| e evs IH]; intros m Hall Hm; [exact I |].
  apply Forall_cons in Hall as [He Hall].
  cbn [untilCompleted].
  destruct (step_inTransition current incoming m e He Hm) as [Hin | Hdone].
  - left. destruct Hin as (Ha & Hc & Ht).
    split; [exact Ha |]. split; [exact Hc |].
    apply IH; [exact Hall |]. split; [exact Ha |]. split; [exact Hc | exact Ht].
  - right. exact Hdone.
Qed.

(** *** Claims *)

(** C5, as the claim states it, fails for a name that is not registered:
    during the transition from "menu" to "game" the call
    [switchTo ("missing")] throws "Scene not found", the lookup of the
    scene coming before the test of [transitionActive]. *)
Lemma C5_unregistered_name_throws :
  ~ C5_as_stated "missing" NONE 2000 2000 (mgr towardsGame).
Proof.
  unfold C5_as_stated. intros H.
  assert (Ha : transitionActive (mgr towardsGame) = true) by (vm_compute; reflexivity).
  specialize (H Ha).
  rewrite switchTo_unregistered in H by (vm_compute; reflexivity).
  discriminate H.
Qed.

(** C5, amended: while a transition is active, a call of [switchTo] with a
    registered scene name returns without throwing and leaves the whole
    state unchanged (with an unregistered name it throws, the state
    unchanged as well); and from the call of [switchTo] that starts a
    transition, at every step (calls of [switchTo], [addScene],
    [removeScene] and [setTransitionDuration], the end of the scene's
    initialisation, animation frames) the current scene is the scene from
    before the transition while the transition is active, and the incoming
    scene at the step that ends it, as long as [destroy] is not called:
    [destroy] clears the current scene and leaves the transition
    active. *)
Theorem C5_switchTo_during_transition (s : State) (sceneName : string)
  (incoming : SceneRef) (ttype : TransitionType) (startTime now : Z) :
  transitionActive s = false ->
  scenes s !! sceneName = Some incoming ->
  currentScene s <> Some incoming ->
  (forall evs,
     Forall (fun e => e <> CallDestroy) evs ->
     untilCompleted (currentScene s) incoming (mkMachine s [])
       (CallSwitchTo sceneName ttype startTime now :: evs)) /\
  (forall s' name' ttype' startTime' now',
     transitionActive s' = true ->
     match scenes s' !! name' with
     | Some _ => switchTo name' ttype' startTime' now' s' = Ok (s', None)
     | None => switchTo name' ttype' startTime' now' s'
               = Throw ("Scene not found: " ++ name')
     end /\
     forall ts,
       step (mkMachine s' ts) (CallSwitchTo name' ttype' startTime' now')
       = mkMachine s' ts) /\
  (forall s' ts,
     transitionActive (mgr (step (mkMachine s' ts) CallDestroy)) = transitionActive s' /\
     currentScene (mgr (step (mkMachine s' ts) CallDestroy)) = None /\
     tasks (step (mkMachine s' ts) CallDestroy) = ts).
Proof.
  intros Hidle Hreg Hne. split; [| split].
  - intros evs Hall. cbn [untilCompleted step mgr tasks].
    unfold switchTo. rewrite Hreg, Hidle.
    rewrite bool_decide_eq_false_2 by exact Hne.
    cbn [initializedScenes].
    destruct (bool_decide (sceneName ∈ initializedScenes s)).
    + unfold startTransition, performTransition. cbn [currentScene].
      match goal with
      | |- context [updateTransition ?f ?t ?a ?b ?s0] =>
          pose proof (updateTransition_cases f t a b s0) as Hu;
          destruct (updateTransition f t a b s0) as [s' t']
      end.
      cbn [mgr tasks app]. cbn [transitionActive currentScene] in Hu.
      destruct Hu as [(-> & Ha' & Hc') | (-> & Ha' & Hc')].
      * right. split; assumption.
      * left. split; [exact Ha' |]. split; [exact Hc' |].
        apply inTransition_untilCompleted; [exact Hall |].
        split; [exact Ha' |]. split; [exact Hc' |].
        right; right. exists startTime. reflexivity.
    + left. cbn [mgr tasks app spawn transitionActive currentScene].
      split; [reflexivity |]. split; [reflexivity |].
      apply inTransition_untilCompleted; [exact Hall |].
      split; [reflexivity |]. split; [reflexivity |].
      right; left. eauto.
  - intros s' name' ttype' startTime' now' Ha.
    destruct (scenes s' !! name') as [scene' |] eqn:Hs.
    + pose proof (switchTo_active_registered name' ttype' startTime' now' scene' s' Ha Hs) as E.
      split; [exact E |]. intros ts. cbn [step mgr tasks]. rewrite E.
      cbn [spawn]. rewrite app_nil_r. reflexivity.
    + pose proof (switchTo_unregistered name' ttype' startTime' now' s' Hs) as E.
      split; [exact E |]. intros ts. cbn [step mgr tasks]. rewrite E. reflexivity.
  - intros s' ts. repeat split.
Qed.

Lemma C5_switchTo_during_transition_witness :
  (forall evs,
     Forall (fun e => e <> CallDestroy) evs ->
     untilCompleted (currentScene (mgr menuShown)) 2 (mkMachine (mgr menuShown) [])
       (CallSwitchTo "game" FADE 1000 1000 :: evs)) /\
  (forall s' name' ttype' startTime' now',
     transitionActive s' = true ->
     match scenes s' !! name' with
     | Some _ => switchTo name' ttype' startTime' now' s' = Ok (s', None)
     | None => switchTo name' ttype' startTime' now' s'
               = Throw ("Scene not found: " ++ name')
     end /\
     forall ts,
       step (mkMachine s' ts) (CallSwitchTo name' ttype' startTime' now')
       = mkMachine s' ts) /\
  (forall s' ts,
     transitionActive (mgr (step (mkMachine s' ts) CallDestroy)) = transitionActive s' /\
     currentScene (mgr (step (mkMachine s' ts) CallDestroy)) = None /\
     tasks (step (mkMachine s' ts) CallDestroy) = ts).
Proof.
  apply (C5_switchTo_during_transition (mgr menuShown) "game" 2 FADE 1000 1000).
  - vm_compute. reflexivity.
  - vm_compute. reflexivity.
  - vm_compute. discriminate.
Defined.

(** C8: for a registered name that refers to the scene that is current,
    [removeScene] throws; the scene is not destroyed and the manager's
    state, the [scenes] map included, is what it was. *)
Theorem C8_remove_active_scene_throws (name : string) (scene : SceneRef) (s : State) :
  scenes s !! name = Some scene ->
  currentScene s = Some scene ->
  removeScene name s = Throw ("Cannot remove active scene: " ++ name) /\
  forall ts, step (mkMachine s ts) (CallRemoveScene name) = mkMachine s ts.
Proof.
  intros Hs Hc.
  assert (E : removeScene name s = Throw ("Cannot remove active scene: " ++ name)).
  { unfold removeScene. rewrite Hs, bool_decide_eq_true_2 by exact Hc. reflexivity. }
  split; [exact E |]. intros ts. cbn [step mgr]. rewrite E. reflexivity.
Qed.

Lemma C8_remove_active_scene_witness :
  removeScene "menu" (mgr menuShown) = Throw ("Cannot remove active scene: " ++ "menu") /\
  forall ts, step (mkMachine (mgr menuShown) ts) (CallRemoveScene "menu")
             = mkMachine (mgr menuShown) ts.
Proof.
  apply (C8_remove_active_scene_throws "menu" 1 (mgr menuShown)).
  - vm_compute. reflexivity.
  - vm_compute. reflexivity.
Defined.

End SceneManagerSpec.

(** ** AssetManager *)

Module AssetManagerSpec.
Import AssetManager.

(** *** The synchronous part of a batch *)

Lemma loadAsset_uncached request s :
  cachedAsset request s = None ->
  loadAsset request s =
  ({| heap := heap s ++
        [mkAsset (r_id request) (r_type request) (r_path request) false None None];
      assets := <[r_id request := length (heap s)]> (assets s);
      totalAssets := totalAssets s;
      loadedAssets := loadedAssets s;
      failedAssets := failedAssets s;
      loadPromises := <[r_id request := length (started s)]> (loadPromises s);
      started := started s ++ [request] |},
   Awaiting (length (heap s)) (length (started s)) request).
Proof. intros H. unfold loadAsset. rewrite H. reflexivity. Qed.

Lemma cachedAsset_after_load request other s :
  cachedAsset other s = None ->
  cachedAsset request s = None ->
  cachedAsset request (fst (loadAsset other s)) = None.
Proof.
  intros Hother Hreq. rewrite (loadAsset_uncached _ _ Hother). cbn [fst].
  unfold cachedAsset in *. cbn [assets heap].
  destruct (decide (r_id other = r_id request)) as [E | E].
  - rewrite E, lookup_insert_eq.
    rewrite lookup_app_r by lia. rewrite Nat.sub_diag. reflexivity.
  - rewrite lookup_insert_ne by exact E.
    destruct (assets s !! r_id request) as [a |]; [| reflexivity].
    destruct (Nat.lt_ge_cases a (length (heap s))) as [Hlt | Hge].
    + rewrite lookup_app_l by exact Hlt. exact Hreq.
    + rewrite lookup_app_r by exact Hge.
      destruct (a - length (heap s))%nat as [| k]; [reflexivity |].
      cbn. reflexivity.
Qed.

Lemma loadEach_uncached requests : forall s,
  Forall (fun r => cachedAsset r s = None) requests ->
  let b := loadEach requests s in
  length (snd b) = length requests /\
  totalAssets (fst b) = totalAssets s /\
  loadedAssets (fst b) = loadedAssets s /\
  failedAssets (fst b) = failedAssets s /\
  (length (heap s) <= length (heap (fst b)))%nat /\
  Forall (fun sl => exists a r, sl = Waiting a r /\ (a < length (heap (fst b)))%nat)
         (snd b).
Proof.
  induction requests as [| request rest IH]; intros s Hall.
  - cbn. repeat split; auto.
  - apply Forall_cons in Hall as [Hreq Hrest].
    cbn [loadEach].
    assert (Hrest' : Forall (fun r => cachedAsset r (fst (loadAsset request s)) = None) rest).
    { eapply Forall_impl; [exact Hrest |].
      intros r Hr. apply cachedAsset_after_load; assumption. }
    specialize (IH _ Hrest').
    rewrite (loadAsset_uncached _ _ Hreq) in *. cbn [fst] in IH.
    destruct (loadEach rest _) as [s2 slots].
    cbn [fst snd heap totalAssets loadedAssets failedAssets] in *.
    destruct IH as (Hlen & Ht & Hl & Hf & Hh & Hw).
    rewrite length_app in Hh. cbn [length] in Hh.
    repeat split; auto; try lia.
    + cbn [length]. rewrite Hlen. reflexivity.
    + constructor; [| exact Hw].
      cbn [slotOf]. eexists _, _. split; [reflexivity | lia].
Qed.

Lemma countSlots_waiting f slots :
  (forall a r, f (Waiting a r) = false) ->
  Forall (fun sl => exists a r, sl = Waiting a r) slots ->
  countSlots f slots = 0%nat.
Proof.
  intros Hf Hall. unfold countSlots.
  induction Hall as [| sl slots (a & r & ->) _ IH]; [reflexivity |].
  cbn [List.filter]. rewrite Hf. exact IH.
Qed.

Lemma batchInv_initial requests s :
  Forall (fun r => cachedAsset r s = None) requests ->
  batchInv (loadAssets requests s) /\
  length (snd (loadAssets requests s)) = length requests.
Proof.
  intros Hall. unfold loadAssets.
  set (s0 := {| heap := heap s; assets := assets s;
                totalAssets := length requests; loadedAssets := 0;
                failedAssets := 0; loadPromises := loadPromises s;
                started := started s |}).
  assert (Hall0 : Forall (fun r => cachedAsset r s0 = None) requests) by exact Hall.
  destruct (loadEach_uncached requests s0 Hall0) as (Hlen & Ht & Hl & Hf & _ & Hw).
  split; [| exact Hlen].
  assert (Hw' : Forall (fun sl => exists a r, sl = Waiting a r) (snd (loadEach requests s0))).
  { eapply Forall_impl; [exact Hw |]. intros sl (a & r & -> & _). eauto. }
  unfold batchInv. rewrite Ht, Hl, Hf, Hlen.
  rewrite !countSlots_waiting by (exact Hw' || reflexivity).
  repeat split; try reflexivity.
  eapply Forall_impl; [exact Hw |]. intros sl (a & r & -> & Hlt). exact Hlt.
Qed.

Lemma countSlots_insert f slots : forall i x y,
  slots !! i = Some x ->
  (countSlots f (<[i := y]> slots) + Nat.b2n (f x) =
   countSlots f slots + Nat.b2n (f y))%nat.
Proof.
  unfold countSlots.
  induction slots as [| sl slots IH]; intros i x y Hi; [discriminate |].
  destruct i as [| i].
  - injection Hi as ->. cbn [insert list_insert List.filter].
    destruct (f x), (f y); cbn [length Nat.b2n]; lia.
  - cbn [lookup list_lookup] in Hi. cbn [insert list_insert List.filter].
    specialize (IH i x y Hi).
    destruct (f sl); cbn [length]; unfold insert in *; lia.
Qed.

Lemma settles_batchInv b b' : batchInv b -> settles b b' -> batchInv b'.
Proof.
  intros (Ht & Hl & Hf & Hall) (i & outcome & Hs).
  destruct b as [s slots]. unfold settleSlot in Hs. cbn [fst snd] in *.
  destruct (slots !! i) as [[a request | r] |] eqn:Hi; try discriminate.
  assert (Ha : (a < length (heap s))%nat).
  { eapply Forall_lookup_1 in Hall; [| exact Hi]. exact Hall. }
  destruct outcome as [data | msg]; cbn [loadAsset_settle] in Hs;
    injection Hs as <-; unfold batchInv;
    cbn [fst snd totalAssets loadedAssets failedAssets heap].
  - pose proof (countSlots_insert succeeded slots i _ (Settled (Some a)) Hi) as Hc1.
    pose proof (countSlots_insert failed slots i _ (Settled (Some a)) Hi) as Hc2.
    cbn [succeeded failed Nat.b2n] in Hc1, Hc2.
    rewrite length_insert.
    split; [exact Ht |]. split; [lia |]. split; [lia |].
    apply Forall_insert.
    + eapply Forall_impl; [exact Hall |].
      intros [a' r' | [a' |]]; rewrite ?length_alter; auto.
      intros (asset & Hh & Hld).
      destruct (decide (a = a')) as [<- | Hne].
      * exists (markLoaded data asset). rewrite list_lookup_alter_eq, Hh. split; reflexivity.
      * exists asset. rewrite list_lookup_alter_ne by exact Hne. split; assumption.
    + destruct (lookup_lt_is_Some_2 (heap s) a Ha) as [asset Hh].
      exists (markLoaded data asset). rewrite list_lookup_alter_eq, Hh. split; reflexivity.
  - pose proof (countSlots_insert succeeded slots i _ (Settled None) Hi) as Hc1.
    pose proof (countSlots_insert failed slots i _ (Settled None) Hi) as Hc2.
    cbn [succeeded failed Nat.b2n] in Hc1, Hc2.
    rewrite length_insert.
    split; [exact Ht |]. split; [lia |]. split; [lia |].
    apply Forall_insert; [| exact I].
    eapply Forall_impl; [exact Hall |].
    intros [a' r' | [a' |]]; rewrite ?length_alter; auto.
    intros (asset & Hh & Hld).
    destruct (decide (a = a')) as [<- | Hne].
    + exists (markFailed msg asset). rewrite list_lookup_alter_eq, Hh. split; [reflexivity | exact Hld].
    + exists asset. rewrite list_lookup_alter_ne by exact Hne. split; assumption.
Qed.

Lemma rtc_settles_batchInv b b' : rtc settles b b' -> batchInv b -> batchInv b'.
Proof.
  induction 1 as [| b1 b2 b3 Hstep _ IH]; intros Hinv; [exact Hinv |].
  apply IH. eapply settles_batchInv; eassumption.
Qed.

Lemma rtc_settles_length b b' :
  rtc settles b b' -> length (snd b') = length (snd b).
Proof.
  induction 1 as [| b1 b2 b3 (i & o & Hs) _ IH]; [reflexivity |].
  rewrite IH. unfold settleSlot in Hs.
  destruct (snd b1 !! i) as [[a request | r] |]; try discriminate.
  destruct (loadAsset_settle a request o (fst b1)) as [s1 r].
  injection Hs as <-. cbn [snd]. apply length_insert.
Qed.

Lemma result_length slots :
  length (omap slotAsset slots) = countSlots succeeded slots.
Proof.
  unfold countSlots. induction slots as [| sl slots IH]; [reflexivity |].
  destruct sl as [a r | [a |]]; cbn [omap list_omap slotAsset List.filter succeeded length] in *;
    fold (@omap list _ _ _ slotAsset slots); rewrite ?IH; reflexivity.
Qed.

Lemma settleSlot'_settles i outcome b :
  is_Some (settleSlot i outcome b) -> settles b (settleSlot' i outcome b).
Proof.
  intros [b' Hb]. exists i, outcome. unfold settleSlot'. rewrite Hb. reflexivity.
Qed.

Lemma rtc_settles_first i outcome b final :
  is_Some (settleSlot i outcome b) ->
  rtc settles (settleSlot' i outcome b) final ->
  rtc settles b final.
Proof. intros Hs Hrest. eapply rtc_l; [apply settleSlot'_settles, Hs | exact Hrest]. Qed.

(** A request whose asset is not loaded starts a load, and a second
    request for the same id made before that load settles starts
    another. *)
Lemma loadAsset_pending_starts_again request s :
  cachedAsset request s = None ->
  cachedAsset request (fst (loadAsset request s)) = None /\
  started (fst (loadAsset request (fst (loadAsset request s))))
    = started s ++ [request; request].
Proof.
  intros H.
  assert (H1 : cachedAsset request (fst (loadAsset request s)) = None)
    by (apply cachedAsset_after_load; exact H).
  split; [exact H1 |].
  rewrite (loadAsset_uncached _ _ H1), (loadAsset_uncached _ _ H).
  cbn [fst started]. rewrite <- app_assoc. reflexivity.
Qed.

(** *** Claims *)

(** C4 (the code departs from the claim): [loadAsset] looks for a loaded
    asset only and never reads [loadPromises].  Two calls for "hero" in a
    new manager, the second before the first load has settled, both call
    [loadAssetData]: two loads are started, the second call replaces the
    pending record and the load promise of the first, and when both loads
    have succeeded the asset has been counted twice. *)
Theorem C4_second_call_starts_second_load :
  let b1 := loadAsset reqHero init in
  let b2 := loadAsset reqHero (fst b1) in
  snd b1 = Awaiting 0 0 reqHero /\
  started (fst b1) = [reqHero] /\
  loadPromises (fst b1) !! "hero" = Some 0%nat /\
  snd b2 = Awaiting 1 1 reqHero /\
  started (fst b2) = [reqHero; reqHero] /\
  loadPromises (fst b2) !! "hero" = Some 1%nat /\
  assets (fst b2) !! "hero" = Some 1%nat /\
  loadedAssets
    (fst (loadAsset_settle 1 reqHero (inl 7%nat)
            (fst (loadAsset_settle 0 reqHero (inl 7%nat) (fst b2))))) = 2%nat.
Proof. vm_compute. repeat split; reflexivity. Qed.

(** C7 (the code departs from the claim): [loadAssets] counts every
    request of the batch in [totalAssets], but [loadAsset] returns an asset
    that is loaded already without counting it in [loadedAssets], which
    [loadAssets] has just set to 0.  With "hero" loaded before, the batch
    of "hero", "jump" and "map" in which "jump" loads and "map" fails
    resolves with two assets, yet [getProgress] reports loaded = 1 of
    total = 3 with failed = 1, at less than 100 percent, and
    [isFullyLoaded] is false although every load of the batch has
    settled. *)
Theorem C7_cached_asset_not_counted :
  let b0 := loadAssets [reqHero; reqJump; reqMap] heroLoaded in
  isAssetLoaded "hero" heroLoaded = true /\
  snd b0 = [Settled (Some 0%nat); Waiting 1 reqJump; Waiting 2 reqMap] /\
  settleSlot 1 (inl 8%nat) b0
    ≫= settleSlot 2 (inr "Failed to load JSON: missing.json"%string)
    = Some batchWithCachedHero /\
  forallb isSettled (snd batchWithCachedHero) = true /\
  countSlots failed (snd batchWithCachedHero) = 1%nat /\
  loadAssets_result (snd batchWithCachedHero) = Some [0%nat; 1%nat] /\
  total (getProgress (fst batchWithCachedHero)) = 3%nat /\
  loaded (getProgress (fst batchWithCachedHero)) = 1%nat /\
  failedCount (getProgress (fst batchWithCachedHero)) = 1%nat /\
  (percentage (getProgress (fst batchWithCachedHero)) < 100)%Q /\
  isFullyLoaded (fst batchWithCachedHero) = false.
Proof. vm_compute. repeat split; reflexivity. Qed.

End AssetManagerSpec.

(** ** InputHandler: the touch list, the joystick binding, gestures *)

Module InputHandlerProps.
Import InputHandler InputHandlerSpec.
Local Open Scope R_scope.

(** *** Touch moves keep the touches' identity *)

Lemma moveTouch_startInfo id x y ts :
  map startInfo (moveTouch id x y ts) = map startInfo ts.
Proof.
  induction ts as [| t ts IH]; [reflexivity |].
  cbn [moveTouch]. destruct (ti_id t =? id)%Z; cbn [map]; [reflexivity |].
  rewrite IH. reflexivity.
Qed.

Lemma updateVirtualJoystick_touches x y s :
  touches (updateVirtualJoystick x y s) = touches s.
Proof.
  unfold updateVirtualJoystick.
  destruct (negb _); [reflexivity |]. destruct (Rleb _ _); reflexivity.
Qed.

Lemma updateVirtualJoystick_binding x y s :
  vj_active (virtualJoystick (updateVirtualJoystick x y s)) = vj_active (virtualJoystick s) /\
  vj_touchId (virtualJoystick (updateVirtualJoystick x y s)) = vj_touchId (virtualJoystick s).
Proof.
  unfold updateVirtualJoystick.
  destruct (negb _); [split; reflexivity |]. destruct (Rleb _ _); split; reflexivity.
Qed.

Lemma touchMove1_startInfo cv touch s :
  map startInfo (touches (touchMove1 cv touch s)) = map startInfo (touches s).
Proof.
  unfold touchMove1. destruct (findTouch _ _); [| reflexivity].
  destruct (_ && _); rewrite ?updateVirtualJoystick_touches;
    cbn [touches]; apply moveTouch_startInfo.
Qed.

Lemma touchMove1_binding cv touch s :
  vj_active (virtualJoystick (touchMove1 cv touch s)) = vj_active (virtualJoystick s) /\
  vj_touchId (virtualJoystick (touchMove1 cv touch s)) = vj_touchId (virtualJoystick s).
Proof.
  unfold touchMove1. destruct (findTouch _ _); [| split; reflexivity].
  destruct (_ && _); [| split; reflexivity].
  exact (updateVirtualJoystick_binding _ _ _).
Qed.

Lemma startInfo_ids ts ts' :
  map startInfo ts = map startInfo ts' -> map ti_id ts = map ti_id ts'.
Proof.
  intros H. apply (f_equal (map (fun i : Z * R * R * Z => fst (fst (fst i))))) in H.
  rewrite !map_map in H. exact H.
Qed.

Lemma handleTouchMove_keeps cv changed : forall s,
  map startInfo (touches (handleTouchMove cv changed s)) = map startInfo (touches s) /\
  vj_active (virtualJoystick (handleTouchMove cv changed s)) = vj_active (virtualJoystick s) /\
  vj_touchId (virtualJoystick (handleTouchMove cv changed s)) = vj_touchId (virtualJoystick s).
Proof.
  unfold handleTouchMove.
  induction changed as [| touch rest IH]; intros s; [repeat split |].
  cbn [fold_left]. destruct (IH (touchMove1 cv touch s)) as (H1 & H2 & H3).
  destruct (touchMove1_binding cv touch s) as [Ha Hb].
  rewrite H1, H2, H3, touchMove1_startInfo. repeat split; assumption.
Qed.

(** X1: a touch-move event changes neither the number nor the order of
    the active touches, nor the id, start position and start time of any of
    them, and it leaves the joystick's binding (active flag and touch id)
    as it was. *)
Theorem X1_touch_move_keeps_touches (cv : Canvas) (changed : list Touch) (s : State) :
  map startInfo (touches (handleTouchMove cv changed s)) = map startInfo (touches s) /\
  vj_active (virtualJoystick (handleTouchMove cv changed s)) = vj_active (virtualJoystick s) /\
  vj_touchId (virtualJoystick (handleTouchMove cv changed s)) = vj_touchId (virtualJoystick s).
Proof. apply handleTouchMove_keeps. Qed.

(** *** The joystick's binding *)

Lemma joystickBound_start cv now touch s :
  joystickBound s -> joystickBound (touchStart1 cv now touch s).
Proof.
  unfold joystickBound, touchStart1. intros H.
  destruct (Rltb _ _); cbn [activateVirtualJoystick virtualJoystick touches
                            vj_touchId vj_active ti_id].
  - split; [reflexivity |]. rewrite map_app. apply in_or_app. right. left. reflexivity.
  - destruct (vj_touchId (virtualJoystick s)) as [k |]; [| exact H].
    destruct H as [Ha Hin]. split; [exact Ha |].
    rewrite map_app. apply in_or_app. left. exact Hin.
Qed.

Lemma joystickBound_move cv touch s :
  joystickBound s -> joystickBound (touchMove1 cv touch s).
Proof.
  unfold joystickBound. intros H.
  destruct (touchMove1_binding cv touch s) as [Ha Hb]. rewrite Ha, Hb.
  rewrite (startInfo_ids _ _ (touchMove1_startInfo cv touch s)). exact H.
Qed.

Lemma splice1_keeps_other id k : forall ts i,
  findTouchIndex id ts = Some i ->
  k <> id ->
  In k (map ti_id ts) ->
  In k (map ti_id (splice1 i ts)).
Proof.
  induction ts as [| t ts IH]; intros i Hi Hne Hin; [discriminate |].
  cbn [findTouchIndex] in Hi.
  destruct (ti_id t =? id)%Z eqn:E.
  - injection Hi as <-. cbn [splice1]. apply Z.eqb_eq in E.
    destruct Hin as [Hk | Hin]; [congruence | exact Hin].
  - destruct (findTouchIndex id ts) as [j |]; [| discriminate].
    injection Hi as <-. cbn [splice1 map].
    destruct Hin as [Hk | Hin]; [left; exact Hk | right].
    apply IH; [reflexivity | exact Hne | exact Hin].
Qed.

Lemma joystickBound_end now touch s :
  joystickBound s -> joystickBound (fst (touchEnd1 now touch s)).
Proof.
  unfold joystickBound, touchEnd1, touchIdIs. intros H.
  destruct (findTouchIndex (identifier touch) (touches s)) as [i |] eqn:Hi;
    cbn [virtualJoystick];
    destruct (vj_touchId (virtualJoystick s)) as [k |] eqn:Hk;
    try (cbn [fst virtualJoystick touches]; rewrite ?Hk; exact H).
  - destruct (k =? identifier touch)%Z eqn:E; cbn [fst].
    + reflexivity.
    + cbn [virtualJoystick touches]. rewrite Hk. destruct H as [Ha Hin].
      split; [exact Ha |].
      apply (splice1_keeps_other (identifier touch)); try assumption.
      apply Z.eqb_neq, E.
  - destruct (k =? identifier touch)%Z; cbn [fst]; [reflexivity |].
    rewrite Hk. exact H.
Qed.

Lemma joystickBound_step s e : joystickBound s -> joystickBound (fst (step s e)).
Proof.
  intros H. destruct e as [cv now changed | cv changed | now changed | id]; cbn [step fst].
  - unfold handleTouchStart. revert s H.
    induction changed as [| t rest IH]; intros s H; [exact H |].
    cbn [fold_left]. apply IH, joystickBound_start, H.
  - unfold handleTouchMove. revert s H.
    induction changed as [| t rest IH]; intros s H; [exact H |].
    cbn [fold_left]. apply IH, joystickBound_move, H.
  - revert s H. induction changed as [| t rest IH]; intros s H; [exact H |].
    cbn [handleTouchEnd].
    pose proof (joystickBound_end now t s H) as H1.
    destruct (touchEnd1 now t s) as [s1 out1]. cbn [fst] in H1.
    specialize (IH s1 H1).
    destruct (handleTouchEnd now rest s1) as [s2 out2]. exact IH.
  - exact H.
Qed.

Lemma reachable_joystickBound s : reachable s -> joystickBound s.
Proof.
  intros [evs ->].
  assert (H0 : joystickBound init) by reflexivity.
  revert H0. generalize init. induction evs as [| e evs IH]; intros s0 H0; [exact H0 |].
  unfold run in *. cbn [fold_left]. apply IH, joystickBound_step, H0.
Qed.

Lemma tracked_find k ts :
  In k (map ti_id ts) -> findTouch k ts <> None.
Proof.
  intros Hin Hnone. apply in_map_iff in Hin as (t & Ht & Hin).
  apply (find_none _ _ Hnone) in Hin. rewrite Ht, Z.eqb_refl in Hin. discriminate.
Qed.

Lemma find_touchIdIs vj k ts :
  vj_touchId vj = Some k ->
  List.find (fun t => touchIdIs vj (ti_id t)) ts = findTouch k ts.
Proof.
  intros Hk. unfold findTouch, touchIdIs. rewrite Hk.
  induction ts as [| t ts IH]; [reflexivity |].
  cbn [List.find]. rewrite (Z.eqb_sym k), IH. reflexivity.
Qed.

(** X2: in every state the handler can reach, the joystick is active
    exactly when it is bound to a touch id, and the touch it is bound to is
    among the active touches. *)
Theorem X2_joystick_bound_to_tracked_touch (s : State) :
  reachable s ->
  (vj_active (virtualJoystick s) = true <-> vj_touchId (virtualJoystick s) <> None) /\
  (forall k, vj_touchId (virtualJoystick s) = Some k -> findTouch k (touches s) <> None).
Proof.
  intros Hr. pose proof (reachable_joystickBound s Hr) as H.
  unfold joystickBound in H.
  destruct (vj_touchId (virtualJoystick s)) as [k |].
  - destruct H as [Ha Hin]. split.
    + split; [discriminate | intros _; exact Ha].
    + intros k' Hk. injection Hk as <-. apply tracked_find, Hin.
  - split; [| discriminate]. rewrite H. split; [discriminate | intros Hc; contradiction].
Qed.

Lemma X2_joystick_bound_witness :
  (vj_active (virtualJoystick touchedAt10) = true <->
   vj_touchId (virtualJoystick touchedAt10) <> None) /\
  (forall k, vj_touchId (virtualJoystick touchedAt10) = Some k ->
             findTouch k (touches touchedAt10) <> None).
Proof.
  apply (X2_joystick_bound_to_tracked_touch touchedAt10).
  exists [TouchStart cv0 0 [mkTouch 1 10 10]]. reflexivity.
Defined.

(** X3: in every state the handler can reach, [getVirtualJoystick]
    reports [active: true] exactly when the joystick is active and its
    touch id is not 0; the lookup of the joystick's touch never fails. *)
Theorem X3_reading_active_iff (s : State) :
  reachable s ->
  jr_active (getVirtualJoystick s) =
  vj_active (virtualJoystick s) && truthyId (vj_touchId (virtualJoystick s)).
Proof.
  intros Hr. pose proof (reachable_joystickBound s Hr) as Hb.
  unfold joystickBound in Hb. unfold getVirtualJoystick.
  destruct (vj_active (virtualJoystick s)); [| reflexivity].
  destruct (vj_touchId (virtualJoystick s)) as [k |] eqn:Hk; [| reflexivity].
  cbn [negb orb andb truthyId].
  destruct (k =? 0)%Z; [reflexivity |]. cbn [negb].
  destruct Hb as [_ Hin]. pose proof (tracked_find k _ Hin) as Hfind.
  unfold findTouch in Hfind.
  rewrite (find_touchIdIs _ k _ Hk). unfold findTouch. destruct (List.find _ (touches s)); [reflexivity | contradiction].
Qed.

Lemma X3_reading_active_witness :
  jr_active (getVirtualJoystick touchedWithId0) =
  vj_active (virtualJoystick touchedWithId0) &&
  truthyId (vj_touchId (virtualJoystick touchedWithId0)).
Proof.
  apply (X3_reading_active_iff touchedWithId0).
  exists [TouchStart cv0 0 [mkTouch 0 10 10]]. reflexivity.
Defined.

(** *** One move of the joystick *)

Lemma atan2_direction dx dy :
  0 < sqrt (dx * dx + dy * dy) ->
  cos (atan2 dy dx) * sqrt (dx * dx + dy * dy) = dx /\
  sin (atan2 dy dx) * sqrt (dx * dx + dy * dy) = dy.
Proof.
  intros Hd. unfold atan2.
  assert (Hq : forall t, 0 < sqrt (1 + t²)).
  { intros t. apply sqrt_lt_R0. pose proof (Rle_0_sqr t). lra. }
  assert (Hsplit : dx <> 0 ->
            sqrt (dx * dx + dy * dy) = Rabs dx * sqrt (1 + (dy / dx)²)).
  { intros Hx. rewrite <- sqrt_Rsqr_abs, <- sqrt_mult.
    - f_equal. unfold Rsqr. field. exact Hx.
    - apply Rle_0_sqr.
    - pose proof (Rle_0_sqr (dy / dx)). lra. }
  destruct (Rlt_dec 0 dx) as [Hpos | Hnpos].
  - rewrite (Rltb_true _ _ Hpos), cos_atan, sin_atan, Hsplit by lra.
    rewrite Rabs_right by lra. pose proof (Hq (dy / dx)) as Hq'.
    split; field; lra.
  - rewrite Rltb_false by lra.
    destruct (Rlt_dec dx 0) as [Hneg | Hnneg].
    + rewrite (Rltb_true _ _ Hneg), Hsplit by lra.
      rewrite Rabs_left by lra. pose proof (Hq (dy / dx)) as Hq'.
      destruct (Rle_dec 0 dy) as [Hy | Hy].
      * rewrite (Rleb_true _ _ Hy), neg_cos, neg_sin, cos_atan, sin_atan.
        split; field; lra.
      * rewrite Rleb_false by lra.
        rewrite cos_minus, sin_minus, cos_PI, sin_PI, cos_atan, sin_atan.
        split; field; lra.
    + rewrite Rltb_false by lra.
      assert (dx = 0) by lra. subst dx.
      replace (0 * 0 + dy * dy) with (dy²) in * by (unfold Rsqr; ring).
      rewrite sqrt_Rsqr_abs in *.
      destruct (Rlt_dec 0 dy) as [Hy | Hy].
      * rewrite (Rltb_true _ _ Hy), cos_PI2, sin_PI2, Rabs_right by lra. lra.
      * rewrite Rltb_false by lra.
        destruct (Rlt_dec dy 0) as [Hy' | Hy'].
        -- rewrite (Rltb_true _ _ Hy'), cos_neg, sin_neg, cos_PI2, sin_PI2,
             Rabs_left by lra. lra.
        -- assert (dy = 0) by lra. subst dy. rewrite Rabs_R0 in Hd. lra.
Qed.

(** X4: one update of the joystick moves it by at most its radius: the
    joystick goes to the touch when the touch is within the radius of the
    joystick's last position; otherwise it moves by the radius in the
    direction of the touch, to the point of the segment from its last
    position to the touch that lies one radius from the last position; an
    inactive joystick does not move.  (Distances and positions are those
    of real arithmetic.) *)
Theorem X4_joystick_moves_at_most_radius (x y : R) (s : State) :
  0 <= vj_radius (virtualJoystick s) ->
  let s' := updateVirtualJoystick x y s in
  let d := distance x y (vj_x (virtualJoystick s)) (vj_y (virtualJoystick s)) in
  distance (vj_x (virtualJoystick s')) (vj_y (virtualJoystick s'))
           (vj_x (virtualJoystick s)) (vj_y (virtualJoystick s))
    <= vj_radius (virtualJoystick s) /\
  (vj_active (virtualJoystick s) = false -> s' = s) /\
  (vj_active (virtualJoystick s) = true ->
   d <= vj_radius (virtualJoystick s) ->
   vj_x (virtualJoystick s') = x /\ vj_y (virtualJoystick s') = y) /\
  (vj_active (virtualJoystick s) = true ->
   vj_radius (virtualJoystick s) < d ->
   distance (vj_x (virtualJoystick s')) (vj_y (virtualJoystick s'))
            (vj_x (virtualJoystick s)) (vj_y (virtualJoystick s))
     = vj_radius (virtualJoystick s) /\
   (vj_x (virtualJoystick s') - vj_x (virtualJoystick s)) * d
     = vj_radius (virtualJoystick s) * (x - vj_x (virtualJoystick s)) /\
   (vj_y (virtualJoystick s') - vj_y (virtualJoystick s)) * d
     = vj_radius (virtualJoystick s) * (y - vj_y (virtualJoystick s))).
Proof.
  intros Hr s' d. subst s' d.
  destruct (vj_active (virtualJoystick s)) eqn:Ha.
  - split; [| split; [discriminate | split]].
    + destruct (Rle_dec (distance x y (vj_x (virtualJoystick s)) (vj_y (virtualJoystick s)))
                        (vj_radius (virtualJoystick s))) as [Hle | Hgt].
      * rewrite (updateVirtualJoystick_within x y s Ha Hle). exact Hle.
      * right. apply updateVirtualJoystick_beyond; [exact Ha | exact Hr |].
        apply Rnot_le_lt, Hgt.
    + intros _ Hle. rewrite (updateVirtualJoystick_within x y s Ha Hle).
      split; reflexivity.
    + intros _ Hgt.
      split; [apply updateVirtualJoystick_beyond; assumption |].
      assert (Hpos : 0 < sqrt ((x - vj_x (virtualJoystick s)) * (x - vj_x (virtualJoystick s)) +
                               (y - vj_y (virtualJoystick s)) * (y - vj_y (virtualJoystick s))))
        by (unfold distance in Hgt; lra).
      destruct (atan2_direction _ _ Hpos) as [Hc Hs].
      unfold distance in Hgt |- *.
      unfold updateVirtualJoystick. rewrite Ha. cbn [negb].
      rewrite (Rleb_false _ _ Hgt).
      cbn [virtualJoystick set_vj_pos vj_x vj_y].
      set (a := atan2 _ _) in *. set (q := sqrt _) in *.
      set (r := vj_radius _) in *.
      split.
      * replace (_ * q) with (r * (cos a * q)) by ring. rewrite Hc. reflexivity.
      * replace (_ * q) with (r * (sin a * q)) by ring. rewrite Hs. reflexivity.
  - assert (E : updateVirtualJoystick x y s = s)
      by (unfold updateVirtualJoystick; rewrite Ha; reflexivity).
    rewrite E. split; [| split; [reflexivity | split; discriminate]].
    unfold distance.
    replace (_ + _) with 0 by ring. rewrite sqrt_0. exact Hr.
Qed.

Lemma X4_joystick_moves_witness :
  let s' := updateVirtualJoystick 200 10 touchedAt10 in
  let d := distance 200 10 (vj_x (virtualJoystick touchedAt10))
                    (vj_y (virtualJoystick touchedAt10)) in
  distance (vj_x (virtualJoystick s')) (vj_y (virtualJoystick s'))
           (vj_x (virtualJoystick touchedAt10)) (vj_y (virtualJoystick touchedAt10))
    <= vj_radius (virtualJoystick touchedAt10) /\
  (vj_active (virtualJoystick touchedAt10) = false -> s' = touchedAt10) /\
  (vj_active (virtualJoystick touchedAt10) = true ->
   d <= vj_radius (virtualJoystick touchedAt10) ->
   vj_x (virtualJoystick s') = 200 /\ vj_y (virtualJoystick s') = 10) /\
  (vj_active (virtualJoystick touchedAt10) = true ->
   vj_radius (virtualJoystick touchedAt10) < d ->
   distance (vj_x (virtualJoystick s')) (vj_y (virtualJoystick s'))
            (vj_x (virtualJoystick touchedAt10)) (vj_y (virtualJoystick touchedAt10))
     = vj_radius (virtualJoystick touchedAt10) /\
   (vj_x (virtualJoystick s') - vj_x (virtualJoystick touchedAt10)) * d
     = vj_radius (virtualJoystick touchedAt10) * (200 - vj_x (virtualJoystick touchedAt10)) /\
   (vj_y (virtualJoystick s') - vj_y (virtualJoystick touchedAt10)) * d
     = vj_radius (virtualJoystick touchedAt10) * (10 - vj_y (virtualJoystick touchedAt10))).
Proof.
  apply (X4_joystick_moves_at_most_radius 200 10 touchedAt10).
  unfold touchedAt10. rewrite run_touch_start by lra. cbn [virtualJoystick vj_radius]. lra.
Defined.

(** *** Gestures *)

Ltac arith_hyps :=
  repeat match goal with
         | H : _ /\ _ |- _ => destruct H
         | H : _ \/ _ |- _ => destruct H
         end;
  first [lia | lra].

Ltac arith_goal :=
  first [lia | lra | split; arith_goal | left; arith_goal | right; arith_goal].

(** An equivalence between an equation on gestures and a condition on
    numbers, both sides true or both false. *)
Ltac settle_iff :=
  first
    [ solve [exfalso; lra]
    | split; [intros _; arith_goal
             | intros _; first [reflexivity | eexists; reflexivity]]
    | split; [intros H; exfalso;
              match type of H with
              | ex _ => destruct H as [x Hx]; discriminate Hx
              | _ => discriminate H
              end
             | intros H; exfalso; arith_hyps] ].

(** X5: at touch-end a touch is classified by its duration and its
    displacement d from its start position: a tap exactly when the
    duration is at most 300 and d < 10; a swipe exactly when d > 30; and
    nothing exactly in between, that is when d <= 30 and the touch was too
    long or moved too far for a tap. *)
Theorem X5_gesture_classification (now : Z) (t : TouchInfo) :
  let duration := (now - ti_startTime t)%Z in
  let d := displacement t in
  (completeGestureRecognition now t = Some (Tap t) <->
     (duration <= 300)%Z /\ d < 10) /\
  ((exists direction,
      completeGestureRecognition now t =
        Some (Swipe t direction (ti_x t - ti_startX t) (ti_y t - ti_startY t))) <->
     30 < d) /\
  (completeGestureRecognition now t = None <->
     ((300 < duration)%Z \/ 10 <= d) /\ d <= 30).
Proof.
  intros duration d. unfold completeGestureRecognition, displacement in *.
  fold duration. unfold TAP_TIMEOUT, SWIPE_THRESHOLD, Rgtb.
  set (dd := sqrt _) in *. subst d. clearbody dd duration.
  destruct (Z.leb_spec duration 300) as [Hd | Hd];
    destruct (Rltb_spec dd 10) as [H10 | H10];
    destruct (Rltb_spec 30 dd) as [H30 | H30]; cbn [andb];
    (split; [settle_iff | split; settle_iff]).
Qed.

Lemma completeGestureRecognition_not_longPress now t g :
  completeGestureRecognition now t = Some g -> isLongPress g = false.
Proof.
  unfold completeGestureRecognition.
  destruct (_ && _); [intros H; injection H as <-; reflexivity |].
  destruct (Rgtb _ _); [intros H; injection H as <-; reflexivity | discriminate].
Qed.

Lemma splice1_length id : forall ts i,
  findTouchIndex id ts = Some i -> S (length (splice1 i ts)) = length ts.
Proof.
  induction ts as [| t ts IH]; intros i Hi; [discriminate |].
  cbn [findTouchIndex] in Hi. destruct (ti_id t =? id)%Z.
  - injection Hi as <-. reflexivity.
  - destruct (findTouchIndex id ts) as [j |]; [| discriminate].
    injection Hi as <-. cbn [splice1 length]. rewrite (IH j eq_refl). reflexivity.
Qed.

Lemma touchEnd1_bounds now touch s :
  (length (snd (touchEnd1 now touch s)) <= 1)%nat /\
  forallb (fun g => negb (isLongPress g)) (snd (touchEnd1 now touch s)) = true /\
  (length (touches (fst (touchEnd1 now touch s))) <= length (touches s))%nat /\
  (length (touches s) <= S (length (touches (fst (touchEnd1 now touch s)))))%nat.
Proof.
  unfold touchEnd1.
  destruct (findTouchIndex (identifier touch) (touches s)) as [i |] eqn:Hi.
  - pose proof (splice1_length _ _ _ Hi) as Hlen.
    assert (Hout : forall out,
               out = match nth_error (touches s) i with
                     | Some touchInfo =>
                         match completeGestureRecognition now touchInfo with
                         | Some g => [g]
                         | None => []
                         end
                     | None => []
                     end ->
               (length out <= 1)%nat /\
               forallb (fun g => negb (isLongPress g)) out = true).
    { intros out ->. destruct (nth_error (touches s) i) as [ti |]; [| split; auto].
      destruct (completeGestureRecognition now ti) as [g |] eqn:Hg; [| split; auto].
      apply completeGestureRecognition_not_longPress in Hg.
      cbn [length forallb]. rewrite Hg. split; auto. }
    destruct (Hout _ eq_refl) as [Ho1 Ho2].
    destruct (touchIdIs _ _); cbn [fst snd touches deactivateVirtualJoystick];
      repeat split; try assumption; lia.
  - destruct (touchIdIs _ _); cbn [fst snd touches deactivateVirtualJoystick length forallb];
      repeat split; lia.
Qed.

(** X6: a touch-end event emits at most one gesture for each touch it
    lists, never a long press, and removes at most one active touch for
    each of them. *)
Theorem X6_touch_end_emits_at_most_one (now : Z) (changed : list Touch) (s : State) :
  (length (snd (handleTouchEnd now changed s)) <= length changed)%nat /\
  forallb (fun g => negb (isLongPress g)) (snd (handleTouchEnd now changed s)) = true /\
  (length (touches (fst (handleTouchEnd now changed s))) <= length (touches s))%nat /\
  (length (touches s) <=
   length (touches (fst (handleTouchEnd now changed s))) + length changed)%nat.
Proof.
  revert s. induction changed as [| touch rest IH]; intros s.
  - cbn. repeat split; lia.
  - cbn [handleTouchEnd].
    pose proof (touchEnd1_bounds now touch s) as (H1 & H2 & H3 & H4).
    destruct (touchEnd1 now touch s) as [s1 out1]. cbn [fst snd] in *.
    specialize (IH s1) as (I1 & I2 & I3 & I4).
    destruct (handleTouchEnd now rest s1) as [s2 out2]. cbn [fst snd length] in *.
    rewrite length_app, forallb_app, H2, I2. repeat split; lia.
Qed.

Lemma findTouchIndex_fresh id t : forall ts,
  findTouch id ts = None ->
  ti_id t = id ->
  findTouchIndex id (ts ++ [t]) = Some (length ts) /\
  nth_error (ts ++ [t]) (length ts) = Some t /\
  splice1 (length ts) (ts ++ [t]) = ts.
Proof.
  unfold findTouch. induction ts as [| t0 ts IH]; intros Hnone Hid.
  - cbn. rewrite Hid, Z.eqb_refl. repeat split.
  - cbn [List.find] in Hnone. cbn [app findTouchIndex length nth_error splice1].
    destruct (ti_id t0 =? id)%Z; [discriminate |].
    destruct (IH Hnone Hid) as (H1 & H2 & H3). rewrite H1, H2, H3. repeat split.
Qed.

(** X7: a touch with an id that is not in use, ended where it started:
    the list of active touches is what it was before the touch; the
    gesture emitted is a tap when the touch lasted at most 300 ms and none
    otherwise; and when the touch was in the left half of the canvas the
    joystick, which it had taken, is left inactive and unbound. *)
Theorem X7_touch_start_then_end (cv : Canvas) (now now' : Z) (touch : Touch) (s : State) :
  findTouch (identifier touch) (touches s) = None ->
  let t0 := {| ti_id := identifier touch;
               ti_x := clientX touch - rect_left cv;
               ti_y := clientY touch - rect_top cv;
               ti_startX := clientX touch - rect_left cv;
               ti_startY := clientY touch - rect_top cv;
               ti_startTime := now |} in
  let r := handleTouchEnd now' [touch] (handleTouchStart cv now [touch] s) in
  touches (fst r) = touches s /\
  snd r = (if (now' - now <=? 300)%Z then [Tap t0] else []) /\
  (clientX touch - rect_left cv < width cv / 2 ->
   vj_active (virtualJoystick (fst r)) = false /\
   vj_touchId (virtualJoystick (fst r)) = None).
Proof.
  intros Hfresh t0 r. subst r.
  destruct (findTouchIndex_fresh (identifier touch) t0 (touches s) Hfresh eq_refl)
    as (Hi & Hn & Hsp).
  assert (Hg : completeGestureRecognition now' t0 =
               if (now' - now <=? 300)%Z then Some (Tap t0) else None).
  { unfold completeGestureRecognition, t0. cbn [ti_x ti_y ti_startX ti_startY ti_startTime].
    set (a := clientX touch - rect_left cv). set (b := clientY touch - rect_top cv).
    replace ((a - a) * (a - a) + (b - b) * (b - b)) with 0 by ring.
    rewrite sqrt_0. unfold Rgtb, SWIPE_THRESHOLD, TAP_TIMEOUT.
    rewrite (Rltb_true 0 10), (Rltb_false 30 0) by lra.
    destruct (now' - now <=? 300)%Z; reflexivity. }
  cbn [handleTouchStart handleTouchEnd fold_left].
  unfold touchStart1. cbn [ti_x]. subst t0.
  destruct (Rltb_spec (clientX touch - rect_left cv) (width cv / 2)) as [Hleft | Hright].
  - unfold touchEnd1, activateVirtualJoystick, touchIdIs.
    cbn [touches virtualJoystick vj_touchId]. rewrite Hi, Hn, Hg.
    cbn [touches virtualJoystick vj_touchId]. rewrite Z.eqb_refl, Hsp.
    cbn [fst snd touches deactivateVirtualJoystick virtualJoystick vj_active vj_touchId].
    split; [reflexivity |]. split; [| intros _; split; reflexivity].
    destruct (now' - now <=? 300)%Z; reflexivity.
  - unfold touchEnd1. cbn [touches virtualJoystick]. rewrite Hi, Hn, Hg, Hsp.
    split; [destruct (touchIdIs _ _); reflexivity |].
    split; [| intros Hc; contradiction].
    destruct (touchIdIs _ _); cbn [snd]; rewrite app_nil_r;
      destruct (now' - now <=? 300)%Z; reflexivity.
Qed.

Lemma X7_touch_start_then_end_witness :
  let t0 := {| ti_id := identifier leftTouch;
               ti_x := clientX leftTouch - rect_left cv0;
               ti_y := clientY leftTouch - rect_top cv0;
               ti_startX := clientX leftTouch - rect_left cv0;
               ti_startY := clientY leftTouch - rect_top cv0;
               ti_startTime := 0 |} in
  let r := handleTouchEnd 100 [leftTouch] (handleTouchStart cv0 0 [leftTouch] init) in
  touches (fst r) = touches init /\
  snd r = (if (100 - 0 <=? 300)%Z then [Tap t0] else []) /\
  (clientX leftTouch - rect_left cv0 < width cv0 / 2 ->
   vj_active (virtualJoystick (fst r)) = false /\
   vj_touchId (virtualJoystick (fst r)) = None).
Proof.
  apply (X7_touch_start_then_end cv0 0 100 leftTouch init). reflexivity.
Defined.

Lemma findTouch_startInfo id : forall ts ts',
  map startInfo ts = map startInfo ts' ->
  option_map startInfo (findTouch id ts) = option_map startInfo (findTouch id ts').
Proof.
  unfold findTouch.
  induction ts as [| t ts IH]; intros [| t' ts'] H; try discriminate; [reflexivity |].
  cbn [map] in H.
  pose proof (f_equal (hd (startInfo t)) H) as Ht. cbn [hd] in Ht.
  pose proof (f_equal (@tl _) H) as Hts. cbn [tl] in Hts.
  assert (Hid : ti_id t = ti_id t')
    by (apply (f_equal (fun i : Z * R * R * Z => fst (fst (fst i)))) in Ht; exact Ht).
  cbn [List.find]. rewrite Hid.
  destruct (ti_id t' =? id)%Z; [cbn [option_map]; f_equal; exact Ht |].
  apply IH, Hts.
Qed.

(** X8: the long-press timer of a touch does not look at how far the
    touch has moved: whatever touch-move events have come since, as long
    as a touch with that id is active the timer emits a long press for it,
    with the id, start position and start time the touch had. *)
Theorem X8_long_press_ignores_movement (cv : Canvas) (changed : list Touch)
  (id : Z) (t : TouchInfo) (s : State) :
  findTouch id (touches s) = Some t ->
  exists t',
    longPressTimer id (handleTouchMove cv changed s) = [LongPress t'] /\
    startInfo t' = startInfo t.
Proof.
  intros Hf.
  destruct (handleTouchMove_keeps cv changed s) as [Hk _].
  pose proof (findTouch_startInfo id _ _ Hk) as E. rewrite Hf in E.
  unfold longPressTimer.
  destruct (findTouch id (touches (handleTouchMove cv changed s))) as [t' |];
    [| discriminate].
  exists t'. split; [reflexivity |]. cbn in E. congruence.
Qed.

Lemma X8_long_press_witness :
  exists t',
    longPressTimer 1 (handleTouchMove cv0 [mkTouch 1 150 90]
                        {| touches := [movedTouch];
                           virtualJoystick := virtualJoystick init |})
      = [LongPress t'] /\
    startInfo t' = startInfo movedTouch.
Proof.
  apply (X8_long_press_ignores_movement cv0 [mkTouch 1 150 90] 1 movedTouch).
  reflexivity.
Defined.

End InputHandlerProps.

(** ** Game: frames, scaling, pausing *)

Module GameProps.
Import Game GameSpec.
Local Open Scope Q_scope.

Lemma Qfloor_unique (x : Q) (n : Z) :
  inject_Z n <= x -> x < inject_Z (n + 1) -> Qfloor x = n.
Proof.
  intros Hle Hlt.
  pose proof (Qfloor_le x) as H1. pose proof (Qlt_floor x) as H2.
  assert (Ha : inject_Z n < inject_Z (Qfloor x + 1)) by Lqa.lra.
  assert (Hb : inject_Z (Qfloor x) < inject_Z (n + 1)) by Lqa.lra.
  rewrite <- Zlt_Qlt in Ha, Hb. lia.
Qed.

Lemma stepsNeeded_below a : a < fixedTimeStep -> stepsNeeded a = 0%nat.
Proof.
  intros Ha. unfold stepsNeeded.
  assert (Hq : a / fixedTimeStep < 1).
  { apply Qlt_shift_div_r; [apply fixedTimeStep_pos | Lqa.lra]. }
  pose proof (Qfloor_le (a / fixedTimeStep)) as Hf.
  assert (Hz : inject_Z (Qfloor (a / fixedTimeStep)) < inject_Z 1)
    by (change (inject_Z 1) with 1; Lqa.lra).
  rewrite <- Zlt_Qlt in Hz. lia.
Qed.

Lemma stepsNeeded_step a :
  fixedTimeStep <= a -> stepsNeeded a = S (stepsNeeded (a - fixedTimeStep)).
Proof.
  intros Ha. pose proof fixedTimeStep_pos as Hp. unfold stepsNeeded.
  set (x := (a - fixedTimeStep) / fixedTimeStep).
  assert (Ex : a / fixedTimeStep == x + 1).
  { unfold x. field. intros H0. rewrite H0 in Hp. discriminate. }
  assert (Hx : 0 <= x).
  { unfold x. apply Qle_shift_div_l; [exact Hp | Lqa.lra]. }
  assert (Hf : (0 <= Qfloor x)%Z).
  { change 0%Z with (Qfloor 0). apply Qfloor_resp_le, Hx. }
  assert (E : Qfloor (a / fixedTimeStep) = (Qfloor x + 1)%Z).
  { apply Qfloor_unique.
    - rewrite Ex, inject_Z_plus. pose proof (Qfloor_le x).
      change (inject_Z 1) with 1. Lqa.lra.
    - rewrite Ex, !inject_Z_plus. pose proof (Qlt_floor x) as Hl.
      rewrite inject_Z_plus in Hl. change (inject_Z 1) with 1 in *. Lqa.lra. }
  rewrite E. rewrite Z2Nat.inj_add by lia. change (Z.to_nat 1) with 1%nat. lia.
Qed.

Lemma updateCalls_app cs cs' :
  updateCalls (cs ++ cs') = (updateCalls cs + updateCalls cs')%nat.
Proof. unfold updateCalls. rewrite List.filter_app, length_app. reflexivity. Qed.

Lemma renderCalls_app cs cs' :
  renderCalls (cs ++ cs') = (renderCalls cs + renderCalls cs')%nat.
Proof. unfold renderCalls. rewrite List.filter_app, length_app. reflexivity. Qed.

Lemma updateCalls_repeat d k : updateCalls (repeat (Update d) k) = k.
Proof.
  unfold updateCalls. induction k as [| k IH]; [reflexivity |].
  cbn [repeat List.filter length]. rewrite IH. reflexivity.
Qed.

Lemma renderCalls_repeat d k : renderCalls (repeat (Update d) k) = 0%nat.
Proof.
  unfold renderCalls. induction k as [| k IH]; [reflexivity |].
  cbn [repeat List.filter]. exact IH.
Qed.

(** The loop makes as many steps as fit into the accumulator, and changes
    only the accumulator and the list of calls. *)
Lemma drain_count fuel : forall s s',
  drain fuel s = Some s' ->
  updateCalls (calls s') = (updateCalls (calls s) + stepsNeeded (accumulator s))%nat /\
  renderCalls (calls s') = renderCalls (calls s) /\
  frameCount s' = frameCount s /\ fps s' = fps s /\
  fpsUpdateTime s' = fpsUpdateTime s /\ fpsFrameCount s' = fpsFrameCount s /\
  frameTime s' = frameTime s /\ isPaused s' = isPaused s.
Proof.
  induction fuel as [| fuel IH]; intros s s' H.
  - cbn [drain] in H.
    destruct (Qle_bool fixedTimeStep (accumulator s)) eqn:E; [discriminate |].
    injection H as <-.
    rewrite stepsNeeded_below
      by (apply Qnot_le_lt; rewrite <- Qle_bool_iff, E; discriminate).
    repeat split; lia.
  - destruct (Qlt_le_dec (accumulator s) fixedTimeStep) as [Hlt | Hge].
    + rewrite (drain_stop _ _ Hlt) in H. injection H as <-.
      rewrite (stepsNeeded_below _ Hlt). repeat split; lia.
    + rewrite (drain_continue _ _ Hge) in H.
      apply IH in H as (Hu & Hr & H1 & H2 & H3 & H4 & H5 & H6).
      cbn [set_accumulator accumulator update log_call calls frameCount fps
           fpsUpdateTime fpsFrameCount frameTime isPaused] in *.
      rewrite updateCalls_app in Hu. rewrite renderCalls_app in Hr.
      rewrite (stepsNeeded_step _ Hge).
      change (updateCalls [Update fixedTimeStep]) with 1%nat in Hu.
      change (renderCalls [Update fixedTimeStep]) with 0%nat in Hr.
      repeat split; try assumption; lia.
Qed.

Lemma gameLoop_running fuel currentTime s s' :
  isRunning s = true ->
  gameLoop fuel currentTime s = Some s' ->
  exists s1,
    drain fuel (beforeDrain currentTime s) = Some s1 /\
    s' = updatePerformanceMetrics (deltaTimeOf currentTime s) (render s1).
Proof.
  intros Hrun Hg. unfold gameLoop in Hg. rewrite Hrun in Hg. cbn [negb] in Hg.
  destruct (drain fuel (beforeDrain currentTime s)) as [s1 |]; [| discriminate].
  injection Hg as <-. exists s1. split; reflexivity.
Qed.

Lemma beforeDrain_fields currentTime s :
  lastTime (beforeDrain currentTime s) = currentTime /\
  isRunning (beforeDrain currentTime s) = isRunning s /\
  frameCount (beforeDrain currentTime s) = frameCount s.
Proof.
  unfold beforeDrain, updateFPSCounter. destruct (Qle_bool _ _); repeat split.
Qed.

Lemma frame_structure fuel currentTime s s' :
  isRunning s = true ->
  gameLoop fuel currentTime s = Some s' ->
  exists k,
    calls s' = calls s ++ repeat (Update fixedTimeStep) k ++ [Render] /\
    k = stepsNeeded (accumulator s + deltaTimeOf currentTime s) /\
    accumulator s' == accumulator s + deltaTimeOf currentTime s
                      - Qnat k * fixedTimeStep /\
    accumulator s' < fixedTimeStep /\
    (0 <= accumulator s + deltaTimeOf currentTime s -> 0 <= accumulator s') /\
    lastTime s' = currentTime /\
    frameCount s' = S (frameCount s) /\
    frameTime s' = deltaTimeOf currentTime s /\
    isRunning s' = true /\
    isPaused s' = isPaused s.
Proof.
  intros Hrun Hg.
  destruct (gameLoop_running _ _ _ _ Hrun Hg) as (s1 & Hd & ->).
  pose proof (drain_count _ _ _ Hd) as (Hu & _ & Hfc & _ & _ & _ & _ & Hp).
  apply drain_spec in Hd as (k & Hc & Ha & Hlt & Hnn & Hr & Ht).
  destruct (beforeDrain_fields currentTime s) as (Bt & Br & Bf).
  rewrite accumulator_beforeDrain in Ha, Hnn, Hu. rewrite calls_beforeDrain in Hc, Hu.
  exists k.
  cbn [updatePerformanceMetrics render log_call calls accumulator lastTime
       frameCount frameTime isRunning isPaused].
  split; [rewrite Hc, <- app_assoc; reflexivity |].
  split.
  { rewrite Hc, updateCalls_app, updateCalls_repeat in Hu. lia. }
  split; [exact Ha |].
  split; [exact Hlt |]. split; [exact Hnn |].
  split; [congruence |]. split; [congruence |]. split; [reflexivity |].
  split; [congruence |].
  rewrite Hp. unfold beforeDrain, updateFPSCounter. destruct (Qle_bool _ _); reflexivity.
Qed.

Lemma stepsNeeded_zero a : stepsNeeded a = 0%nat <-> a < fixedTimeStep.
Proof.
  split; [| apply stepsNeeded_below].
  intros H0. apply Qnot_le_lt. intros Hge.
  rewrite (stepsNeeded_step _ Hge) in H0. discriminate.
Qed.

(** *** Properties *)

(** X9: a frame of the running game that returns has called [update]
    some k times, each with the fixed step, and then [render] once, after
    the updates; it leaves less than one step in the accumulator, and no
    negative amount when the accumulator and the frame's delta time
    together were not negative; it sets [lastTime] to the frame's
    timestamp, records the delta time as the frame time, counts the frame,
    and leaves the game running, and paused if it was. *)
Theorem X9_frame_structure (fuel : nat) (currentTime : Q) (s s' : State) :
  isRunning s = true ->
  gameLoop fuel currentTime s = Some s' ->
  exists k,
    calls s' = calls s ++ repeat (Update fixedTimeStep) k ++ [Render] /\
    accumulator s' < fixedTimeStep /\
    (0 <= accumulator s + deltaTimeOf currentTime s -> 0 <= accumulator s') /\
    lastTime s' = currentTime /\
    frameCount s' = S (frameCount s) /\
    frameTime s' = deltaTimeOf currentTime s /\
    isRunning s' = true /\
    isPaused s' = isPaused s.
Proof.
  intros Hrun Hg.
  destruct (frame_structure _ _ _ _ Hrun Hg)
    as (k & Hc & _ & _ & Hlt & Hnn & Hl & Hf & Hft & Hr & Hp).
  exists k. repeat split; assumption.
Qed.

Lemma X9_frame_structure_witness :
  exists k,
    calls afterLateFrame = calls runningWith10 ++ repeat (Update fixedTimeStep) k ++ [Render] /\
    accumulator afterLateFrame < fixedTimeStep /\
    (0 <= accumulator runningWith10 + deltaTimeOf 1100 runningWith10 ->
     0 <= accumulator afterLateFrame) /\
    lastTime afterLateFrame = 1100 /\
    frameCount afterLateFrame = S (frameCount runningWith10) /\
    frameTime afterLateFrame = deltaTimeOf 1100 runningWith10 /\
    isRunning afterLateFrame = true /\
    isPaused afterLateFrame = isPaused runningWith10.
Proof.
  apply (X9_frame_structure 20 1100 runningWith10 afterLateFrame).
  - reflexivity.
  - vm_compute. reflexivity.
Defined.

(** X10: short frames accumulate.  A frame of the running game calls
    [update] at all exactly when the accumulator, after the frame's delta
    time is added, has reached one step; a frame that stays below one step
    makes no [update] call and leaves the sum in the accumulator for the
    next frame; and every frame calls [render] once, whether it has updated
    or not. *)
Theorem X10_short_frames_accumulate (fuel : nat) (currentTime : Q) (s s' : State) :
  isRunning s = true ->
  gameLoop fuel currentTime s = Some s' ->
  (updateCalls (calls s') = updateCalls (calls s) <->
   accumulator s + deltaTimeOf currentTime s < fixedTimeStep) /\
  (accumulator s + deltaTimeOf currentTime s < fixedTimeStep ->
   accumulator s' == accumulator s + deltaTimeOf currentTime s) /\
  renderCalls (calls s') = S (renderCalls (calls s)).
Proof.
  intros Hrun Hg.
  destruct (frame_structure _ _ _ _ Hrun Hg) as (k & Hc & Hk & Ha & _).
  assert (Hu : updateCalls (calls s') = (updateCalls (calls s) + k)%nat).
  { rewrite Hc, !updateCalls_app, updateCalls_repeat.
    change (updateCalls [Render]) with 0%nat. lia. }
  assert (Hr : renderCalls (calls s') = S (renderCalls (calls s))).
  { rewrite Hc, !renderCalls_app, renderCalls_repeat.
    change (renderCalls [Render]) with 1%nat. lia. }
  split; [| split; [| exact Hr]].
  - rewrite <- stepsNeeded_zero, <- Hk. lia.
  - intros Hlt. apply stepsNeeded_zero in Hlt. rewrite <- Hk in Hlt.
    rewrite Ha, Hlt, Qnat_0. Lqa.lra.
Qed.

Lemma X10_short_frames_witness :
  (updateCalls (calls afterShortFrame) = updateCalls (calls runningWith10) <->
   accumulator runningWith10 + deltaTimeOf 105 runningWith10 < fixedTimeStep) /\
  (accumulator runningWith10 + deltaTimeOf 105 runningWith10 < fixedTimeStep ->
   accumulator afterShortFrame == accumulator runningWith10 + deltaTimeOf 105 runningWith10) /\
  renderCalls (calls afterShortFrame) = S (renderCalls (calls runningWith10)).
Proof.
  apply (X10_short_frames_accumulate 20 105 runningWith10 afterShortFrame).
  - reflexivity.
  - vm_compute. reflexivity.
Defined.

Lemma frame_returns currentTime s :
  isRunning s = true ->
  0 <= accumulator s ->
  accumulator s < fixedTimeStep ->
  lastTime s <= currentTime ->
  exists s', gameLoop 16 currentTime s = Some s'.
Proof.
  intros Hrun H0 Hlt Ht.
  pose proof (deltaTimeOf_le_max currentTime s) as Hmax.
  change maxDeltaTime with 250 in Hmax.
  destruct (drain_total 15 16 (beforeDrain currentTime s)) as [s1 Hs1]; [| lia |].
  { rewrite accumulator_beforeDrain. change (Qnat 16) with 16.
    rewrite fixedTimeStep_value in Hlt |- *. Lqa.lra. }
  unfold gameLoop. rewrite Hrun. cbn [negb]. rewrite Hs1. eauto.
Qed.

Lemma last_cons (t d : Q) (rest : list Q) :
  List.last (t :: rest) d = List.last rest t.
Proof.
  revert t d. induction rest as [| t' rest IH]; intros t d; [reflexivity |].
  change (List.last (t :: t' :: rest) d) with (List.last (t' :: rest) d).
  rewrite !IH. reflexivity.
Qed.

Lemma frame_at_most_16 currentTime s s' k :
  0 <= accumulator s ->
  accumulator s < fixedTimeStep ->
  lastTime s <= currentTime ->
  accumulator s' == accumulator s + deltaTimeOf currentTime s
                    - Qnat k * fixedTimeStep ->
  0 <= accumulator s' ->
  (k <= 16)%nat.
Proof.
  intros H0 Hlt Ht Ha H0'.
  pose proof (deltaTimeOf_le_max currentTime s) as Hmax.
  change maxDeltaTime with 250 in Hmax.
  assert (Hq : Qnat k < 17).
  { rewrite fixedTimeStep_value in *. Lqa.lra. }
  unfold Qnat in Hq. change 17 with (inject_Z 17) in Hq.
  rewrite <- Zlt_Qlt in Hq. lia.
Qed.

(** X11: a run of frames of the running game whose timestamps do not go
    back, begun with the accumulator in [0, fixedTimeStep): every frame
    returns (16 iterations of the loop suffice for each), the accumulator
    ends in [0, fixedTimeStep) again, [lastTime] is the timestamp of the
    last frame, one [render] is made per frame, and at most 16 [update]
    calls per frame, however far apart the frames are. *)
Theorem X11_frames_keep_up (times : list Q) (s : State) :
  isRunning s = true ->
  0 <= accumulator s ->
  accumulator s < fixedTimeStep ->
  nondecreasingFrom (lastTime s) times ->
  exists s' k,
    frames 16 times s = Some s' /\
    updateCalls (calls s') = (updateCalls (calls s) + k)%nat /\
    (k <= 16 * length times)%nat /\
    renderCalls (calls s') = (renderCalls (calls s) + length times)%nat /\
    0 <= accumulator s' /\ accumulator s' < fixedTimeStep /\
    lastTime s' = List.last times (lastTime s) /\
    frameCount s' = (frameCount s + length times)%nat /\
    isRunning s' = true.
Proof.
  revert s. induction times as [| t rest IH]; intros s Hrun H0 Hlt Hnd.
  - exists s, 0%nat. cbn [frames length List.last].
    repeat split; try lia; try assumption.
  - destruct Hnd as [Ht Hnd]. cbn [frames].
    destruct (frame_returns t s Hrun H0 Hlt Ht) as [s1 Hg]. rewrite Hg.
    destruct (frame_structure _ _ _ _ Hrun Hg)
      as (k1 & Hc1 & _ & Ha1 & Hlt1 & Hnn1 & Hl1 & Hf1 & _ & Hrun1 & _).
    assert (Hu1 : updateCalls (calls s1) = (updateCalls (calls s) + k1)%nat).
    { rewrite Hc1, !updateCalls_app, updateCalls_repeat.
      change (updateCalls [Render]) with 0%nat. lia. }
    assert (Hr1 : renderCalls (calls s1) = S (renderCalls (calls s))).
    { rewrite Hc1, !renderCalls_app, renderCalls_repeat.
      change (renderCalls [Render]) with 1%nat. lia. }
    pose proof (deltaTimeOf_nonneg t s Ht) as Hdt0.
    assert (H01 : 0 <= accumulator s1) by (apply Hnn1; Lqa.lra).
    pose proof (frame_at_most_16 t s s1 k1 H0 Hlt Ht Ha1 H01) as Hk1.
    rewrite <- Hl1 in Hnd.
    destruct (IH s1 Hrun1 H01 Hlt1 Hnd)
      as (s' & k & Hf & Hu & Hk & Hr & H0' & Hlt' & Hl' & Hfc' & Hrun').
    exists s', (k1 + k)%nat.
    split; [exact Hf |].
    split; [lia |]. split; [cbn [length]; lia |]. split; [cbn [length]; lia |].
    split; [exact H0' |]. split; [exact Hlt' |].
    split.
    { rewrite Hl', Hl1. symmetry. apply last_cons. }
    split; [cbn [length]; lia | exact Hrun'].
Qed.

Lemma X11_frames_witness :
  exists s' k,
    frames 16 threeFrames runningWith10 = Some s' /\
    updateCalls (calls s') = (updateCalls (calls runningWith10) + k)%nat /\
    (k <= 16 * length threeFrames)%nat /\
    renderCalls (calls s') = (renderCalls (calls runningWith10) + length threeFrames)%nat /\
    0 <= accumulator s' /\ accumulator s' < fixedTimeStep /\
    lastTime s' = List.last threeFrames (lastTime runningWith10) /\
    frameCount s' = (frameCount runningWith10 + length threeFrames)%nat /\
    isRunning s' = true.
Proof.
  apply (X11_frames_keep_up threeFrames runningWith10).
  - reflexivity.
  - vm_compute. discriminate.
  - reflexivity.
  - cbn. repeat split; vm_compute; discriminate.
Defined.

(** X12: [updateScaling] picks an integer scale of at least 1.  For a
    viewport no smaller than the base resolution 320 x 180 the scaled
    canvas fits the viewport and the next larger scale would not; for a
    smaller viewport the scale is 1. *)
Theorem X12_scale_fits_viewport (viewportWidth viewportHeight : Q) :
  let scale := updateScaling viewportWidth viewportHeight in
  (1 <= scale)%Z /\
  (width <= viewportWidth -> height <= viewportHeight ->
   width * inject_Z scale <= viewportWidth /\
   height * inject_Z scale <= viewportHeight /\
   (viewportWidth < width * inject_Z (scale + 1) \/
    viewportHeight < height * inject_Z (scale + 1))) /\
  (viewportWidth < width \/ viewportHeight < height -> scale = 1%Z).
Proof.
  intros scale. subst scale. unfold updateScaling, width, height.
  set (m := Qmin (viewportWidth / 320) (viewportHeight / 180)).
  pose proof (Qfloor_le m) as Hfl. pose proof (Qlt_floor m) as Hfu.
  rewrite inject_Z_plus in Hfu. change (inject_Z 1) with 1 in Hfu.
  assert (Ew : viewportWidth / 320 * 320 == viewportWidth) by (field; discriminate).
  assert (Eh : viewportHeight / 180 * 180 == viewportHeight) by (field; discriminate).
  pose proof (Q.le_min_l (viewportWidth / 320) (viewportHeight / 180)) as Hml.
  pose proof (Q.le_min_r (viewportWidth / 320) (viewportHeight / 180)) as Hmr.
  fold m in Hml, Hmr.
  split; [lia |]. split.
  - intros Hw Hh.
    assert (H1 : 1 <= m).
    { apply Q.min_glb; apply Qle_shift_div_l; try reflexivity; Lqa.lra. }
    assert (Hf1 : (1 <= Qfloor m)%Z).
    { change 1%Z with (Qfloor 1). apply Qfloor_resp_le, H1. }
    rewrite Z.max_r by exact Hf1.
    rewrite inject_Z_plus. change (inject_Z 1) with 1.
    split; [Lqa.lra |]. split; [Lqa.lra |].
    destruct (Q.min_spec (viewportWidth / 320) (viewportHeight / 180))
      as [[_ E] | [_ E]]; fold m in E; [left | right]; Lqa.lra.
  - intros Hsmall.
    assert (Hm : m < 1).
    { destruct Hsmall as [Hw | Hh].
      - apply Qle_lt_trans with (viewportWidth / 320); [exact Hml |].
        apply Qlt_shift_div_r; [reflexivity | Lqa.lra].
      - apply Qle_lt_trans with (viewportHeight / 180); [exact Hmr |].
        apply Qlt_shift_div_r; [reflexivity | Lqa.lra]. }
    assert (Hz : inject_Z (Qfloor m) < inject_Z 1)
      by (change (inject_Z 1) with 1; Lqa.lra).
    rewrite <- Zlt_Qlt in Hz. lia.
Qed.

(** X13: pausing a game that is not paused puts it in state PAUSED,
    remembers the state it was in and asks for no scene switch; pausing
    again changes nothing; resuming brings the state back, asks the scene
    manager, when there is one, for the scene of that state, and leaves the
    timing of the loop (accumulator, lastTime, the running flag) untouched;
    resuming a game that is not paused changes nothing. *)
Theorem X13_pause_then_resume (g : Session) :
  isPaused (timing g) = false ->
  state (pause g) = PAUSED /\
  previousState (pause g) = Some (state g) /\
  isPaused (timing (pause g)) = true /\
  switches (pause g) = switches g /\
  pause (pause g) = pause g /\
  state (resume (pause g)) = state g /\
  isPaused (timing (resume (pause g))) = false /\
  set_isPaused false (timing (resume (pause g))) = set_isPaused false (timing g) /\
  switches (resume (pause g)) =
    switches g ++ match sceneFor (state g) with
                  | Some name => if scenesReady g then [name] else []
                  | None => []
                  end /\
  resume g = g.
Proof.
  intros Hp. unfold pause, resume. rewrite Hp. cbn [negb].
  cbn [setState timing state previousState scenesReady switches set_isPaused
       isPaused sceneFor negb default].
  rewrite app_nil_r. repeat split.
Qed.

Lemma X13_pause_then_resume_witness :
  state (pause playing) = PAUSED /\
  previousState (pause playing) = Some (state playing) /\
  isPaused (timing (pause playing)) = true /\
  switches (pause playing) = switches playing /\
  pause (pause playing) = pause playing /\
  state (resume (pause playing)) = state playing /\
  isPaused (timing (resume (pause playing))) = false /\
  set_isPaused false (timing (resume (pause playing))) = set_isPaused false (timing playing) /\
  switches (resume (pause playing)) =
    switches playing ++ match sceneFor (state playing) with
                        | Some name => if scenesReady playing then [name] else []
                        | None => []
                        end /\
  resume playing = playing.
Proof. apply (X13_pause_then_resume playing). reflexivity. Defined.

End GameProps.

(** ** SceneManager: registry, transition timing, rendering *)

Module SceneManagerProps.
Import SceneManager SceneManagerSpec.

(** X14: the registry: after [addScene (name, scene)] the name is
    registered with that scene and every other name is as before; adding
    under a name in use replaces the scene without destroying the old one,
    and touches neither the current scene nor a transition. *)
Theorem X14_addScene_registers (name : string) (scene : SceneRef) (s : State) :
  getScene name (addScene name scene s) = Some scene /\
  hasScene name (addScene name scene s) = true /\
  (forall other, other <> name ->
     getScene other (addScene name scene s) = getScene other s /\
     hasScene other (addScene name scene s) = hasScene other s) /\
  effects (addScene name scene s) = effects s /\
  currentScene (addScene name scene s) = currentScene s /\
  transitionActive (addScene name scene s) = transitionActive s /\
  initializedScenes (addScene name scene s) = initializedScenes s.
Proof.
  unfold getScene, hasScene, addScene. cbn [scenes effects currentScene
    transitionActive initializedScenes].
  rewrite lookup_insert_eq.
  split; [reflexivity |]. split; [apply bool_decide_eq_true_2; eauto |].
  split; [| repeat split].
  intros other Hne. rewrite lookup_insert_ne by congruence. split; reflexivity.
Qed.

(** X15: [removeScene] of a name that is registered with a scene other
    than the current one destroys that scene once and forgets the name, in
    the registry and among the initialised names, every other name staying
    as it was; [removeScene] of a name that is not registered does nothing
    and does not throw. *)
Theorem X15_removeScene_forgets (name : string) (s : State) :
  (forall scene,
     scenes s !! name = Some scene ->
     currentScene s <> Some scene ->
     exists s',
       removeScene name s = Ok s' /\
       effects s' = effects s ++ [DestroyCalled scene] /\
       getScene name s' = None /\
       hasScene name s' = false /\
       (name ∉ initializedScenes s') /\
       (forall other, other <> name ->
          getScene other s' = getScene other s /\
          (other ∈ initializedScenes s' <-> other ∈ initializedScenes s)) /\
       currentScene s' = currentScene s /\
       transitionActive s' = transitionActive s) /\
  (scenes s !! name = None -> removeScene name s = Ok s).
Proof.
  split.
  - intros scene Hs Hc. unfold removeScene. rewrite Hs.
    rewrite bool_decide_eq_false_2 by exact Hc.
    eexists. split; [reflexivity |].
    unfold getScene, hasScene.
    cbn [scenes effects initializedScenes currentScene transitionActive].
    rewrite lookup_delete_eq.
    split; [reflexivity |]. split; [reflexivity |].
    split; [apply bool_decide_eq_false_2; intros [x Hx]; discriminate |].
    split.
    { intros H. apply elem_of_difference in H as [_ H].
      apply H, elem_of_singleton. reflexivity. }
    split; [| split; reflexivity].
    intros other Hne. rewrite lookup_delete_ne by congruence.
    split; [reflexivity |].
    rewrite elem_of_difference, elem_of_singleton.
    split; [intros [H _]; exact H | intros H; split; [exact H | exact Hne]].
  - intros Hs. unfold removeScene. rewrite Hs. reflexivity.
Qed.

(** *** How long a transition lasts *)

Lemma Qmin_left (x y : Q) : (x <= y)%Q -> Qmin x y = x.
Proof.
  intros H. unfold Qmin, GenericMinMax.gmin.
  destruct (x ?= y)%Q eqn:E; try reflexivity.
  apply Qgt_alt in E. Lqa.lra.
Qed.

Lemma Qmin_right (x y : Q) : (y < x)%Q -> Qmin x y = y.
Proof.
  intros H. unfold Qmin, GenericMinMax.gmin.
  apply Qgt_alt in H. rewrite H. reflexivity.
Qed.

Lemma progressOf_positive elapsed duration :
  (0 < duration)%Q ->
  progressOf elapsed duration = Fin (Qmin (inject_Z elapsed / duration) 1).
Proof.
  intros Hd. unfold progressOf.
  destruct (Qeq_bool duration 0) eqn:E; [| reflexivity].
  apply Qeq_bool_iff in E. rewrite E in Hd. discriminate.
Qed.

Lemma updateTransition_timing (fromScene : option SceneRef)
  (toScene : SceneRef) (startTime now : Z) (s : State) :
  (0 < transitionDuration s)%Q ->
  let elapsed := inject_Z (now - startTime) in
  let r := updateTransition fromScene toScene startTime now s in
  ((elapsed < transitionDuration s)%Q ->
   r = (set_progress (Fin (elapsed / transitionDuration s)) s,
        Some (Animating fromScene toScene startTime))) /\
  ((transitionDuration s <= elapsed)%Q ->
   snd r = None /\
   currentScene (fst r) = Some toScene /\
   transitionActive (fst r) = false /\
   transitionProgress (fst r) = Fin 0 /\
   transitionFromScene (fst r) = None /\
   transitionToScene (fst r) = None /\
   effects (fst r) =
     effects s ++ match fromScene with
                  | Some scene => [DestroyCalled scene]
                  | None => []
                  end).
Proof.
  intros Hd elapsed r. subst r. unfold updateTransition.
  rewrite (progressOf_positive _ _ Hd). fold elapsed.
  cbn [set_progress transitionProgress reachedOne].
  split.
  - intros Hlt.
    assert (Hq : (elapsed / transitionDuration s < 1)%Q)
      by (apply Qlt_shift_div_r; [exact Hd | Lqa.lra]).
    rewrite Qmin_left by Lqa.lra.
    destruct (Qle_bool 1 (elapsed / transitionDuration s)) eqn:E; [| reflexivity].
    apply Qle_bool_iff in E. Lqa.lra.
  - intros Hge.
    assert (Hq : (1 <= elapsed / transitionDuration s)%Q)
      by (apply Qle_shift_div_l; [exact Hd | Lqa.lra]).
    assert (E : Qle_bool 1 (Qmin (elapsed / transitionDuration s) 1) = true).
    { apply Qle_bool_iff. apply Q.min_glb; [exact Hq | Lqa.lra]. }
    rewrite E. repeat split.
Qed.

(** X16: with a positive [transitionDuration], the transition ends at
    the first run of [updateTransition] whose clock reading is at least
    the duration after the start, and not before: until then only the
    progress changes, to elapsed / duration, and the update is scheduled
    again; at the end the outgoing scene is destroyed, the incoming scene
    becomes current and the transition fields are cleared. *)
Theorem X16_transition_lasts_its_duration (fromScene : option SceneRef)
  (toScene : SceneRef) (startTime now : Z) (s : State) :
  (0 < transitionDuration s)%Q ->
  let elapsed := inject_Z (now - startTime) in
  let r := updateTransition fromScene toScene startTime now s in
  ((elapsed < transitionDuration s)%Q ->
   r = (set_progress (Fin (elapsed / transitionDuration s)) s,
        Some (Animating fromScene toScene startTime))) /\
  ((transitionDuration s <= elapsed)%Q ->
   snd r = None /\
   currentScene (fst r) = Some toScene /\
   transitionActive (fst r) = false /\
   transitionProgress (fst r) = Fin 0 /\
   transitionFromScene (fst r) = None /\
   transitionToScene (fst r) = None /\
   effects (fst r) =
     effects s ++ match fromScene with
                  | Some scene => [DestroyCalled scene]
                  | None => []
                  end).
Proof. apply updateTransition_timing. Qed.

Lemma X16_transition_witness :
  let elapsed := inject_Z (1260 - 1010) in
  let r := updateTransition (Some 1%nat) 2%nat 1010 1260 fadingToGame in
  ((elapsed < transitionDuration fadingToGame)%Q ->
   r = (set_progress (Fin (elapsed / transitionDuration fadingToGame)) fadingToGame,
        Some (Animating (Some 1%nat) 2%nat 1010))) /\
  ((transitionDuration fadingToGame <= elapsed)%Q ->
   snd r = None /\
   currentScene (fst r) = Some 2%nat /\
   transitionActive (fst r) = false /\
   transitionProgress (fst r) = Fin 0 /\
   transitionFromScene (fst r) = None /\
   transitionToScene (fst r) = None /\
   effects (fst r) = effects fadingToGame ++ [DestroyCalled 1%nat]).
Proof.
  apply (X16_transition_lasts_its_duration (Some 1%nat) 2%nat 1010 1260 fadingToGame).
  vm_compute. reflexivity.
Defined.

(** X17: with [transitionDuration] 0 the quotient elapsed / duration is
    not a finite number: the transition ends at the first run of
    [updateTransition] at which the clock has moved past the start; while
    the clock still reads the start time the progress is NaN, and when it
    reads less, minus infinity, and in both cases the transition stays
    active and the update is scheduled again. *)
Theorem X17_zero_duration (fromScene : option SceneRef) (toScene : SceneRef)
  (startTime now : Z) (s : State) :
  (transitionDuration s == 0)%Q ->
  let r := updateTransition fromScene toScene startTime now s in
  ((startTime < now)%Z ->
   snd r = None /\ currentScene (fst r) = Some toScene /\
   transitionActive (fst r) = false) /\
  (now = startTime ->
   r = (set_progress NaN s, Some (Animating fromScene toScene startTime))) /\
  ((now < startTime)%Z ->
   r = (set_progress NegInf s, Some (Animating fromScene toScene startTime))).
Proof.
  intros Hd r. subst r. unfold updateTransition, progressOf.
  apply Qeq_bool_iff in Hd. rewrite Hd.
  split; [| split]; intros H.
  - rewrite (proj2 (Z.ltb_lt 0 (now - startTime))) by lia.
    cbn [set_progress transitionProgress reachedOne].
    change (Qle_bool 1 1) with true. repeat split.
  - subst now. rewrite Z.sub_diag. reflexivity.
  - rewrite (proj2 (Z.ltb_ge 0 (now - startTime))) by lia.
    rewrite (proj2 (Z.ltb_lt (now - startTime) 0)) by lia. reflexivity.
Qed.

Lemma X17_zero_duration_witness :
  let r := updateTransition None 1%nat 0 0 instant in
  ((0 < 0)%Z ->
   snd r = None /\ currentScene (fst r) = Some 1%nat /\
   transitionActive (fst r) = false) /\
  (0%Z = 0%Z ->
   r = (set_progress NaN instant, Some (Animating None 1%nat 0))) /\
  ((0 < 0)%Z ->
   r = (set_progress NegInf instant, Some (Animating None 1%nat 0))).
Proof. apply (X17_zero_duration None 1%nat 0 0 instant). reflexivity. Defined.

(** *** Initialisation, and what is suspended *)

Lemma updateTransition_keeps fromScene toScene startTime now s :
  let r := updateTransition fromScene toScene startTime now s in
  scenes (fst r) = scenes s /\
  initializedScenes (fst r) = initializedScenes s /\
  exists l, effects (fst r) = effects s ++ l /\ forallb (fun e => negb (isInit e)) l = true.
Proof.
  unfold updateTransition. destruct (reachedOne _); cbn [fst].
  - repeat split. exists (match fromScene with
                          | Some scene => [DestroyCalled scene]
                          | None => []
                          end).
    split; [reflexivity |]. destruct fromScene; reflexivity.
  - repeat split. exists []. rewrite app_nil_r. split; reflexivity.
Qed.

Lemma initialized_step name m e :
  name ∈ initializedScenes (mgr m) ->
  ~ forgets name e ->
  name ∈ initializedScenes (mgr (step m e)).
Proof.
  intros Hin Hrm.
  destruct e as [sceneName ttype startTime now | n scene | n
                | i startTime now | i | i now | | duration]; cbn [step];
    [| | | | | | exfalso; apply Hrm; exact I | exact Hin].
  - unfold switchTo.
    destruct (scenes (mgr m) !! sceneName); [| exact Hin].
    destruct (transitionActive (mgr m)); [exact Hin |].
    destruct (bool_decide (currentScene (mgr m) = Some _)); [exact Hin |].
    destruct (bool_decide (sceneName ∈ _)); [| exact Hin].
    unfold startTransition, performTransition.
    match goal with
    | |- context [updateTransition ?f ?t ?a ?b ?s0] =>
        pose proof (updateTransition_keeps f t a b s0) as (_ & Hk & _);
        destruct (updateTransition f t a b s0) as [s' t']
    end.
    cbn [fst mgr initializedScenes] in *. rewrite Hk. exact Hin.
  - exact Hin.
  - unfold removeScene. destruct (scenes (mgr m) !! n); [| exact Hin].
    destruct (bool_decide _); [exact Hin |]. cbn [mgr initializedScenes].
    apply elem_of_difference. split; [exact Hin |].
    rewrite elem_of_singleton. intros E. apply Hrm. cbn [forgets]. congruence.
  - destruct (tasks m !! i) as [[sceneName newScene tt | f t st] |]; try exact Hin.
    unfold switchTo_resume, startTransition, performTransition.
    match goal with
    | |- context [updateTransition ?f ?t ?a ?b ?s0] =>
        pose proof (updateTransition_keeps f t a b s0) as (_ & Hk & _);
        destruct (updateTransition f t a b s0) as [s' t']
    end.
    cbn [fst mgr initializedScenes] in *. rewrite Hk.
    apply elem_of_union. left. exact Hin.
  - destruct (tasks m !! i) as [[sceneName newScene tt | f t st] |]; exact Hin.
  - destruct (tasks m !! i) as [[sceneName newScene tt | f t st] |]; try exact Hin.
    pose proof (updateTransition_keeps f t st now (mgr m)) as (_ & Hk & _).
    destruct (updateTransition f t st now (mgr m)) as [s' t'].
    cbn [fst mgr] in *. rewrite Hk. exact Hin.
Qed.

(** X18: a scene is initialised once per name: a name stays among the
    initialised names through every step other than [removeScene] of that
    name and [destroy], the transitions that destroy its scene included;
    [switchTo] with an initialised name calls no scene's [init]; and
    [destroy] forgets every initialised name. *)
Theorem X18_initialised_once (name : string) :
  (forall evs m,
     name ∈ initializedScenes (mgr m) ->
     Forall (fun e => ~ forgets name e) evs ->
     name ∈ initializedScenes (mgr (run evs m))) /\
  (forall ttype startTime now s s' t,
     name ∈ initializedScenes s ->
     switchTo name ttype startTime now s = Ok (s', t) ->
     exists l, effects s' = effects s ++ l /\
               forallb (fun e => negb (isInit e)) l = true) /\
  (forall m, name ∉ initializedScenes (mgr (step m CallDestroy))).
Proof.
  split; [| split].
  - induction evs as [| e evs IH]; intros m Hin Hall; [exact Hin |].
    apply Forall_cons in Hall as [He Hall].
    unfold run in *. cbn [fold_left]. apply IH; [| exact Hall].
    apply initialized_step; assumption.
  - intros ttype startTime now s s' t Hin Hs. unfold switchTo in Hs.
    destruct (scenes s !! name) as [newScene |]; [| discriminate].
    destruct (transitionActive s);
      [injection Hs as <- <-; exists []; rewrite app_nil_r; split; reflexivity |].
    destruct (bool_decide (currentScene s = Some newScene));
      [injection Hs as <- <-; exists []; rewrite app_nil_r; split; reflexivity |].
    cbn [initializedScenes] in Hs.
    rewrite bool_decide_eq_true_2 in Hs by exact Hin.
    unfold startTransition, performTransition in Hs.
    match type of Hs with
    | context [updateTransition ?f ?t ?a ?b ?s0] =>
        pose proof (updateTransition_keeps f t a b s0) as Hk; cbv zeta in Hk;
        destruct (updateTransition f t a b s0) as [s1 t1]
    end.
    injection Hs as <- <-. destruct Hk as (_ & _ & Hk). exact Hk.
  - intros m. cbn [step mgr destroy initializedScenes]. apply not_elem_of_empty.
Qed.

Lemma consistent_update m i fromScene toScene startTime now :
  consistent m ->
  tasks m !! i = Some (Animating fromScene toScene startTime) ->
  let r := updateTransition fromScene toScene startTime now (mgr m) in
  consistent {| mgr := fst r; tasks := delete i (tasks m) ++ spawn (snd r) |}.
Proof.
  intros (Hlen & Hidle & Hft) Hi r. subst r.
  assert (Ht : tasks m = [Animating fromScene toScene startTime] /\ i = 0%nat).
  { destruct (tasks m) as [| t [| t' ts]]; cbn [length] in Hlen; try lia;
      [discriminate |].
    destruct i as [| i]; [| discriminate]. injection Hi as ->. split; reflexivity. }
  destruct Ht as [Ht ->]. rewrite Ht.
  assert (Ha : transitionActive (mgr m) = true).
  { destruct (transitionActive (mgr m)); [reflexivity |].
    specialize (Hidle eq_refl). rewrite Hidle in Ht. discriminate. }
  unfold updateTransition. destruct (reachedOne _); cbn [fst snd spawn mgr tasks].
  - split; [cbn; lia |]. split; [reflexivity |]. left. split; reflexivity.
  - split; [cbn; lia |]. split; [intros Hc; cbn in Hc; congruence |].
    cbn [set_progress transitionFromScene transitionToScene transitionActive currentScene].
    exact Hft.
Qed.

Lemma consistent_start m newScene startTime now :
  transitionActive (mgr m) = true ->
  let r := startTransition newScene startTime now (mgr m) in
  consistent {| mgr := fst r; tasks := spawn (snd r) |}.
Proof.
  intros Ha r. subst r. unfold startTransition, performTransition, updateTransition.
  destruct (reachedOne _); cbn [fst snd spawn mgr tasks].
  - split; [cbn; lia |]. split; [reflexivity |]. left. split; reflexivity.
  - split; [cbn; lia |]. split; [intros Hc; cbn in Hc; congruence |].
    right. cbn. split; [exact Ha |]. split; [reflexivity | discriminate].
Qed.

Lemma consistent_step m e : consistent m -> consistent (step m e).
Proof.
  intros Hc. pose proof Hc as (Hlen & Hidle & Hft).
  destruct e as [sceneName ttype startTime now | n scene | n
                | i startTime now | i | i now | | duration]; cbn [step];
    [| | | | | |
     split; [exact Hlen |]; split; [exact Hidle | left; split; reflexivity] |
     split; [exact Hlen |]; split; [exact Hidle | exact Hft]].
  - unfold switchTo.
    destruct (scenes (mgr m) !! sceneName) as [newScene |]; [| exact Hc].
    destruct (transitionActive (mgr m)) eqn:Ha;
      [cbn [spawn]; rewrite app_nil_r; destruct m; exact Hc |].
    destruct (bool_decide (currentScene (mgr m) = Some newScene));
      [cbn [spawn]; rewrite app_nil_r; destruct m; exact Hc |].
    rewrite (Hidle eq_refl). cbn [app].
    destruct (bool_decide (sceneName ∈ _)).
    + match goal with
      | |- context [startTransition ?n ?a ?b ?s0] =>
          pose proof (consistent_start {| mgr := s0; tasks := [] |} n a b eq_refl) as H;
          cbn [mgr] in H;
          destruct (startTransition n a b s0) as [s' t']
      end.
      exact H.
    + cbn [mgr tasks spawn]. split; [cbn; lia |].
      split; [intros Hx; cbn in Hx; discriminate |].
      left. cbn. destruct Hft as [Hn | (Hx & _)]; [exact Hn | congruence].
  - split; [exact Hlen |]. split; [exact Hidle | exact Hft].
  - unfold removeScene. destruct (scenes (mgr m) !! n); [| destruct m; exact Hc].
    destruct (bool_decide _); [exact Hc |].
    split; [exact Hlen |]. split; [exact Hidle | exact Hft].
  - destruct (tasks m !! i) as [[sceneName newScene tt | f t st] |] eqn:Hi; try exact Hc.
    assert (Ht : tasks m = [AwaitInit sceneName newScene tt] /\ i = 0%nat).
    { destruct (tasks m) as [| t [| t' ts]]; cbn [length] in Hlen; try lia;
        [discriminate |].
      destruct i as [| i]; [| discriminate]. injection Hi as ->. split; reflexivity. }
    destruct Ht as [Ht ->]. rewrite Ht.
    assert (Ha : transitionActive (mgr m) = true).
    { destruct (transitionActive (mgr m)); [reflexivity |].
      specialize (Hidle eq_refl). rewrite Hidle in Ht. discriminate. }
    unfold switchTo_resume.
    match goal with
    | |- context [startTransition ?n ?a ?b ?s0] =>
        pose proof (consistent_start {| mgr := s0; tasks := [] |} n a b Ha) as H;
        cbn [mgr] in H;
        destruct (startTransition n a b s0) as [s' t']
    end.
    exact H.
  - destruct (tasks m !! i) as [[sceneName newScene tt | f t st] |] eqn:Hi; try exact Hc.
    assert (Ht : tasks m = [AwaitInit sceneName newScene tt] /\ i = 0%nat).
    { destruct (tasks m) as [| t [| t' ts]]; cbn [length] in Hlen; try lia;
        [discriminate |].
      destruct i as [| i]; [| discriminate]. injection Hi as ->. split; reflexivity. }
    destruct Ht as [Ht ->]. rewrite Ht.
    assert (Ha : transitionActive (mgr m) = true).
    { destruct (transitionActive (mgr m)); [reflexivity |].
      specialize (Hidle eq_refl). rewrite Hidle in Ht. discriminate. }
    split; [cbn; lia |]. split; [intros Hx; cbn in Hx; congruence |]. exact Hft.
  - destruct (tasks m !! i) as [[sceneName newScene tt | f t st] |] eqn:Hi; try exact Hc.
    pose proof (consistent_update m i f t st now Hc Hi) as H.
    destruct (updateTransition f t st now (mgr m)) as [s' t']. exact H.
Qed.

Lemma reachableM_consistent m : reachableM m -> consistent m.
Proof.
  intros [evs ->].
  assert (H0 : consistent (mkMachine init [])).
  { split; [cbn; lia |]. split; [reflexivity |]. left. split; reflexivity. }
  revert H0. generalize (mkMachine init []).
  induction evs as [| e evs IH]; intros m0 H0; [exact H0 |].
  unfold run in *. cbn [fold_left]. apply IH, consistent_step, H0.
Qed.

(** X19: in every state a new manager can come to, at most one
    [switchTo] call is suspended, and none between transitions; and the
    transition scenes are cleared between transitions, and during one
    either still cleared (the incoming scene is being initialised) or the
    current scene and the incoming scene. *)
Theorem X19_one_transition_at_a_time (m : Machine) :
  reachableM m ->
  (length (tasks m) <= 1)%nat /\
  (transitionActive (mgr m) = false -> tasks m = []) /\
  ((transitionFromScene (mgr m) = None /\ transitionToScene (mgr m) = None) \/
   (transitionActive (mgr m) = true /\
    transitionFromScene (mgr m) = currentScene (mgr m) /\
    transitionToScene (mgr m) <> None)).
Proof. intros Hr. exact (reachableM_consistent m Hr). Qed.

Lemma towardsGame_reachable : reachableM towardsGame.
Proof.
  exists ([CallAddScene "menu" 1; CallAddScene "game" 2] ++
          [CallSwitchTo "menu" NONE 0 0; InitResolved 0 10 10; AnimationFrame 0 510] ++
          [CallSwitchTo "game" FADE 1000 1000; InitResolved 0 1010 1010])%nat.
  unfold towardsGame, menuShown, twoScenes, run. rewrite !fold_left_app. reflexivity.
Qed.

Lemma X19_one_transition_witness :
  (length (tasks towardsGame) <= 1)%nat /\
  (transitionActive (mgr towardsGame) = false -> tasks towardsGame = []) /\
  ((transitionFromScene (mgr towardsGame) = None /\
    transitionToScene (mgr towardsGame) = None) \/
   (transitionActive (mgr towardsGame) = true /\
    transitionFromScene (mgr towardsGame) = currentScene (mgr towardsGame) /\
    transitionToScene (mgr towardsGame) <> None)).
Proof.
  apply (X19_one_transition_at_a_time towardsGame). apply towardsGame_reachable.
Defined.

(** *** What is drawn *)

(** X20: as long as a new manager has no current scene, that is until
    its first transition has ended, and again once it has been destroyed,
    [render] draws nothing, the incoming scene of that first transition
    included, and [update] updates no scene. *)
Theorem X20_nothing_drawn_without_current_scene (dims : Q * Q) (m : Machine) :
  reachableM m ->
  currentScene (mgr m) = None ->
  render dims (mgr m) = [] /\ update (mgr m) = None.
Proof.
  intros Hr Hc. destruct (reachableM_consistent m Hr) as (_ & _ & Hft).
  unfold render, update. rewrite Hc.
  split; [| destruct (transitionActive (mgr m)); reflexivity].
  destruct Hft as [[Hf _] | (_ & Hf & _)]; rewrite Hf, ?Hc;
    destruct (transitionActive (mgr m)); reflexivity.
Qed.

Lemma firstTransition_reachable : reachableM firstTransition.
Proof.
  exists ([CallAddScene "menu" 1; CallAddScene "game" 2] ++
          [CallSwitchTo "menu" FADE 0 0; InitResolved 0 10 10; AnimationFrame 0 260])%nat.
  unfold firstTransition, twoScenes, run. rewrite !fold_left_app. reflexivity.
Qed.

Lemma X20_nothing_drawn_witness :
  render (320, 180)%Q (mgr firstTransition) = [] /\ update (mgr firstTransition) = None.
Proof.
  apply (X20_nothing_drawn_without_current_scene (320, 180)%Q firstTransition).
  - apply firstTransition_reachable.
  - vm_compute. reflexivity.
Defined.

(** X21: during a fade between two scenes, after [updateTransition] has
    run at a clock reading before the end of the transition, [render]
    draws the outgoing scene with alpha 1 - p and then the incoming scene
    with alpha p, where p = elapsed / duration, and sets the alpha back to
    1; the two alphas add up to 1. *)
Theorem X21_fade_alphas (dims : Q * Q) (a b : SceneRef) (startTime now : Z) (s : State) :
  transitionActive s = true ->
  transitionFromScene s = Some a ->
  transitionToScene s = Some b ->
  transitionType s = FADE ->
  (0 < transitionDuration s)%Q ->
  (inject_Z (now - startTime) < transitionDuration s)%Q ->
  let p := (inject_Z (now - startTime) / transitionDuration s)%Q in
  render dims (fst (updateTransition (Some a) b startTime now s)) =
  [SetGlobalAlpha (Fin (1 - p)); RenderScene a;
   SetGlobalAlpha (Fin p); RenderScene b;
   SetGlobalAlpha (Fin 1)] /\
  ((1 - p) + p == 1)%Q.
Proof.
  intros Ha Hf Ht Hty Hd Hlt p.
  destruct (updateTransition_timing (Some a) b startTime now s Hd) as [Hbefore _].
  rewrite (Hbefore Hlt). cbn [fst]. unfold render.
  cbn [set_progress transitionActive transitionFromScene transitionToScene].
  rewrite Ha, Hf, Ht. unfold renderTransition.
  cbn [set_progress transitionType transitionProgress]. rewrite Hty.
  split; [reflexivity | ring].
Qed.

Lemma X21_fade_alphas_witness :
  let p := (inject_Z (1260 - 1010) / transitionDuration fadingToGame)%Q in
  render (320, 180)%Q (fst (updateTransition (Some 1%nat) 2%nat 1010 1260 fadingToGame)) =
  [SetGlobalAlpha (Fin (1 - p)); RenderScene 1%nat;
   SetGlobalAlpha (Fin p); RenderScene 2%nat;
   SetGlobalAlpha (Fin 1)] /\
  ((1 - p) + p == 1)%Q.
Proof.
  apply (X21_fade_alphas (320, 180)%Q 1%nat 2%nat 1010 1260 fadingToGame);
    vm_compute; reflexivity.
Defined.

(** X22: a slide at a finite progress p draws the outgoing scene and
    then the incoming scene, each between a [pushTransform] and a
    [popTransform], at offsets that differ by exactly the width (slides
    left and right) or the height (slides up and down) of the canvas, so
    that the two scenes are side by side; the offset across the slide is
    0, the outgoing scene is in place at p = 0 and the incoming scene at
    p = 1. *)
Theorem X22_slide_offsets (w h : Q) (a b : SceneRef) (p : Q) (direction : Direction) :
  exists x y x' y' : Q,
    renderSlideTransition (w, h) a b (Fin p) direction =
    [GetDimensions;
     PushTransform; Translate (Fin x) (Fin y); RenderScene a; PopTransform;
     PushTransform; Translate (Fin x') (Fin y'); RenderScene b; PopTransform] /\
    (x - x' == match direction with Left => w | Right => - w | Up | Down => 0 end)%Q /\
    (y - y' == match direction with Up => h | Down => - h | Left | Right => 0 end)%Q /\
    ((p == 0)%Q -> (x == 0)%Q /\ (y == 0)%Q) /\
    ((p == 1)%Q -> (x' == 0)%Q /\ (y' == 0)%Q).
Proof.
  destruct direction; cbn [renderSlideTransition scaleBy oneMinus fst snd];
    do 4 eexists; (split; [reflexivity |]); cbv beta iota; cbn [fst snd];
    (split; [ring |]); (split; [ring |]);
    split; intros Hp; rewrite Hp; split; ring.
Qed.

End SceneManagerProps.

(** ** AssetManager: loading one asset, progress, unloading *)

Module AssetManagerProps.
Import AssetManager AssetManagerSpec.

Lemma fresh_record (request : AssetRequest) (s : State) (f : Asset -> Asset) :
  alter f (length (heap s))
    (heap s ++ [mkAsset (r_id request) (r_type request) (r_path request) false None None])
    !! length (heap s)
  = Some (f (mkAsset (r_id request) (r_type request) (r_path request) false None None)).
Proof.
  rewrite list_lookup_alter_eq, lookup_app_r by lia.
  rewrite Nat.sub_diag. reflexivity.
Qed.

(** X23: loading an asset that is not loaded yet, the load succeeding
    with [data] before any other call: the call awaits a new load; once it
    has settled, the asset registered under the id is loaded and holds the
    data, the loaded counter has gone up by one, no load promise is left
    for the id, and a further [loadAsset] for the id returns that asset at
    once, starting no load and changing nothing. *)
Theorem X23_load_then_cached (request : AssetRequest) (data : Data) (s : State) :
  cachedAsset request s = None ->
  let a := length (heap s) in
  let s1 := fst (loadAsset request s) in
  let s2 := fst (loadAsset_settle a request (inl data) s1) in
  snd (loadAsset request s) = Awaiting a (length (started s)) request /\
  started s1 = started s ++ [request] /\
  getAsset (r_id request) s2 =
    Some (mkAsset (r_id request) (r_type request) (r_path request) true (Some data) None) /\
  isAssetLoaded (r_id request) s2 = true /\
  loadedAssets s2 = S (loadedAssets s) /\
  failedAssets s2 = failedAssets s /\
  loadPromises s2 !! r_id request = None /\
  loadAsset request s2 = (s2, Cached a).
Proof.
  intros Hunc a s1 s2. subst a s1 s2.
  rewrite (loadAsset_uncached _ _ Hunc). cbn [fst snd loadAsset_settle].
  set (s2 := {| heap := alter (markLoaded data) (length (heap s)) _; assets := _;
                totalAssets := _; loadedAssets := _; failedAssets := _;
                loadPromises := _; started := _ |}).
  assert (Hg : getAsset (r_id request) s2
               = Some (mkAsset (r_id request) (r_type request) (r_path request)
                         true (Some data) None)).
  { unfold getAsset, s2. cbn [assets heap]. rewrite lookup_insert_eq.
    rewrite fresh_record. reflexivity. }
  split; [reflexivity |]. split; [reflexivity |]. split; [exact Hg |].
  split; [unfold isAssetLoaded; rewrite Hg; reflexivity |].
  split; [reflexivity |]. split; [reflexivity |].
  split; [unfold s2; cbn [loadPromises]; apply lookup_delete_eq |].
  unfold loadAsset, cachedAsset, s2. cbn [assets heap].
  rewrite lookup_insert_eq, fresh_record. reflexivity.
Qed.

Lemma X23_load_then_cached_witness :
  let a := length (heap init) in
  let s1 := fst (loadAsset reqHero init) in
  let s2 := fst (loadAsset_settle a reqHero (inl 7%nat) s1) in
  snd (loadAsset reqHero init) = Awaiting a (length (started init)) reqHero /\
  started s1 = started init ++ [reqHero] /\
  getAsset (r_id reqHero) s2 =
    Some (mkAsset (r_id reqHero) (r_type reqHero) (r_path reqHero) true (Some 7%nat) None) /\
  isAssetLoaded (r_id reqHero) s2 = true /\
  loadedAssets s2 = S (loadedAssets init) /\
  failedAssets s2 = failedAssets init /\
  loadPromises s2 !! r_id reqHero = None /\
  loadAsset reqHero s2 = (s2, Cached a).
Proof. apply (X23_load_then_cached reqHero 7%nat init). reflexivity. Defined.

(** X24: when the load fails with message [msg] instead, the record
    stays registered under the id, not loaded, with the message as its
    error; the failed counter has gone up by one; and a failure is not
    remembered: a further [loadAsset] for the id starts a new load with a
    new record. *)
Theorem X24_failed_load_is_retried (request : AssetRequest) (msg : string) (s : State) :
  cachedAsset request s = None ->
  let a := length (heap s) in
  let s2 := fst (loadAsset_settle a request (inr msg) (fst (loadAsset request s))) in
  snd (loadAsset_settle a request (inr msg) (fst (loadAsset request s))) = inr msg /\
  getAsset (r_id request) s2 =
    Some (mkAsset (r_id request) (r_type request) (r_path request) false None (Some msg)) /\
  isAssetLoaded (r_id request) s2 = false /\
  failedAssets s2 = S (failedAssets s) /\
  loadedAssets s2 = loadedAssets s /\
  snd (loadAsset request s2) = Awaiting (S a) (S (length (started s))) request /\
  started (fst (loadAsset request s2)) = started s ++ [request; request].
Proof.
  intros Hunc a s2. subst a s2.
  rewrite (loadAsset_uncached _ _ Hunc). cbn [fst snd loadAsset_settle].
  set (s2 := {| heap := alter (markFailed msg) (length (heap s)) _; assets := _;
                totalAssets := _; loadedAssets := _; failedAssets := _;
                loadPromises := _; started := _ |}).
  assert (Hg : getAsset (r_id request) s2
               = Some (mkAsset (r_id request) (r_type request) (r_path request)
                         false None (Some msg))).
  { unfold getAsset, s2. cbn [assets heap]. rewrite lookup_insert_eq.
    rewrite fresh_record. reflexivity. }
  assert (Hc : cachedAsset request s2 = None).
  { unfold cachedAsset, s2. cbn [assets heap].
    rewrite lookup_insert_eq, fresh_record. reflexivity. }
  split; [reflexivity |]. split; [exact Hg |].
  split; [unfold isAssetLoaded; rewrite Hg; reflexivity |].
  split; [reflexivity |]. split; [reflexivity |].
  rewrite (loadAsset_uncached _ _ Hc). cbn [fst snd started]. unfold s2.
  cbn [heap started]. rewrite length_alter, !length_app. cbn [length].
  rewrite <- app_assoc. split; [f_equal; lia | reflexivity].
Qed.

Lemma X24_failed_load_witness :
  let a := length (heap init) in
  let s2 := fst (loadAsset_settle a reqMap (inr "404"%string) (fst (loadAsset reqMap init))) in
  snd (loadAsset_settle a reqMap (inr "404"%string) (fst (loadAsset reqMap init)))
    = inr "404"%string /\
  getAsset (r_id reqMap) s2 =
    Some (mkAsset (r_id reqMap) (r_type reqMap) (r_path reqMap) false None
            (Some "404"%string)) /\
  isAssetLoaded (r_id reqMap) s2 = false /\
  failedAssets s2 = S (failedAssets init) /\
  loadedAssets s2 = loadedAssets init /\
  snd (loadAsset reqMap s2) = Awaiting (S a) (S (length (started init))) reqMap /\
  started (fst (loadAsset reqMap s2)) = started init ++ [reqMap; reqMap].
Proof. apply (X24_failed_load_is_retried reqMap "404"%string init). reflexivity. Defined.

(** *** Progress *)

(** X25: the percentage [getProgress] reports always lies between 0 and
    100; when a batch has been requested (totalAssets > 0) it is 100
    exactly when [isFullyLoaded] holds, that is when the loaded and the
    failed assets together are at least the total; and with no batch
    requested [isFullyLoaded] holds whatever the percentage. *)
Theorem X25_progress_percentage (s : State) :
  (0 <= percentage (getProgress s))%Q /\
  (percentage (getProgress s) <= 100)%Q /\
  ((0 < totalAssets s)%nat ->
   (isFullyLoaded s = true <-> (percentage (getProgress s) == 100)%Q) /\
   (isFullyLoaded s = true <-> (totalAssets s <= loadedAssets s + failedAssets s)%nat)) /\
  (totalAssets s = 0%nat -> isFullyLoaded s = true).
Proof.
  unfold getProgress, isFullyLoaded. cbn [percentage].
  set (p := (loadedAssets s + failedAssets s)%nat).
  set (t := Nat.max (totalAssets s) 1).
  assert (Ht : (1 <= t)%nat) by (unfold t; lia).
  assert (Htq : (0 < inject_Z (Z.of_nat t))%Q).
  { change 0%Q with (inject_Z 0). rewrite <- Zlt_Qlt. lia. }
  assert (Hpq : (0 <= inject_Z (Z.of_nat p))%Q).
  { change 0%Q with (inject_Z 0). rewrite <- Zle_Qle. lia. }
  assert (Hq0 : (0 <= inject_Z (Z.of_nat p) / inject_Z (Z.of_nat t) * 100)%Q).
  { apply Qmult_le_0_compat; [| discriminate].
    apply Qle_shift_div_l; [exact Htq | Lqa.lra]. }
  split; [apply Q.min_glb; [exact Hq0 | discriminate] |].
  split; [apply Q.le_min_r |].
  split.
  - intros Hpos.
    assert (Et : t = totalAssets s) by (unfold t; lia).
    destruct (Nat.eqb_spec (totalAssets s) 0) as [E0 | _]; [lia |].
    assert (Hiff : (totalAssets s <= p)%nat <->
                   (100 <= inject_Z (Z.of_nat p) / inject_Z (Z.of_nat t) * 100)%Q).
    { rewrite <- Et. split.
      - intros Hle.
        assert (H1 : (1 <= inject_Z (Z.of_nat p) / inject_Z (Z.of_nat t))%Q).
        { apply Qle_shift_div_l; [exact Htq |]. rewrite Qmult_1_l, <- Zle_Qle. lia. }
        Lqa.lra.
      - intros Hge.
        assert (H1 : (1 <= inject_Z (Z.of_nat p) / inject_Z (Z.of_nat t))%Q) by Lqa.lra.
        assert (H2 : (inject_Z (Z.of_nat p) / inject_Z (Z.of_nat t)
                      * inject_Z (Z.of_nat t) == inject_Z (Z.of_nat p))%Q).
        { field. intros H0. rewrite H0 in Htq. discriminate. }
        pose proof (Qmult_le_compat_r _ _ (inject_Z (Z.of_nat t)) H1
                      (Qlt_le_weak _ _ Htq)) as H3.
        rewrite H2, Qmult_1_l, <- Zle_Qle in H3. lia. }
    split; [| rewrite Nat.leb_le; reflexivity].
    rewrite Nat.leb_le, Hiff. split.
    + intros Hge. apply Q.min_r, Hge.
    + intros Hmin.
      destruct (Q.min_spec (inject_Z (Z.of_nat p) / inject_Z (Z.of_nat t) * 100) 100)
        as [[Hlt E] | [Hle _]]; [| exact Hle].
      rewrite E in Hmin. Lqa.lra.
  - intros E0. rewrite E0. reflexivity.
Qed.

(** *** Unloading *)

Lemma unloadAsset_assets id s : assets (unloadAsset id s) = delete id (assets s).
Proof.
  unfold unloadAsset. destruct (assets s !! id) eqn:E; [reflexivity |].
  symmetry. apply delete_id, E.
Qed.

Lemma unloadAsset_rest id s :
  heap (unloadAsset id s) = heap s /\
  totalAssets (unloadAsset id s) = totalAssets s /\
  loadedAssets (unloadAsset id s) = loadedAssets s /\
  failedAssets (unloadAsset id s) = failedAssets s /\
  loadPromises (unloadAsset id s) = loadPromises s /\
  started (unloadAsset id s) = started s.
Proof. unfold unloadAsset. destruct (assets s !! id); repeat split. Qed.

(** X26: after [unloadAsset (id)] no asset is registered under the id
    and every other id is as before; the counters, and with them
    [getProgress], do not change; unloading an id that is not registered
    changes nothing; and a later [loadAsset] for the id starts a load
    again. *)
Theorem X26_unloadAsset (id : string) (s : State) :
  getAsset id (unloadAsset id s) = None /\
  isAssetLoaded id (unloadAsset id s) = false /\
  (forall other, other <> id ->
     getAsset other (unloadAsset id s) = getAsset other s) /\
  getProgress (unloadAsset id s) = getProgress s /\
  (assets s !! id = None -> unloadAsset id s = s) /\
  (forall request, r_id request = id ->
     exists a p, snd (loadAsset request (unloadAsset id s)) = Awaiting a p request).
Proof.
  destruct (unloadAsset_rest id s) as (Hh & Ht & Hl & Hf & _ & _).
  pose proof (unloadAsset_assets id s) as Ha.
  assert (Hg : getAsset id (unloadAsset id s) = None)
    by (unfold getAsset; rewrite Ha, lookup_delete_eq; reflexivity).
  split; [exact Hg |].
  split; [unfold isAssetLoaded; rewrite Hg; reflexivity |].
  split.
  { intros other Hne. unfold getAsset.
    rewrite Ha, Hh, lookup_delete_ne by congruence. reflexivity. }
  split; [unfold getProgress; rewrite Ht, Hl, Hf; reflexivity |].
  split; [intros Hn; unfold unloadAsset; rewrite Hn; reflexivity |].
  intros request <-. unfold loadAsset, cachedAsset.
  rewrite Ha, lookup_delete_eq. eauto.
Qed.

Lemma foldr_unloadAsset ids : forall s,
  assets (foldr unloadAsset s ids) = foldr delete (assets s) ids /\
  heap (foldr unloadAsset s ids) = heap s /\
  started (foldr unloadAsset s ids) = started s.
Proof.
  induction ids as [| id ids IH]; intros s; [repeat split |].
  cbn [foldr]. destruct (IH s) as (Ha & Hh & Hs).
  destruct (unloadAsset_rest id (foldr unloadAsset s ids)) as (Hh' & _ & _ & _ & _ & Hs').
  rewrite unloadAsset_assets, Ha, Hh', Hh, Hs', Hs. repeat split.
Qed.

Lemma foldr_delete_lookup (m : gmap string nat) ids id :
  foldr delete m ids !! id = if bool_decide (id ∈ ids) then None else m !! id.
Proof.
  induction ids as [| k ids IH]; [reflexivity |].
  cbn [foldr]. destruct (decide (k = id)) as [-> | Hne].
  - rewrite lookup_delete_eq, bool_decide_eq_true_2 by (left). reflexivity.
  - rewrite lookup_delete_ne, IH by exact Hne.
    destruct (bool_decide (id ∈ ids)) eqn:E.
    + apply bool_decide_eq_true_1 in E.
      rewrite bool_decide_eq_true_2 by (right; exact E). reflexivity.
    + apply bool_decide_eq_false_1 in E.
      rewrite bool_decide_eq_false_2; [reflexivity |].
      intros Hin. apply elem_of_cons in Hin as [-> | Hin]; [congruence | contradiction].
Qed.

(** X27: [unloadAllAssets] leaves no asset registered, whatever was in
    the map, resets the three counters to 0 and forgets every load
    promise; [getProgress] then reports 0 of 0, at 0 percent, and
    [isFullyLoaded] holds. *)
Theorem X27_unloadAllAssets (s : State) :
  assets (unloadAllAssets s) = ∅ /\
  (forall id, getAsset id (unloadAllAssets s) = None) /\
  loadPromises (unloadAllAssets s) = ∅ /\
  total (getProgress (unloadAllAssets s)) = 0%nat /\
  loaded (getProgress (unloadAllAssets s)) = 0%nat /\
  failedCount (getProgress (unloadAllAssets s)) = 0%nat /\
  (percentage (getProgress (unloadAllAssets s)) == 0)%Q /\
  isFullyLoaded (unloadAllAssets s) = true.
Proof.
  assert (Ha : assets (unloadAllAssets s) = ∅).
  { unfold unloadAllAssets. cbn [assets].
    destruct (foldr_unloadAsset (map fst (map_to_list (assets s))) s) as (Hf & _).
    rewrite Hf. apply map_eq. intros id.
    rewrite foldr_delete_lookup, lookup_empty.
    destruct (bool_decide _) eqn:E; [reflexivity |].
    apply bool_decide_eq_false_1 in E.
    destruct (assets s !! id) as [a |] eqn:Hl; [| reflexivity].
    exfalso. apply E. apply list_elem_of_fmap. exists (id, a).
    split; [reflexivity |]. apply elem_of_map_to_list, Hl. }
  split; [exact Ha |].
  split; [intros id; unfold getAsset; rewrite Ha, lookup_empty; reflexivity |].
  repeat split.
Qed.

(** X28: an asset unloaded while its load is pending is lost: when the
    load succeeds afterwards the loaded counter still goes up, but no asset
    is registered under the id, so that [isAssetLoaded] is false and
    [loadAsset] would start the load again. *)
Theorem X28_unload_while_loading (request : AssetRequest) (data : Data) (s : State) :
  cachedAsset request s = None ->
  let a := length (heap s) in
  let s2 := unloadAsset (r_id request) (fst (loadAsset request s)) in
  let s3 := fst (loadAsset_settle a request (inl data) s2) in
  snd (loadAsset_settle a request (inl data) s2) = inl a /\
  loadedAssets s3 = S (loadedAssets s) /\
  getAsset (r_id request) s3 = None /\
  isAssetLoaded (r_id request) s3 = false /\
  cachedAsset request s3 = None.
Proof.
  intros Hunc a s2 s3. subst a s2 s3.
  rewrite (loadAsset_uncached _ _ Hunc). cbn [fst].
  unfold unloadAsset. cbn [assets]. rewrite lookup_insert_eq.
  cbn [loadAsset_settle fst snd heap assets loadedAssets].
  assert (Hg : forall h t l f p st,
             getAsset (r_id request)
               {| heap := h;
                  assets := delete (r_id request)
                              (<[r_id request := length (heap s)]> (assets s));
                  totalAssets := t; loadedAssets := l; failedAssets := f;
                  loadPromises := p; started := st |} = None).
  { intros. unfold getAsset. cbn [assets]. rewrite lookup_delete_eq. reflexivity. }
  split; [reflexivity |]. split; [reflexivity |].
  split; [apply Hg |].
  split; [unfold isAssetLoaded; rewrite Hg; reflexivity |].
  unfold cachedAsset. cbn [assets]. rewrite lookup_delete_eq. reflexivity.
Qed.

Lemma X28_unload_while_loading_witness :
  let a := length (heap init) in
  let s2 := unloadAsset (r_id reqHero) (fst (loadAsset reqHero init)) in
  let s3 := fst (loadAsset_settle a reqHero (inl 7%nat) s2) in
  snd (loadAsset_settle a reqHero (inl 7%nat) s2) = inl a /\
  loadedAssets s3 = S (loadedAssets init) /\
  getAsset (r_id reqHero) s3 = None /\
  isAssetLoaded (r_id reqHero) s3 = false /\
  cachedAsset reqHero s3 = None.
Proof. apply (X28_unload_while_loading reqHero 7%nat init). reflexivity. Defined.

(** *** Batches *)

Lemma countSlots_settled slots :
  countSlots isSettled slots = (countSlots succeeded slots + countSlots failed slots)%nat.
Proof.
  unfold countSlots. induction slots as [| sl slots IH]; [reflexivity |].
  destruct sl as [a r | [a |]]; cbn [List.filter isSettled succeeded failed length];
    rewrite IH; lia.
Qed.

Lemma countSlots_all slots :
  (countSlots isSettled slots <= length slots)%nat /\
  (countSlots isSettled slots = length slots <-> forallb isSettled slots = true).
Proof.
  unfold countSlots.
  induction slots as [| sl slots (IHle & IHiff)];
    [cbn; split; [lia | split; reflexivity] |].
  destruct sl as [a r | res]; cbn [List.filter isSettled forallb length andb].
  - split; [lia |]. split; [lia | discriminate].
  - split; [lia |]. split; intros H.
    + apply IHiff. lia.
    + apply IHiff in H. lia.
Qed.

Lemma slotsOk_settle a request outcome s slots :
  slotsOk s slots ->
  slotsOk (fst (loadAsset_settle a request outcome s)) slots.
Proof.
  unfold slotsOk. intros Hall. eapply Forall_impl; [exact Hall |].
  intros [a' r' | [a' |]]; destruct outcome as [data | msg];
    cbn [loadAsset_settle fst heap]; rewrite ?length_alter; auto;
    intros (asset & Hh & Hld);
    (destruct (decide (a = a')) as [<- | Hne];
     [| exists asset; rewrite list_lookup_alter_ne by exact Hne; split; assumption]).
  - exists (markLoaded data asset). rewrite list_lookup_alter_eq, Hh. split; reflexivity.
  - exists (markFailed msg asset). rewrite list_lookup_alter_eq, Hh.
    split; [reflexivity | exact Hld].
Qed.

Lemma settle_counters a request outcome s :
  totalAssets (fst (loadAsset_settle a request outcome s)) = totalAssets s /\
  (loadedAssets (fst (loadAsset_settle a request outcome s)) +
   failedAssets (fst (loadAsset_settle a request outcome s))
   = S (loadedAssets s + failedAssets s))%nat.
Proof. destruct outcome; cbn; split; lia. Qed.

Lemma loadingInv_begin requests others s :
  Forall (fun r => cachedAsset r s = None) requests ->
  loadingInv (length others) (beginBatch requests others s) /\
  length (l_slots (beginBatch requests others s)) = length requests.
Proof.
  intros Hunc. destruct (batchInv_initial requests s Hunc) as [(Ht & Hl & Hf & Hall) Hlen].
  split; [| exact Hlen].
  unfold loadingInv, beginBatch. cbn [l_state l_slots l_others].
  split; [exact Ht |]. split; [| exact Hall].
  rewrite countSlots_settled. lia.
Qed.

Lemma proceeds_loadingInv n0 w w' :
  loadingInv n0 w -> proceeds w w' ->
  loadingInv n0 w' /\ length (l_slots w') = length (l_slots w).
Proof.
  intros (Ht & Hc & Hok) [(i & outcome & Hs) | (j & outcome & Hs)].
  - unfold settleOwn, settleSlot in Hs. cbn [fst snd] in Hs.
    destruct (l_slots w !! i) as [[a request | r] |] eqn:Hi; try discriminate.
    destruct (settle_counters a request outcome (l_state w)) as [Ht' Hc'].
    pose proof (slotsOk_settle a request outcome _ _ Hok) as Hok'.
    destruct (loadAsset_settle a request outcome (l_state w)) as [s1 r] eqn:Hset.
    cbn [fst] in Ht', Hc', Hok'.
    injection Hs as <-. unfold loadingInv. cbn [l_state l_slots l_others fst snd].
    rewrite length_insert.
    pose proof (countSlots_insert isSettled (l_slots w) i _
                  (Settled match r with inl asset => Some asset | inr _ => None end) Hi)
      as Hcnt.
    cbn [isSettled Nat.b2n] in Hcnt.
    split; [| reflexivity].
    split; [congruence |]. split; [lia |].
    apply Forall_insert; [exact Hok' |].
    assert (Ha : (a < length (heap (l_state w)))%nat).
    { eapply Forall_lookup_1 in Hok; [| exact Hi]. exact Hok. }
    destruct (lookup_lt_is_Some_2 (heap (l_state w)) a Ha) as [asset Hh].
    destruct outcome as [data | msg]; cbn [loadAsset_settle] in Hset;
      injection Hset as <- <-; [| exact I].
    exists (markLoaded data asset). cbn [heap].
    rewrite list_lookup_alter_eq, Hh. split; reflexivity.
  - unfold settleOther in Hs.
    destruct (l_others w !! j) as [[a request] |] eqn:Hj; [| discriminate].
    injection Hs as <-. unfold loadingInv. cbn [l_state l_slots l_others].
    destruct (settle_counters a request outcome (l_state w)) as [Ht' Hc'].
    split; [| reflexivity].
    split; [congruence |]. split; [| apply slotsOk_settle, Hok].
    pose proof (lookup_lt_Some _ _ _ Hj) as Hlt.
    rewrite length_delete by eauto. lia.
Qed.

Lemma rtc_proceeds_loadingInv n0 w w' :
  rtc proceeds w w' -> loadingInv n0 w ->
  loadingInv n0 w' /\ length (l_slots w') = length (l_slots w).
Proof.
  induction 1 as [| w1 w2 w3 Hstep _ IH]; intros Hinv; [split; [exact Hinv | reflexivity] |].
  destruct (proceeds_loadingInv _ _ _ Hinv Hstep) as [Hinv2 Hlen2].
  destruct (IH Hinv2) as [Hinv3 Hlen3]. split; [exact Hinv3 | congruence].
Qed.

(** With no other call pending, the steps of a batch are the settlements
    of its own loads. *)
Lemma rtc_proceeds_alone w w' :
  rtc proceeds w w' -> l_others w = [] ->
  l_others w' = [] /\
  rtc settles (l_state w, l_slots w) (l_state w', l_slots w').
Proof.
  induction 1 as [| w1 w2 w3 Hstep _ IH]; intros Hnil; [split; [exact Hnil | apply rtc_refl] |].
  destruct Hstep as [(i & outcome & Hs) | (j & outcome & Hs)].
  - unfold settleOwn in Hs.
    destruct (settleSlot i outcome (l_state w1, l_slots w1)) as [b |] eqn:Hb;
      [| discriminate].
    injection Hs as <-. cbn [l_others l_state l_slots] in IH.
    destruct (IH Hnil) as [Hnil3 Hrtc]. split; [exact Hnil3 |].
    eapply rtc_l; [exists i, outcome; exact Hb |].
    destruct b as [s2 slots2]. exact Hrtc.
  - unfold settleOther in Hs. rewrite Hnil in Hs. discriminate Hs.
Qed.

Lemma slotsOk_result s slots :
  slotsOk s slots ->
  Forall (fun a => exists asset, heap s !! a = Some asset /\ a_loaded asset = true)
         (omap slotAsset slots).
Proof.
  unfold slotsOk. intros Hall.
  induction Hall as [| sl slots Hsl _ IH]; [constructor |].
  destruct sl as [a r | [a |]]; cbn [omap list_omap slotAsset];
    fold (@omap list _ _ _ slotAsset slots); auto.
Qed.

(** X29: for a [loadAssets] call none of whose requests has its asset
    loaded already, and as long as no method of the manager is called while
    the batch is under way: at every moment the loaded and the failed
    counter together count the loads that have settled since the batch
    began, of the batch and of the calls that were pending when it began;
    when every load of the batch has settled the call resolves with the
    assets that loaded.  So, when no call was pending as the batch began,
    the two counters count the settled loads of the batch, [isFullyLoaded]
    holds, for a batch that is not empty, exactly when every load of the
    batch has settled, and the call resolves with as many assets as the
    loaded counter says. *)
Theorem X29_fully_loaded_iff_all_settled (s : State) (requests : list AssetRequest)
  (others : list (AssetRef * AssetRequest)) (final : Loading) :
  Forall (fun r => cachedAsset r s = None) requests ->
  rtc proceeds (beginBatch requests others s) final ->
  length (l_slots final) = length requests /\
  totalAssets (l_state final) = length requests /\
  (loadedAssets (l_state final) + failedAssets (l_state final)
   = countSlots isSettled (l_slots final)
     + (length others - length (l_others final)))%nat /\
  (length (l_others final) <= length others)%nat /\
  (forallb isSettled (l_slots final) = true ->
   exists result,
     loadAssets_result (l_slots final) = Some result /\
     length result = countSlots succeeded (l_slots final) /\
     Forall (fun a => exists asset,
               heap (l_state final) !! a = Some asset /\ a_loaded asset = true) result) /\
  (others = [] ->
   loadedAssets (l_state final) = countSlots succeeded (l_slots final) /\
   failedAssets (l_state final) = countSlots failed (l_slots final) /\
   (requests <> [] ->
    (isFullyLoaded (l_state final) = true <-> forallb isSettled (l_slots final) = true))).
Proof.
  intros Hunc Hrun.
  destruct (loadingInv_begin requests others s Hunc) as [Hinv0 Hlen0].
  destruct (rtc_proceeds_loadingInv _ _ _ Hrun Hinv0) as [(Ht & Hc & Hok) Hlen].
  rewrite Hlen0 in Hlen.
  assert (Hle : (length (l_others final) <= length others)%nat).
  { clear -Hrun. remember (beginBatch requests others s) as w0 eqn:E.
    assert (Hw0 : (length (l_others w0) <= length others)%nat) by (subst w0; cbn; lia).
    clear E. induction Hrun as [| w1 w2 w3 Hstep _ IH]; [exact Hw0 |].
    apply IH. destruct Hstep as [(i & o & Hs) | (j & o & Hs)].
    - unfold settleOwn in Hs. destruct (settleSlot _ _ _); [| discriminate].
      injection Hs as <-. exact Hw0.
    - unfold settleOther in Hs.
      destruct (l_others w1 !! j) as [[a r] |] eqn:Hj; [| discriminate].
      injection Hs as <-. cbn [l_others]. rewrite length_delete by eauto. lia. }
  split; [exact Hlen |]. split; [congruence |]. split; [lia |]. split; [exact Hle |].
  split.
  - intros Hall. exists (omap slotAsset (l_slots final)).
    split; [unfold loadAssets_result; rewrite Hall; reflexivity |].
    split; [apply result_length | apply slotsOk_result, Hok].
  - intros ->.
    destruct (rtc_proceeds_alone _ _ Hrun eq_refl) as [_ Hrtc].
    cbn [beginBatch l_state l_slots] in Hrtc.
    destruct (batchInv_initial requests s Hunc) as [Hb0 _].
    rewrite <- surjective_pairing in Hrtc.
    pose proof (rtc_settles_batchInv _ _ Hrtc Hb0) as (_ & Hl & Hf & _).
    cbn [fst snd] in Hl, Hf.
    split; [exact Hl |]. split; [exact Hf |].
    intros Hne. unfold isFullyLoaded.
    destruct (countSlots_all (l_slots final)) as [Hcle Hiff].
    destruct (Nat.eqb_spec (totalAssets (l_state final)) 0) as [E0 | _].
    + destruct requests; [contradiction | cbn [length] in Hlen; lia].
    + rewrite countSlots_settled in Hcle, Hiff. rewrite Nat.leb_le, <- Hiff. lia.
Qed.

Lemma X29_fully_loaded_witness :
  length (l_slots batchBesidePending) = length [reqHero; reqJump; reqMap] /\
  totalAssets (l_state batchBesidePending) = length [reqHero; reqJump; reqMap] /\
  (loadedAssets (l_state batchBesidePending) + failedAssets (l_state batchBesidePending)
   = countSlots isSettled (l_slots batchBesidePending)
     + (length [(0%nat, reqHero)] - length (l_others batchBesidePending)))%nat /\
  (length (l_others batchBesidePending) <= length [(0%nat, reqHero)])%nat /\
  (forallb isSettled (l_slots batchBesidePending) = true ->
   exists result,
     loadAssets_result (l_slots batchBesidePending) = Some result /\
     length result = countSlots succeeded (l_slots batchBesidePending) /\
     Forall (fun a => exists asset,
               heap (l_state batchBesidePending) !! a = Some asset /\
               a_loaded asset = true) result) /\
  ([(0%nat, reqHero)] = [] ->
   loadedAssets (l_state batchBesidePending)
     = countSlots succeeded (l_slots batchBesidePending) /\
   failedAssets (l_state batchBesidePending)
     = countSlots failed (l_slots batchBesidePending) /\
   ([reqHero; reqJump; reqMap] <> [] ->
    (isFullyLoaded (l_state batchBesidePending) = true <->
     forallb isSettled (l_slots batchBesidePending) = true))).
Proof.
  apply (X29_fully_loaded_iff_all_settled heroPending [reqHero; reqJump; reqMap]
           [(0%nat, reqHero)] batchBesidePending).
  - repeat constructor.
  - eapply rtc_l; [left; exists 1%nat, (inl 8%nat); vm_compute; reflexivity |].
    eapply rtc_l;
      [left; exists 2%nat, (inr "Failed to load JSON: missing.json"%string);
       vm_compute; reflexivity |].
    eapply rtc_l; [right; exists 0%nat, (inl 7%nat); vm_compute; reflexivity |].
    apply rtc_refl.
Defined.

End AssetManagerProps.

(** ** MenuScene *)

Module MenuSceneProps.
Import MenuScene.
Local Open Scope Z_scope.

Lemma inRange_cases i : 0 <= i < 4 -> i = 0 \/ i = 1 \/ i = 2 \/ i = 3.
Proof. lia. Qed.

Lemma step_inRange i input : 0 <= i < 4 -> 0 <= step i input < 4.
Proof.
  intros Hi. destruct input as [[] | index]; cbn [step]; try exact Hi.
  - apply inRange_cases in Hi as [-> | [-> | [-> | ->]]]; vm_compute; split; congruence.
  - apply inRange_cases in Hi as [-> | [-> | [-> | ->]]]; vm_compute; split; congruence.
  - destruct (Nat.ltb_spec index (length menuOptions)) as [Hlt | _]; [| exact Hi].
    unfold selectOption. cbn [menuOptions length] in Hlt. lia.
Qed.

Lemma fold_inRange inputs i :
  0 <= i < 4 -> 0 <= fold_left step inputs i < 4.
Proof.
  revert i. induction inputs as [| input inputs IH]; intros i Hi; [exact Hi |].
  cbn [fold_left]. apply IH, step_inRange, Hi.
Qed.

Lemma run_snoc inputs input : run (inputs ++ [input]) = step (run inputs) input.
Proof. unfold run. rewrite fold_left_app. reflexivity. Qed.

(** X30: whatever keys are pressed and buttons clicked, the selected
    index denotes one of the four options.  It stays within 0..3; ArrowDown
    moves it to the next option and from the last option to the first,
    ArrowUp to the previous option and from the first to the last, so that
    each undoes the other; a click on the button of an option selects that
    option; [getSelectedOption] returns the option at the selected index,
    never the fallback for a missing one; and [updateSelectedOption] marks
    the button of that option and no other. *)
Theorem X30_selection_in_range (inputs : list Input) :
  0 <= run inputs < 4 /\
  menuOptions !! Z.to_nat (run inputs) = Some (getSelectedOption (run inputs)) /\
  run (inputs ++ [KeyDown ArrowDown]) = selectNext (run inputs) /\
  selectNext (run inputs) = (if run inputs =? 3 then 0 else run inputs + 1) /\
  run (inputs ++ [KeyDown ArrowUp]) = selectPrevious (run inputs) /\
  selectPrevious (run inputs) = (if run inputs =? 0 then 3 else run inputs - 1) /\
  selectPrevious (selectNext (run inputs)) = run inputs /\
  selectNext (selectPrevious (run inputs)) = run inputs /\
  (forall index : nat,
     run (inputs ++ [Click index]) =
     if (index <? 4)%nat then Z.of_nat index else run inputs) /\
  (forall index : nat,
     updateSelectedOption (run inputs) !! index =
     if (index <? 4)%nat then Some (Z.of_nat index =? run inputs) else None).
Proof.
  assert (Hr : 0 <= run inputs < 4) by (apply fold_inRange; lia).
  split; [exact Hr |].
  assert (Hclick : forall index : nat,
            run (inputs ++ [Click index]) =
            if (index <? 4)%nat then Z.of_nat index else run inputs)
    by (intros index; rewrite run_snoc; reflexivity).
  rewrite !run_snoc. cbn [step]. revert Hclick.
  apply inRange_cases in Hr as [-> | [-> | [-> | ->]]]; intros Hclick;
    repeat (split; [first [reflexivity | exact Hclick] |]);
    intros [| [| [| [| index]]]]; reflexivity.
Qed.

End MenuSceneProps.
